(** * ImageStitching: homography estimation, RANSAC, warping and stitching

    A shallow embedding of [main.py] and the properties of its functions.

    Numbers.  numpy's float64 values are modelled as _extended rationals_:
    a finite value is an exact rational ([Qc]); the three special values
    [inf], [-inf] and [nan] are kept, because the perspective divide of
    [transform_points] produces them instead of raising.  Rounding is not
    modelled, and the two signed zeros are one value.

    Library calls.  [np.linalg.lstsq] is the exact minimum-norm
    least-squares solution, [np.linalg.inv] the exact inverse,
    [np.random.choice] an explicit tape of samples, and
    [RectBivariateSpline] a parameter of the warping section.  The
    OpenCV detector and matcher and the clicks of the user are
    parameters too; image files and pickle files are finite maps from
    paths to their contents. *)

From Stdlib Require Import QArith Qcanon Qround ZArith Lia Lqa Ascii.
From stdpp Require Import base list option numbers strings gmap sorting.

(** ** Extended rationals *)

Module Float.

Inductive fval : Type :=
| Fin (q : Qc)
| PInf
| NInf
| NaN.

#[global] Instance fval_eq_dec : EqDecision fval.
Proof. solve_decision. Defined.

Definition of_Z (z : Z) : fval := Fin (Q2Qc (inject_Z z)).

Definition is_finite (x : fval) : bool :=
  match x with Fin _ => true | _ => false end.

Definition fsign (x : fval) : comparison :=
  match x with
  | Fin q => (q ?= 0)%Qc
  | PInf => Gt
  | NInf => Lt
  | NaN => Eq
  end.

(** The infinity of a given sign; sign [Eq] (zero) gives [nan], as in
    [0 * inf] and [0 / 0]. *)
Definition inf_of_sign (c : comparison) : fval :=
  match c with Gt => PInf | Lt => NInf | Eq => NaN end.

Definition sign_mul (a b : comparison) : comparison :=
  match a, b with
  | Eq, _ | _, Eq => Eq
  | Gt, Gt | Lt, Lt => Gt
  | _, _ => Lt
  end.

Definition fneg (x : fval) : fval :=
  match x with
  | Fin q => Fin (- q)%Qc
  | PInf => NInf
  | NInf => PInf
  | NaN => NaN
  end.

Definition fadd (x y : fval) : fval :=
  match x, y with
  | Fin a, Fin b => Fin (a + b)%Qc
  | NaN, _ | _, NaN => NaN
  | PInf, NInf | NInf, PInf => NaN
  | PInf, _ | _, PInf => PInf
  | NInf, _ | _, NInf => NInf
  end.

Definition fsub (x y : fval) : fval := fadd x (fneg y).

Definition fmul (x y : fval) : fval :=
  match x, y with
  | Fin a, Fin b => Fin (a * b)%Qc
  | NaN, _ | _, NaN => NaN
  | _, _ => inf_of_sign (sign_mul (fsign x) (fsign y))
  end.

(** Division never raises in numpy: a zero divisor gives [inf], [-inf]
    or (for [0/0]) [nan]. *)
Definition fdiv (x y : fval) : fval :=
  match x, y with
  | NaN, _ | _, NaN => NaN
  | Fin a, Fin b =>
      if decide (b = 0%Qc) then inf_of_sign (a ?= 0)%Qc else Fin (a / b)%Qc
  | Fin _, _ => Fin 0%Qc
  | _, Fin b =>
      inf_of_sign (sign_mul (fsign x) (if decide (b < 0)%Qc then Lt else Gt))
  | _, _ => NaN
  end.

(** [x <= y] on floats: false as soon as one side is [nan]. *)
Definition fle (x y : fval) : bool :=
  match x, y with
  | NaN, _ | _, NaN => false
  | Fin a, Fin b => bool_decide (a <= b)%Qc
  | NInf, _ | _, PInf => true
  | _, _ => false
  end.

(** [np.minimum] and [np.maximum]: [nan] propagates. *)
Definition fmin (x y : fval) : fval :=
  match x, y with
  | NaN, _ | _, NaN => NaN
  | _, _ => if fle x y then x else y
  end.

Definition fmax (x y : fval) : fval :=
  match x, y with
  | NaN, _ | _, NaN => NaN
  | _, _ => if fle x y then y else x
  end.

(** [np.min] and [np.max] of a one-dimensional array; both raise on an
    empty array. *)
Definition np_min (l : list fval) : option fval :=
  match l with [] => None | x :: l' => Some (foldl fmin x l') end.

Definition np_max (l : list fval) : option fval :=
  match l with [] => None | x :: l' => Some (foldl fmax x l') end.

(** Python's [int(x)]: truncation toward zero; raises on [inf] and
    [nan]. *)
Definition int (x : fval) : option Z :=
  match x with
  | Fin q => Some (Z.quot (Qnum (this q)) (Zpos (Qden (this q))))
  | _ => None
  end.

(** [sqrt(n2) <= d] for a squared norm [n2] and a finite bound [d],
    decided without the square root: for [n2 >= 0] it is
    [0 <= d /\ n2 <= d*d]; [sqrt(inf) = inf] and [sqrt(nan) = nan]
    are never [<= d]. *)
Definition sqrt_le (n2 : fval) (d : Qc) : bool :=
  match n2 with
  | Fin q => bool_decide (0 <= d)%Qc && bool_decide (q <= d * d)%Qc
  | _ => false
  end.

End Float.

Export Float.

(** ** Exact linear algebra over the rationals *)

Module LinAlg.

Local Open Scope Qc_scope.

(** Vectors are lists of rationals, matrices lists of rows. *)
Definition dot (u v : list Qc) : Qc := foldr Qcplus 0 (zip_with Qcmult u v).

Definition vadd (u v : list Qc) : list Qc := zip_with Qcplus u v.

Definition vscale (k : Qc) (u : list Qc) : list Qc := Qcmult k <$> u.

Definition col (j : nat) (A : list (list Qc)) : list Qc :=
  (fun r => nth j r 0) <$> A.

(** The transpose of a matrix with [n] columns (a matrix with no row
    still has its [n] columns). *)
Definition transpose (n : nat) (A : list (list Qc)) : list (list Qc) :=
  (fun j => col j A) <$> seq 0 n.

Definition mat_vec (A : list (list Qc)) (x : list Qc) : list Qc :=
  (fun r => dot r x) <$> A.

(** [gram R] is the matrix of the dot products of the rows of [R]; on
    the transpose of [A] this is [A^T A]. *)
Definition gram (R : list (list Qc)) : list (list Qc) := mat_vec R <$> R.

(** An equation: coefficients and right-hand side. *)
Definition arow : Type := list Qc * Qc.

Definition coef (j : nat) (r : arow) : Qc := nth j r.1 0.

Definition scale_row (k : Qc) (r : arow) : arow := (vscale k r.1, k * r.2).

(** [r - k p]. *)
Definition sub_row (r p : arow) (k : Qc) : arow :=
  (vadd r.1 (vscale (- k) p.1), r.2 + - k * p.2).

Definition clear_col (j : nat) (p r : arow) : arow := sub_row r p (coef j r).

(** The first equation with a non-zero coefficient in column [j], and
    the others. *)
Fixpoint split_pivot (j : nat) (rows : list arow) : option (arow * list arow) :=
  match rows with
  | [] => None
  | r :: rs =>
      if decide (coef j r = 0) then
        match split_pivot j rs with
        | Some (p, others) => Some (p, r :: others)
        | None => None
        end
      else Some (r, rs)
  end.

(** Gauss-Jordan elimination, one column at a time.  [pivots] holds
    the normalised pivot equations with their columns. *)
Fixpoint eliminate (cols : list nat) (pivots : list (nat * arow))
    (rows : list arow) : list (nat * arow) * list arow :=
  match cols with
  | [] => (pivots, rows)
  | j :: cols' =>
      match split_pivot j rows with
      | None => eliminate cols' pivots rows
      | Some (p, others) =>
          let p' := scale_row (/ coef j p) p in
          eliminate cols'
            ((j, p') :: ((fun kr => (kr.1, clear_col j p' kr.2)) <$> pivots))
            (clear_col j p' <$> others)
      end
  end.

Fixpoint pivot_rhs (j : nat) (pivots : list (nat * arow)) : Qc :=
  match pivots with
  | [] => 0
  | (k, r) :: ps => if decide (k = j) then r.2 else pivot_rhs j ps
  end.

(** The solution that sets every free unknown to zero. *)
Definition read_solution (n : nat) (pivots : list (nat * arow)) : list Qc :=
  (fun j => pivot_rhs j pivots) <$> seq 0 n.

Definition solve (n : nat) (M : list (list Qc)) (c : list Qc) : list Qc :=
  read_solution n (eliminate (seq 0 n) [] (zip M c)).1.

(** The minimum-norm least-squares solution of [A x = b] for a matrix
    [A] with [n] columns: with [M = A^T A] and [c = A^T b] it is
    [x = M z] for a solution [z] of [M M z = c], so that [x] satisfies
    the normal equations [M x = c] and lies in the row space of [A]. *)
Definition lstsq_exact (n : nat) (A : list (list Qc)) (b : list Qc) : list Qc :=
  let At := transpose n A in
  let M := gram At in
  let c := mat_vec At b in
  mat_vec M (solve n (gram M) c).

Definition det3 (a b c d e f g h i : Qc) : Qc :=
  a * (e * i - f * h) - b * (d * i - f * g) + c * (d * h - e * g).

(** *** Notions used to state that [solve] and [lstsq_exact] are right *)

Definition all_zero (v : list Qc) : Prop := Forall (fun x => x = 0) v.

(** [combine m R w] is the combination of the rows of [R] (of length
    [m]) with the coefficients [w]. *)
Definition combine (m : nat) (R : list (list Qc)) (w : list Qc) : list Qc :=
  mat_vec (transpose m R) w.

(** [x] satisfies the equation [r]. *)
Definition sat (x : list Qc) (r : arow) : Prop := dot r.1 x = r.2.

(** The shape of a partially reduced system: [D] holds of the columns
    already treated. *)
Definition reduced (n : nat) (D : nat -> Prop)
    (pivots : list (nat * arow)) (rows : list arow) : Prop :=
  Forall (fun r => length r.1 = n) pivots.*2 /\
  Forall (fun r => length r.1 = n) rows /\
  NoDup pivots.*1 /\
  (forall j r, (j, r) ∈ pivots -> D j /\ coef j r = 1) /\
  (forall j r k r', (j, r) ∈ pivots -> (k, r') ∈ pivots -> j <> k ->
     coef j r' = 0) /\
  (forall r j, r ∈ rows -> D j -> coef j r = 0).

(** The equations obtained from the rows of [(G | c)] by row
    operations: [r = w^T (G | c)] for some coefficients [w]. *)
Definition in_span (n : nat) (G : list (list Qc)) (c : list Qc) (r : arow)
    : Prop :=
  exists w, length w = length G /\ r.1 = combine n G w /\ r.2 = dot w c.

(** [u - v]. *)
Definition vsub (u v : list Qc) : list Qc := vadd u (vscale (- (1)) v).

(** The squared norm of the residual [A y - b]. *)
Definition residual (A : list (list Qc)) (b y : list Qc) : Qc :=
  dot (vsub (mat_vec A y) b) (vsub (mat_vec A y) b).

End LinAlg.

(** ** Points, homographies and the numpy calls of the program *)

Definition point : Type := fval * fval.

(** A 3x3 array, row by row: [m20 H] is [H[2,0]]. *)
Record mat3 : Type := Mat3 {
  m00 : fval; m01 : fval; m02 : fval;
  m10 : fval; m11 : fval; m12 : fval;
  m20 : fval; m21 : fval; m22 : fval
}.

#[global] Instance point_eq_dec : EqDecision point.
Proof. solve_decision. Defined.

#[global] Instance mat3_eq_dec : EqDecision mat3.
Proof. solve_decision. Defined.

Definition to_finite (x : fval) : option Qc :=
  match x with Fin q => Some q | _ => None end.

(** [np.linalg.lstsq(A, b, None)[0]] for an array [A] with [n] columns:
    raises when the numbers of rows of [A] and [b] differ; on finite
    data it is the minimum-norm least-squares solution.  LAPACK gives no
    usable answer on [inf] or [nan]; the model fails there. *)
Definition lstsq (n : nat) (A : list (list fval)) (b : list fval)
    : option (list fval) :=
  if decide (length A = length b) then
    A' ← mapM (mapM to_finite) A;
    b' ← mapM to_finite b;
    Some (Fin <$> LinAlg.lstsq_exact n A' b')
  else None.

(** [np.ndarray.flatten(np.array(points))]. *)
Definition flatten (points : list point) : list fval :=
  points ≫= (fun p => [p.1; p.2]).

(** [h.reshape(3,3)]: raises unless [h] has nine entries. *)
Definition reshape_3_3 (h : list fval) : option mat3 :=
  match h with
  | [a; b; c; d; e; f; g; h; i] => Some (Mat3 a b c d e f g h i)
  | _ => None
  end.

(** [np.empty((rows, cols))].  The contents of the array are whatever
    the memory holds; the model takes zeros.  [compute_points_mat]
    overwrites every row when the two lists have the same length. *)
Definition np_empty (rows cols : nat) : list (list fval) :=
  replicate rows (replicate cols (Fin 0%Qc)).

(** ** [compute_points_mat] and [compute_homography_mat] *)

Definition row_u (s t : point) : list fval :=
  [s.1; s.2; Fin 1%Qc; Fin 0%Qc; Fin 0%Qc; Fin 0%Qc;
   fmul (fneg s.1) t.1; fmul (fneg s.2) t.1].

Definition row_v (s t : point) : list fval :=
  [Fin 0%Qc; Fin 0%Qc; Fin 0%Qc; s.1; s.2; Fin 1%Qc;
   fmul (fneg s.1) t.2; fmul (fneg s.2) t.2].

(** The body of the [for] loop over [zip(src_points, target_points)]:
    rows [row] and [row+1] of [A] are written, then [row += 2].  Writing
    past the last row raises [IndexError]. *)
Fixpoint fill_rows (A : list (list fval)) (row : nat)
    (pairs : list (point * point)) : option (list (list fval)) :=
  match pairs with
  | [] => Some A
  | (s, t) :: rest =>
      if decide (row + 1 < length A) then
        fill_rows (<[row + 1 := row_v s t]> (<[row := row_u s t]> A))
                  (row + 2) rest
      else None
  end.

Definition compute_points_mat (src_points target_points : list point)
    : option (list (list fval)) :=
  fill_rows (np_empty (2 * length src_points) 8) 0
            (zip src_points target_points).

Definition compute_homography_mat (src_points target_points : list point)
    : option mat3 :=
  A ← compute_points_mat src_points target_points;
  let b := flatten target_points in
  H ← lstsq 8 A b;
  reshape_3_3 (H ++ [Fin 1%Qc]).

(** ** [transform_points] *)

(** One entry of [np.dot(points, H.T)] for the row [(u, v, 1)]. *)
Definition dot3 (u v : fval) (h0 h1 h2 : fval) : fval :=
  fadd (fadd (fmul u h0) (fmul v h1)) (fmul (Fin 1%Qc) h2).

(** The third homogeneous component of a point under [H]. *)
Definition third_component (H : mat3) (p : point) : fval :=
  dot3 p.1 p.2 (m20 H) (m21 H) (m22 H).

Definition transform_point (H : mat3) (p : point) : point :=
  (fdiv (dot3 p.1 p.2 (m00 H) (m01 H) (m02 H)) (third_component H p),
   fdiv (dot3 p.1 p.2 (m10 H) (m11 H) (m12 H)) (third_component H p)).

Definition transform_points (points : list point) (H : mat3) : list point :=
  transform_point H <$> points.

(** ** [get_inliers] (RANSAC) *)

(** A Python object used as a point: its coordinates, and whether its
    Python type is [numpy.ndarray] (otherwise, a tuple). *)
Record pyobj : Type := PyObj {
  is_ndarray : bool;
  value : point
}.

Definition py_tuple (p : point) : pyobj := PyObj false p.

(** [np.concatenate([np.expand_dims(np.array(p),0) for p in points
    if type(p) != np.ndarray], 0)]: the points whose type is not
    [ndarray], in order; [np.concatenate] raises on an empty list. *)
Definition keep_non_ndarray (points : list pyobj) : option (list point) :=
  match filter (fun p => is_ndarray p = false) points with
  | [] => None
  | kept => Some (value <$> kept)
  end.

(** Indexing with an array of indices, [arr[indices]]; an index out of
    range raises. *)
Definition take_indices {A : Type} (arr : list A) (indices : list nat)
    : option (list A) :=
  mapM (fun i => arr !! i) indices.

Definition point_sub (a b : point) : point := (fsub a.1 b.1, fsub a.2 b.2).

(** [a - b] on arrays of shapes [(n,2)] and [(m,2)]: numpy broadcasts a
    single row and raises on any other mismatch. *)
Definition array_sub (a b : list point) : option (list point) :=
  if decide (length a = length b) then Some (zip_with point_sub a b)
  else match a, b with
       | [x], _ => Some (point_sub x <$> b)
       | _, [y] => Some ((fun x => point_sub x y) <$> a)
       | _, _ => None
       end.

(** The square of [np.linalg.norm] of a row. *)
Definition norm_sq (r : point) : fval := fadd (fmul r.1 r.1) (fmul r.2 r.2).

(** [np.where(flags)[0]], counting from [k]. *)
Fixpoint np_where (k : nat) (flags : list bool) : list nat :=
  match flags with
  | [] => []
  | b :: rest => if b then k :: np_where (S k) rest else np_where (S k) rest
  end.

(** The first index of the largest element after [i], given the best so
    far; [np.argmax] raises on an empty array. *)
Fixpoint argmax_from (best_i best i : nat) (l : list nat) : nat :=
  match l with
  | [] => best_i
  | x :: rest =>
      if decide (best < x) then argmax_from i x (S i) rest
      else argmax_from best_i best (S i) rest
  end.

Definition np_argmax (l : list nat) : option nat :=
  match l with
  | [] => None
  | x :: rest => Some (argmax_from 0 x 1 rest)
  end.

(** [dist <= d] for [dist = np.linalg.norm(diff, axis=1)]. *)
Definition within (d : Qc) (diff : list point) : list bool :=
  (fun r => sqrt_le (norm_sq r) d) <$> diff.

(** The nested function [_get_inlier_indices], with the variables it
    closes over as arguments. *)
Definition _get_inlier_indices (src_points target_points : list point)
    (d : Qc) (indices : list nat) : option (list nat) :=
  s ← take_indices src_points indices;
  t ← take_indices target_points indices;
  H ← compute_homography_mat s t;
  let mapped_points := transform_points src_points H in
  diff ← array_sub mapped_points target_points;
  Some (np_where 0 (within d diff)).

Section Ransac.

(** [choice k] is what [np.random.choice(len(src_points), s,
    replace=False)] returns in round [k].  numpy raises when [s]
    exceeds the population. *)
Variable choice : nat -> list nat.

Definition history : Type := list (list nat) * list nat.

(** One round of the [for] loop. *)
Definition ransac_round (src_points target_points : list point)
    (d : Qc) (s T : nat) (k : nat) (h : history) : option history :=
  if decide (length src_points < s) then None else
  let indices := choice k in
  inlier_indices ← _get_inlier_indices src_points target_points d indices;
  let samples_indices_history := h.1 ++ [inlier_indices] in
  let num_inliers_history := h.2 ++ [length inlier_indices] in
  if decide (T <= length inlier_indices) then
    inlier_indices' ←
      _get_inlier_indices src_points target_points d inlier_indices;
    Some (samples_indices_history ++ [inlier_indices'],
          num_inliers_history ++ [length inlier_indices'])
  else Some (samples_indices_history, num_inliers_history).

(** Rounds [k], [k+1], ..., [k+n-1]. *)
Fixpoint ransac_loop (src_points target_points : list point)
    (d : Qc) (s T : nat) (n k : nat) (h : history) : option history :=
  match n with
  | 0 => Some h
  | S n' =>
      h' ← ransac_round src_points target_points d s T k h;
      ransac_loop src_points target_points d s T n' (S k) h'
  end.

(** Lines 136-170 of [get_inliers], on the two filtered arrays.  The
    history of index sets is indexed as the list it is; [np.array] of
    index sets of different sizes is an array of objects in the numpy
    of the repository's time (later versions refuse to build it). *)
Definition ransac (src_points target_points : list point)
    (d : Qc) (s N : nat) : option (list point * list point) :=
  let T := length src_points `min` 10 in
  h ← ransac_loop src_points target_points d s T N 0 ([], []);
  best ← np_argmax h.2;
  best_indices ← h.1 !! best;
  inlier_src ← take_indices src_points best_indices;
  inlier_target ← take_indices target_points best_indices;
  Some (inlier_src, inlier_target).

(** The argument [T] is kept as the source has it; [ransac] rebinds
    it. *)
Definition get_inliers (src_points target_points : list pyobj)
    (d : Qc) (s N : nat) (T : option Z)
    : option (list point * list point) :=
  if decide (length src_points = length target_points) then
    src_points ← keep_non_ndarray src_points;
    target_points ← keep_non_ndarray target_points;
    ransac src_points target_points d s N
  else None.

End Ransac.

(** ** [transform_grid] and [warp_image] *)

(** [np.arange(a, b)] on integers. *)
Definition arange (a b : Z) : list Z :=
  (fun k => (a + Z.of_nat k)%Z) <$> seq 0 (Z.to_nat (b - a)).

Definition to_float (p : Z * Z) : point := (of_Z p.1, of_Z p.2).

(** [np.meshgrid(u_range, v_range)] flattened row by row: every [v] in
    turn, and for each the whole [u_range]. *)
Definition grid_points (u_range v_range : list Z) : list (Z * Z) :=
  v_range ≫= (fun v => (fun u => (u, v)) <$> u_range).

Definition transform_grid (u_range v_range : list Z) (H : mat3)
    : list (Z * Z) * list point :=
  let points := grid_points u_range v_range in
  (points, transform_points (to_float <$> points) H).

(** [np.linalg.inv(H)]: raises on a singular matrix.  A matrix with a
    non-finite entry has no meaningful inverse; the model fails there. *)
Definition np_linalg_inv (H : mat3) : option mat3 :=
  match H with
  | Mat3 (Fin a) (Fin b) (Fin c) (Fin d) (Fin e) (Fin f) (Fin g) (Fin h) (Fin i) =>
      let det := LinAlg.det3 a b c d e f g h i in
      if decide (det = 0%Qc) then None
      else Some (Mat3
        (Fin ((e * i - f * h) / det)%Qc) (Fin ((c * h - b * i) / det)%Qc)
        (Fin ((b * f - c * e) / det)%Qc)
        (Fin ((f * g - d * i) / det)%Qc) (Fin ((a * i - c * g) / det)%Qc)
        (Fin ((c * d - a * f) / det)%Qc)
        (Fin ((d * h - e * g) / det)%Qc) (Fin ((b * g - a * h) / det)%Qc)
        (Fin ((a * e - b * d) / det)%Qc))
  | _ => None
  end.

(** [M / x], entry by entry. *)
Definition mat3_div (M : mat3) (x : fval) : mat3 :=
  Mat3 (fdiv (m00 M) x) (fdiv (m01 M) x) (fdiv (m02 M) x)
       (fdiv (m10 M) x) (fdiv (m11 M) x) (fdiv (m12 M) x)
       (fdiv (m20 M) x) (fdiv (m21 M) x) (fdiv (m22 M) x).

(** An image, [image[v][u][channel]].  numpy arrays are rectangular;
    [shape1] reads the width off the first row. *)
Abbreviation image := (list (list (list fval))).

Definition shape0 (im : image) : nat := length im.
Definition shape1 (im : image) : nat :=
  match im with [] => 0 | r :: _ => length r end.

(** [image[:,:,channel]]. *)
Definition channel_of (im : image) (channel : nat) : list (list fval) :=
  (fun row : list (list fval) =>
     (fun px : list fval => nth channel px (Fin 0%Qc)) <$> row) <$> im.

(** [np.zeros((rows, cols, 3))]; a negative dimension raises. *)
Definition np_zeros3 (rows cols : Z) : option image :=
  if decide (0 <= rows /\ 0 <= cols)%Z then
    Some (replicate (Z.to_nat rows)
            (replicate (Z.to_nat cols) (replicate 3 (Fin 0%Qc))))
  else None.

(** A Python index into a sequence of length [len]: negative indices
    count from the end, anything else out of range raises. *)
Definition py_index (len : nat) (i : Z) : option nat :=
  if decide (0 <= i < Z.of_nat len)%Z then Some (Z.to_nat i)
  else if decide (- Z.of_nat len <= i < 0)%Z then Some (Z.to_nat (Z.of_nat len + i))
  else None.

(** [target[i, j, channel] = x]. *)
Definition set_pixel (target : image) (i j : Z) (channel : nat) (x : fval)
    : option image :=
  i' ← py_index (length target) i;
  row ← target !! i';
  j' ← py_index (length row) j;
  px ← row !! j';
  if decide (channel < length px) then
    Some (<[i' := <[j' := <[channel := x]> px]> row]> target)
  else None.

(** The four bounds of the forward-mapped pixel grid, lines 227-235 of
    the source: [(min_u, max_u, min_v, max_v)]. *)
Definition warp_bounds (im : image) (H : mat3) : option (Z * Z * Z * Z) :=
  let orig_u_range := arange 0 (Z.of_nat (shape1 im)) in
  let orig_v_range := arange 0 (Z.of_nat (shape0 im)) in
  let transformed_image := (transform_grid orig_u_range orig_v_range H).2 in
  min_u ← np_min (fst <$> transformed_image) ≫= int;
  max_u ← np_max (fst <$> transformed_image) ≫= int;
  min_v ← np_min (snd <$> transformed_image) ≫= int;
  max_v ← np_max (snd <$> transformed_image) ≫= int;
  Some (min_u, max_u, min_v, max_v).

(** The extremes of the mapped grid before [int()] is applied:
    [(np.min(u), np.max(u), np.min(v), np.max(v))]. *)
Definition grid_extremes (im : image) (H : mat3)
    : option (fval * fval * fval * fval) :=
  let orig_u_range := arange 0 (Z.of_nat (shape1 im)) in
  let orig_v_range := arange 0 (Z.of_nat (shape0 im)) in
  let transformed_image := (transform_grid orig_u_range orig_v_range H).2 in
  lo_u ← np_min (fst <$> transformed_image);
  hi_u ← np_max (fst <$> transformed_image);
  lo_v ← np_min (snd <$> transformed_image);
  hi_v ← np_max (snd <$> transformed_image);
  Some (lo_u, hi_u, lo_v, hi_v).

(** Rounding toward zero: the floor of a non-negative number, the
    ceiling of a negative one. *)
Definition toward_zero (x : Qc) : Z :=
  if decide (0 <= x)%Qc then Qfloor x else Qceiling x.

Section Warp.

(** [RectBivariateSpline(x, y, z)]: the constructor may raise (it
    needs more than three nodes in each direction); the spline
    [I_cont] it returns is evaluated as [I_cont(v, u, grid=False)]. *)
Variable RectBivariateSpline :
  list Z -> list Z -> list (list fval) -> option (fval -> fval -> fval).

(** The assignment of one batch,
    [target[v_batch-min_v, u_batch-min_u, channel] = I_cont(...)]. *)
Fixpoint fill_batch (I_cont : fval -> fval -> fval) (min_u min_v : Z)
    (channel : nat) (batch : list ((Z * Z) * point)) (target : image)
    : option image :=
  match batch with
  | [] => Some target
  | ((u, v), (mapped_u, mapped_v)) :: rest =>
      target' ← set_pixel target (v - min_v) (u - min_u) channel
                  (I_cont mapped_v mapped_u);
      fill_batch I_cont min_u min_v channel rest target'
  end.

(** Batches [i], [i+1], ... of the loop [for i in range(n_iters + 1)];
    batch [i] is the slice [start:end]. *)
Fixpoint fill_batches (I_cont : fval -> fval -> fval) (min_u min_v : Z)
    (channel batch_size : nat) (pixels : list ((Z * Z) * point))
    (n i : nat) (target : image) : option image :=
  match n with
  | 0 => Some target
  | S n' =>
      let start := i * batch_size in
      let batch := take batch_size (drop start pixels) in
      target' ← fill_batch I_cont min_u min_v channel batch target;
      fill_batches I_cont min_u min_v channel batch_size pixels n' (S i) target'
  end.

Definition fill_channel (im : image) (orig_u_range orig_v_range : list Z)
    (min_u min_v : Z) (transformed_points : list (Z * Z))
    (inv_transformed_image : list point)
    (target : image) (channel : nat) (batch_size : nat) : option image :=
  I_cont ← RectBivariateSpline orig_v_range orig_u_range (channel_of im channel);
  let n_iters := length inv_transformed_image / batch_size in
  fill_batches I_cont min_u min_v channel batch_size
    (zip transformed_points inv_transformed_image) (n_iters + 1) 0 target.

Definition warp_image (im : image) (H : mat3) : option (image * Z * Z) :=
  H_inv ← np_linalg_inv H;
  let H_inv := mat3_div H_inv (m22 H_inv) in
  let orig_u_range := arange 0 (Z.of_nat (shape1 im)) in
  let orig_v_range := arange 0 (Z.of_nat (shape0 im)) in
  '(min_u, max_u, min_v, max_v) ← warp_bounds im H;
  let mapped_u_range := arange min_u max_u in
  let mapped_v_range := arange min_v max_v in
  target_image ← np_zeros3 (max_v - min_v) (max_u - min_u);
  let '(transformed_points, inv_transformed_image) :=
    transform_grid mapped_u_range mapped_v_range H_inv in
  let fill := fun target channel =>
    fill_channel im orig_u_range orig_v_range min_u min_v
      transformed_points inv_transformed_image target channel 64 in
  target_image ← fill target_image 0;
  target_image ← fill target_image 1;
  target_image ← fill target_image 2;
  Some (target_image, min_u, min_v).

End Warp.

(** The identity homography. *)
Definition eye3 : mat3 :=
  Mat3 (Fin 1%Qc) (Fin 0%Qc) (Fin 0%Qc)
       (Fin 0%Qc) (Fin 1%Qc) (Fin 0%Qc)
       (Fin 0%Qc) (Fin 0%Qc) (Fin 1%Qc).

(** ** [stitch_2_images] and [stitch_N_images] *)

Section Stitch.

(** [Bitmap] is what [read_image] decodes from a file, [Canvas] the
    array [stitch_2_images] returns. *)
Variables Bitmap Canvas : Type.

(** Lines 338-395 of [stitch_2_images] as called by
    [stitch_N_images] ([load=False], [save=False], [SIFT=True]): from
    the two decoded images, the feature matcher, RANSAC, the
    homography, the warp and the composition.  The first argument
    numbers the call and stands for the state of the random generator;
    [None] is any exception. *)
Variable stitch_arrays : nat -> Bitmap -> Bitmap -> option Canvas.

(** What [plt.imsave(name, res)] leaves in the file.  It raises on an
    array it cannot write: a float RGB array with a value outside
    [0..1] is refused. *)
Variable imsave : Canvas -> option Bitmap.

(** With [load=False] and [save=False] the only files read are the
    two images, and none is written. *)
Definition stitch_2_images (call : nat) (disk : gmap string Bitmap)
    (path_1 path_2 : string) : option Canvas :=
  image_1 ← disk !! path_1;
  image_2 ← disk !! path_2;
  stitch_arrays call image_1 image_2.

(** Iterations [i], [i+1], ... of [for i in range(N-1)], on the list
    [paths] (mutated in place), the files on disk and the variable
    [res], unbound before the first iteration. *)
Fixpoint stitch_loop (n i : nat) (paths : list string)
    (disk : gmap string Bitmap) (res : option Canvas)
    : option (Canvas * list string * gmap string Bitmap) :=
  match n with
  | 0 => res' ← res; Some (res', paths, disk)
  | S n' =>
      path_1 ← paths !! (i + 1);
      path_2 ← paths !! i;
      res' ← stitch_2_images i disk path_1 path_2;
      let name := "images12.png"%string in
      let paths := <[i := name]> paths in
      saved ← imsave res';
      stitch_loop n' (S i) paths (<[name := saved]> disk) (Some res')
  end.

(** The result, with the final contents of [paths] and of the disk. *)
Definition stitch_N_images (paths : list string) (disk : gmap string Bitmap)
    : option (Canvas * list string * gmap string Bitmap) :=
  let N := length paths in
  stitch_loop (N - 1) 0 paths disk None.

End Stitch.

(** A symbolic reading of images: a file as it was before the run, or
    the stitch made by call [call] from two images. *)
Inductive panorama : Type :=
| Original (name : string)
| Stitched (call : nat) (image_1 image_2 : panorama).

#[global] Instance panorama_eq_dec : EqDecision panorama.
Proof. solve_decision. Defined.

Fixpoint uses (name : string) (p : panorama) : bool :=
  match p with
  | Original n => bool_decide (n = name)
  | Stitched _ a b => uses name a || uses name b
  end.

Definition symbolic_stitch (call : nat) (a b : panorama) : option panorama :=
  Some (Stitched call a b).

(** A file written by [plt.imsave] holds the panorama it was given. *)
Definition symbolic_imsave (res : panorama) : option panorama := Some res.

Definition originals (names : list string) : gmap string panorama :=
  list_to_map ((fun n => (n, Original n)) <$> names).

Definition pt (x y : Z) : point := (of_Z x, of_Z y).

Definition tp (x y : Z) : pyobj := py_tuple (pt x y).

(** * The detector and [stitch_2_images] in full

    [stitch_2_images] above is the function as [stitch_N_images] calls
    it, with the work on the arrays left abstract.  [Stitch2] below
    models the function with its three flags, from the two files to the
    canvas. *)

(** ** [automatic_intrest_points_detector] *)

(** A [cv.DMatch]: the indices of the two matched key points and the
    distance of their descriptors, a finite number. *)
Record DMatch : Type := {
  queryIdx : nat;
  trainIdx : nat;
  distance : Qc
}.

(** [sorted(matches, key=lambda x: x.distance)]: a stable sort, by
    insertion from the right. *)
Fixpoint insert_match (m : DMatch) (l : list DMatch) : list DMatch :=
  match l with
  | [] => [m]
  | x :: l' =>
      if decide (distance m <= distance x)%Qc then m :: l
      else x :: insert_match m l'
  end.

Definition sorted (matches : list DMatch) : list DMatch :=
  foldr insert_match [] matches.

Section Detector.

(** The OpenCV calls: [orb.detectAndCompute(image, None)] gives the key
    points (their [.pt]) and the descriptors of an image, [bf.match]
    the matches of two sets of descriptors.  Either may raise. *)
Variable Descriptors : Type.
Variable detectAndCompute : image -> option (list point * Descriptors).
Variable bf_match : Descriptors -> Descriptors -> option (list DMatch).

Definition automatic_intrest_points_detector (image1 image2 : image)
    (N : nat) : option (list point * list point) :=
  '(kps1, descs1) ← detectAndCompute image1;
  '(kps2, descs2) ← detectAndCompute image2;
  matches ← bf_match descs1 descs2;
  let matches := sorted matches in
  list_kps1 ← mapM (fun mat => kps1 !! queryIdx mat) (take N matches);
  list_kps2 ← mapM (fun mat => kps2 !! trainIdx mat) (take N matches);
  Some (list_kps1, list_kps2).

End Detector.

(** ** The parts of [stitch_2_images] *)

(** [s.split(sep)] for a separator of one character: the pieces between
    the separators, at least one piece. *)
Fixpoint str_split (sep : ascii) (s : string) : list string :=
  match s with
  | EmptyString => [EmptyString]
  | String c s' =>
      if decide (c = sep) then EmptyString :: str_split sep s'
      else match str_split sep s' with
           | piece :: rest => String c piece :: rest
           | [] => [String c EmptyString]
           end
  end.

(** [path.split('/')[-1].split('.')[0]]. *)
Definition image_name (path : string) : option string :=
  file ← last (str_split "/" path);
  head (str_split "." file).

(** [f'{name}.pkl']. *)
Definition pkl (name : string) : string := name +:+ ".pkl".

(** [image[...,::-1]/255]: the channels reversed (BGR to RGB) and every
    value divided by 255. *)
Definition rgb_unit (im : image) : image :=
  fmap (M := list)
    (fun px : list fval => (fun x => fdiv x (of_Z 255)) <$> reverse px) <$> im.

(** [res[a:a+h, c:c+w, :] = X] for [h, w = X.shape[:2]] and [a, c >= 0]:
    the slice is clipped to [res]; numpy raises unless [X] has the shape
    of the clipped slice or can be broadcast to it (an axis of length 1
    of [X], here only to an empty slice).  The width of an array is read
    off its first row, so an array without rows counts as without
    columns. *)
Definition assign_block (res : image) (a c : nat) (X : image)
    : option image :=
  let th := (a + shape0 X) `min` shape0 res - a `min` shape0 res in
  let tw := (c + shape1 X) `min` shape1 res - c `min` shape1 res in
  if decide ((shape0 X = th \/ shape0 X = 1) /\
             (shape1 X = tw \/ shape1 X = 1)) then
    Some (take a res ++
          zip_with (fun (row xrow : list (list fval)) =>
                      take c row ++ take tw xrow ++ drop (c + tw) row)
                   (take th (drop a res)) X ++
          drop (a + th) res)
  else None.

(** Lines 381-395 of [stitch_2_images]: the canvas, the two images
    copied into it and the final crop. *)
Definition canvas (image_1 image_2 warpped_image_1 : image)
    (min_u min_v : Z) : option image :=
  res ← np_zeros3 (Z.of_nat (shape0 warpped_image_1 + shape0 image_2))
                  (Z.of_nat (shape1 warpped_image_1 + shape1 image_2));
  let shift_u_1 := if decide (0 < min_u)%Z then min_u else 0%Z in
  let shift_v_1 := if decide (0 < min_v)%Z then min_v else 0%Z in
  res ← assign_block res (Z.to_nat shift_v_1) (Z.to_nat shift_u_1)
          warpped_image_1;
  let shift_u_2 := if decide (min_u < 0)%Z then (- min_u)%Z else 0%Z in
  let shift_v_2 := if decide (min_v < 0)%Z then (- min_v)%Z else 0%Z in
  res ← assign_block res (Z.to_nat shift_v_2) (Z.to_nat shift_u_2) image_2;
  Some (take (shape1 image_1 `max` shape1 image_2 + 700) <$>
        take (shape0 image_1 `max` shape0 image_2 + 200) res).

Module Stitch2.

Section Stitch2.

(** The random samples of RANSAC and the spline, as for [get_inliers]
    and [warp_image]; the OpenCV calls of the detector; what the user
    clicks in [get_points] (the first argument numbers the call). *)
Variable choice : nat -> list nat.
Variable RectBivariateSpline :
  list Z -> list Z -> list (list fval) -> option (fval -> fval -> fval).
Variable Descriptors : Type.
Variable detectAndCompute : image -> option (list point * Descriptors).
Variable bf_match : Descriptors -> Descriptors -> option (list DMatch).
Variable get_points : nat -> image -> nat -> option (list point).

(** [cv.imread(path, 1)] gives [None] for a file it cannot read, and
    every use of that [None] further down raises. *)
Definition read_image (images : gmap string image) (path : string)
    : option image := images !! path.

(** Lines 324-358 of [stitch_2_images]: the two images are read and the
    corresponding points are loaded from the pickle files, or detected,
    or asked from the user, and saved when [save] is set.  The result
    holds the two images, the two lists of points and the pickle files
    as they are left. *)
Definition acquire_points (images : gmap string image)
    (files : gmap string (list point)) (path_1 path_2 : string)
    (correspondance_points : nat) (save load SIFT : bool)
    : option (image * image * list point * list point *
              gmap string (list point)) :=
  image_1 ← read_image images path_1;
  image_2 ← read_image images path_2;
  image_1_name ← image_name path_1;
  image_2_name ← image_name path_2;
  '(image_1_points, image_2_points) ←
    (if load then
       image_1_points ← files !! pkl image_1_name;
       image_2_points ← files !! pkl image_2_name;
       Some (image_1_points, image_2_points)
     else if SIFT then
       automatic_intrest_points_detector Descriptors detectAndCompute
         bf_match image_1 image_2 correspondance_points
     else
       image_1_points ← get_points 0 image_1 correspondance_points;
       image_2_points ← get_points 1 image_2 correspondance_points;
       Some (image_1_points, image_2_points));
  let files :=
    if save then
      <[pkl image_2_name := image_2_points]>
        (<[pkl image_1_name := image_1_points]> files)
    else files in
  Some (image_1, image_2, image_1_points, image_2_points, files).

(** Lines 360-395 of [stitch_2_images]: the images are scaled, RANSAC
    picks the inliers, the homography is fitted to them, the first image
    is warped and the canvas composed. *)
Definition stitch_points (image_1 image_2 : image)
    (image_1_points image_2_points : list point) : option image :=
  let image_1 := rgb_unit image_1 in
  let image_2 := rgb_unit image_2 in
  '(inlier_src, inlier_target) ←
    get_inliers choice (py_tuple <$> image_1_points)
      (py_tuple <$> image_2_points) 1%Qc 4 2000 None;
  H ← compute_homography_mat inlier_src inlier_target;
  '(warpped_image_1, min_u, min_v) ←
    warp_image RectBivariateSpline image_1 H;
  canvas image_1 image_2 warpped_image_1 min_u min_v.

(** The whole of [stitch_2_images], on the image files and the pickle
    files; the result comes with the pickle files as the call leaves
    them.  [None] is any exception; what a call that raises has
    written before is not told. *)
Definition stitch_2_images (images : gmap string image)
    (files : gmap string (list point)) (path_1 path_2 : string)
    (correspondance_points : nat) (save load SIFT : bool)
    : option (image * gmap string (list point)) :=
  '(image_1, image_2, image_1_points, image_2_points, files) ←
    acquire_points images files path_1 path_2 correspondance_points
      save load SIFT;
  res ← stitch_points image_1 image_2 image_1_points image_2_points;
  Some (res, files).

End Stitch2.

End Stitch2.

(** * Vocabulary of the statements, and the inputs they are run on *)

(** The pure scaling [(x, y) -> (2 x, 2 y)]. *)
Definition scale2 : mat3 :=
  Mat3 (of_Z 2) (of_Z 0) (of_Z 0)
       (of_Z 0) (of_Z 2) (of_Z 0)
       (of_Z 0) (of_Z 0) (of_Z 1).

(** Four correspondences whose source points coincide: no homography
    sends one point to four targets. *)
Definition coincident_src : list point := [pt 0 0; pt 0 0; pt 0 0; pt 0 0].
Definition coincident_tgt : list point :=
  [pt 0 0; pt 100 0; pt 0 100; pt 100 100].

(** The homography fitted to the sample [indices] of the coincident
    correspondences has no inlier at distance [1]. *)
Definition no_inlier (indices : list nat) : bool :=
  match _get_inlier_indices coincident_src coincident_tgt 1%Qc indices with
  | Some [] => true
  | _ => false
  end.

(** Both coordinates are numbers, neither [inf] nor [nan]. *)
Definition finite_point (p : point) : Prop :=
  is_finite p.1 = true /\ is_finite p.2 = true.

(** A 2x2 image and the translation by [-1/2] along [u]. *)
Definition black : list fval := [of_Z 0; of_Z 0; of_Z 0].
Definition image_2x2 : image := [[black; black]; [black; black]].
Definition shift_half_left : mat3 :=
  Mat3 (of_Z 1) (of_Z 0) (Fin (Q2Qc (-1 # 2)))
       (of_Z 0) (of_Z 1) (of_Z 0)
       (of_Z 0) (of_Z 0) (of_Z 1).

(** The offsets can be negative: a translation by [-3/2]. *)
Definition shift_left : mat3 :=
  Mat3 (of_Z 1) (of_Z 0) (Fin (Q2Qc (-3 # 2)))
       (of_Z 0) (of_Z 1) (of_Z 0)
       (of_Z 0) (of_Z 0) (of_Z 1).

(** The shape [(rows, cols, 3)] of an array. *)
Definition has_shape (rows cols : nat) (t : image) : Prop :=
  length t = rows /\
  Forall (fun r => length r = cols /\ Forall (fun px => length px = 3) r) t.

(** A pixel of the output grid lies inside the canvas. *)
Definition inside (min_u min_v : Z) (rows cols : nat)
    (p : (Z * Z) * point) : Prop :=
  (0 <= p.1.2 - min_v < Z.of_nat rows)%Z /\
  (0 <= p.1.1 - min_u < Z.of_nat cols)%Z.

(** A stand-in for the spline, to run [warp_image]: the value at the
    node a coordinate truncates to; like the bicubic spline it refuses
    a grid with fewer than four nodes along an axis. *)
Definition node_value (x y : list Z) (z : list (list fval))
    : option (fval -> fval -> fval) :=
  if decide (4 <= length x /\ 4 <= length y) then
    Some (fun v u =>
            match int v, int u with
            | Some i, Some j => nth (Z.to_nat j) (nth (Z.to_nat i) z []) NaN
            | _, _ => NaN
            end)
  else None.

(** A 5x5 image whose pixels are pairwise distinct. *)
Definition image_5x5 : image :=
  (fun v => (fun u => [of_Z (10 * v + u); of_Z v; of_Z u]) <$> arange 0 5)
    <$> arange 0 5.

(** Four correspondences of the projective map
    [(x, y) -> (x / (1 - x), y / (1 - x))] and a fifth source point on
    the line [x = 1], which that map sends to infinity. *)
Definition vanishing_src : list point :=
  [pt 0 0; pt 0 1; pt 2 0; pt 2 1; pt 1 5].
Definition vanishing_tgt : list point :=
  [pt 0 0; pt 0 1; pt (-2) 0; pt (-2) (-1); pt 7 7].
Definition vanishing_H : mat3 :=
  Mat3 (of_Z 1) (of_Z 0) (of_Z 0)
       (of_Z 0) (of_Z 1) (of_Z 0)
       (of_Z (-1)) (of_Z 0) (of_Z 1).

(** The product of two 3x3 arrays, to state what [np.linalg.inv]
    returns. *)
Definition mat3_mul (M N : mat3) : mat3 :=
  let e (a b c x y z : fval) := fadd (fadd (fmul a x) (fmul b y)) (fmul c z) in
  Mat3 (e (m00 M) (m01 M) (m02 M) (m00 N) (m10 N) (m20 N))
       (e (m00 M) (m01 M) (m02 M) (m01 N) (m11 N) (m21 N))
       (e (m00 M) (m01 M) (m02 M) (m02 N) (m12 N) (m22 N))
       (e (m10 M) (m11 M) (m12 M) (m00 N) (m10 N) (m20 N))
       (e (m10 M) (m11 M) (m12 M) (m01 N) (m11 N) (m21 N))
       (e (m10 M) (m11 M) (m12 M) (m02 N) (m12 N) (m22 N))
       (e (m20 M) (m21 M) (m22 M) (m00 N) (m10 N) (m20 N))
       (e (m20 M) (m21 M) (m22 M) (m01 N) (m11 N) (m21 N))
       (e (m20 M) (m21 M) (m22 M) (m02 N) (m12 N) (m22 N)).

(** Dot product, matrix-vector product and squared residual
    [|A x - b|^2] on floats, to state what [np.linalg.lstsq] returns. *)
Definition fdot (u v : list fval) : fval :=
  foldr fadd (Fin 0%Qc) (zip_with fmul u v).

Definition fmat_vec (A : list (list fval)) (x : list fval) : list fval :=
  (fun r => fdot r x) <$> A.

Definition residual_sq (A : list (list fval)) (b x : list fval) : fval :=
  fdot (zip_with fsub (fmat_vec A x) b) (zip_with fsub (fmat_vec A x) b).

(** Every entry is a number, neither [inf] nor [nan]. *)
Definition finite_vector (x : list fval) : Prop :=
  Forall (fun a => is_finite a = true) x.

(** Every entry of the array is a number. *)
Definition finite_mat3 (H : mat3) : Prop :=
  Forall (fun x => is_finite x = true)
    [m00 H; m01 H; m02 H; m10 H; m11 H; m12 H; m20 H; m21 H; m22 H].

(** The test [dist <= d] of [_get_inlier_indices] on one pair, for the
    homography [H]. *)
Definition is_inlier (H : mat3) (d : Qc) (p q : point) : bool :=
  sqrt_le (norm_sq (point_sub (transform_point H p) q)) d.

(** The complete set of inliers of [H] among the pairs: its indices, in
    increasing order. *)
Definition inliers_of (H : mat3) (d : Qc) (src tgt : list point)
    (indices : list nat) : Prop :=
  StronglySorted lt indices /\
  forall i, i ∈ indices <->
    exists p q, src !! i = Some p /\ tgt !! i = Some q /\
                is_inlier H d p q = true.

(** A homography the code fits to some of the pairs. *)
Definition fitted_to (src tgt : list point) (H : mat3) : Prop :=
  exists sample s t,
    take_indices src sample = Some s /\
    take_indices tgt sample = Some t /\
    compute_homography_mat s t = Some H.

(** Every entry of the history is the output of [_get_inlier_indices],
    and the second history holds the sizes of the first. *)
Definition history_ok (src tgt : list point) (d : Qc) (h : history) : Prop :=
  h.2 = length <$> h.1 /\
  Forall (fun inl => exists idx, _get_inlier_indices src tgt d idx = Some inl)
         h.1.

(** [image[r, c, channel]] for indices within the array. *)
Definition pixel (im : image) (r c channel : nat) : option fval :=
  row ← im !! r; px ← row !! c; px !! channel.

(** An entry of a batch: a grid point at or above the offsets, with the
    point [back] reads it from. *)
Definition entry_ok (min_u min_v : Z) (back : Z * Z -> point)
    (e : (Z * Z) * point) : Prop :=
  e.2 = back e.1 /\ (min_u <= e.1.1)%Z /\ (min_v <= e.1.2)%Z.

(** The pixel of the grid point [p] holds, in channel [ch], the value
    of the spline at the point [back p]. *)
Definition written (I_cont : fval -> fval -> fval) (min_u min_v : Z)
    (ch : nat) (back : Z * Z -> point) (t : image) (p : Z * Z) : Prop :=
  pixel t (Z.to_nat (p.2 - min_v)) (Z.to_nat (p.1 - min_u)) ch =
    Some (I_cont (back p).2 (back p).1).

(** The values the stand-in spline [node_value] gives for a channel of
    the 5x5 image. *)
Definition node_value_5x5 (c : nat) (v u : fval) : fval :=
  match int v, int u with
  | Some i, Some j =>
      nth (Z.to_nat j) (nth (Z.to_nat i) (channel_of image_5x5 c) []) NaN
  | _, _ => NaN
  end.



(** Ordered by distance, best first. *)
Definition by_distance (a b : DMatch) : Prop := (distance a <= distance b)%Qc.

(** A match of two key points at an integer distance. *)
Definition dmatch (q t : nat) (d : Z) : DMatch :=
  Build_DMatch q t (Q2Qc (inject_Z d)).

(** The character occurs in the string. *)
Fixpoint occurs (c : ascii) (s : string) : bool :=
  match s with
  | EmptyString => false
  | String c' s' => bool_decide (c' = c) || occurs c s'
  end.

(** The four corners of the 5x5 image, and a generator that always
    draws them in order. *)
Definition corners : list point := [pt 0 0; pt 4 0; pt 4 4; pt 0 4].

Definition first_four (k : nat) : list nat := [0; 1; 2; 3].

(** A user who clicks the four corners of the first image and one
    point of the second; a user who clicks the corners of both. *)
Definition clicks (call : nat) (shown : image) (n : nat)
    : option (list point) :=
  Some (if decide (call = 0) then corners else [pt 1 1]).

Definition clicks_corners (call : nat) (shown : image) (n : nat)
    : option (list point) := Some corners.

(** No feature detector is run in these examples. *)
Definition no_detector (im : image) : option (list point * unit) := None.

Definition no_matcher (d1 d2 : unit) : option (list DMatch) := None.

Definition two_images : gmap string image :=
  {[ "left/view.png"%string := image_5x5; "right/view.png"%string := image_5x5;
     "right/other.png"%string := image_5x5 ]}.

(** The pickle files after a saving call on two images both named
    [view]. *)
Definition saved_view : gmap string (list point) :=
  <[pkl "view" := [pt 1 1]]> (<[pkl "view" := corners]> ∅).

(** Every file of the list is on disk, every pairwise stitch succeeds
    and [plt.imsave] accepts its result. *)
Definition all_stitches_succeed {Bitmap Canvas : Type}
    (stitch_arrays : nat -> Bitmap -> Bitmap -> option Canvas)
    (imsave : Canvas -> option Bitmap)
    (paths : list string) (disk : gmap string Bitmap) : Prop :=
  forall i, i + 1 < length paths ->
    exists path_1 path_2 image_1 image_2 r saved,
      paths !! (i + 1) = Some path_1 /\ paths !! i = Some path_2 /\
      disk !! path_1 = Some image_1 /\ disk !! path_2 = Some image_2 /\
      stitch_arrays i image_1 image_2 = Some r /\
      imsave r = Some saved.

(** * Properties *)

(** Equalities between closed terms: evaluate, then decide. *)
Ltac by_evaluation := vm_compute; compute_done.

(** ** Exact linear algebra: the solver and the least-squares solution *)

Module LinAlgFacts.

Import LinAlg.
Local Open Scope Qc_scope.

Lemma dot_nil_r (u : list Qc) : dot u [] = 0.
Proof. by destruct u. Qed.

Lemma dot_cons (a b : Qc) (u v : list Qc) :
  dot (a :: u) (b :: v) = a * b + dot u v.
Proof. reflexivity. Qed.

Lemma dot_comm (u v : list Qc) : dot u v = dot v u.
Proof.
  revert v; induction u as [|a u IH]; intros [|b v]; try reflexivity.
  rewrite !dot_cons, IH. ring.
Qed.

Lemma dot_vadd_l (u v w : list Qc) :
  length u = length v -> dot (vadd u v) w = dot u w + dot v w.
Proof.
  revert v w; induction u as [|a u IH]; intros [|b v] w Hlen;
    simpl in Hlen; try discriminate.
  - cbn. ring.
  - destruct w as [|c w]; [cbn; ring|].
    unfold vadd in *. cbn [zip_with]. rewrite !dot_cons, IH by lia. ring.
Qed.

Lemma dot_vscale_l (k : Qc) (u w : list Qc) :
  dot (vscale k u) w = k * dot u w.
Proof.
  revert w; induction u as [|a u IH]; intros [|c w]; try (cbn; ring).
  unfold vscale in *. cbn [fmap list_fmap]. rewrite !dot_cons, IH. ring.
Qed.

Lemma dot_vadd_r (u v w : list Qc) :
  length u = length v -> dot w (vadd u v) = dot w u + dot w v.
Proof. intros. rewrite !(dot_comm w). by apply dot_vadd_l. Qed.

Lemma dot_vscale_r (k : Qc) (u w : list Qc) :
  dot w (vscale k u) = k * dot w u.
Proof. rewrite !(dot_comm w). apply dot_vscale_l. Qed.

Lemma dot_zero_l (u v : list Qc) : all_zero u -> dot u v = 0.
Proof.
  intros Hu. revert v; induction Hu as [|a u -> _ IH]; intros [|b v];
    try reflexivity.
  rewrite dot_cons, IH. ring.
Qed.

Lemma dot_zero_r (u v : list Qc) : all_zero v -> dot u v = 0.
Proof. intros. rewrite dot_comm. by apply dot_zero_l. Qed.

Lemma Qc_square_nonneg (x : Qc) : 0 <= x * x.
Proof.
  unfold Qcle. simpl. rewrite !Qred_correct. generalize (this x). intros q. nra.
Qed.

Lemma dot_self_nonneg (v : list Qc) : 0 <= dot v v.
Proof.
  induction v as [|a v IH]; [apply Qcle_refl|].
  rewrite dot_cons.
  replace 0 with (0 + 0) by ring.
  apply Qcplus_le_compat; [apply Qc_square_nonneg|done].
Qed.

Lemma Qc_sum_zero (a b : Qc) : 0 <= a -> 0 <= b -> a + b = 0 -> a = 0 /\ b = 0.
Proof.
  intros Ha Hb Hab.
  assert (b = - a) as Hba
    by (transitivity (a + b + - a); [ring|rewrite Hab; ring]).
  assert (a <= 0) as Ha'.
  { rewrite Hba in Hb. apply Qcopp_le_compat in Hb.
    by rewrite Qcopp_involutive in Hb. }
  assert (a = 0) as -> by (by apply Qcle_antisym).
  split; [done|]. rewrite Hba. ring.
Qed.

Lemma dot_self_zero (v : list Qc) : dot v v = 0 -> all_zero v.
Proof.
  induction v as [|a v IH]; intros Hd; [constructor|].
  rewrite dot_cons in Hd.
  apply Qc_sum_zero in Hd as [Ha Hv];
    [|apply Qc_square_nonneg|apply dot_self_nonneg].
  constructor; [|by apply IH].
  apply Qcmult_integral in Ha. by destruct Ha.
Qed.

Lemma length_vadd (u v : list Qc) :
  length u = length v -> length (vadd u v) = length u.
Proof. intros Hlen. unfold vadd. rewrite length_zip_with. lia. Qed.

Lemma length_vscale (k : Qc) (u : list Qc) : length (vscale k u) = length u.
Proof. apply length_fmap. Qed.

Lemma length_mat_vec (A : list (list Qc)) (x : list Qc) :
  length (mat_vec A x) = length A.
Proof. apply length_fmap. Qed.

Lemma length_transpose (n : nat) (A : list (list Qc)) :
  length (transpose n A) = n.
Proof. unfold transpose. by rewrite length_fmap, length_seq. Qed.

Lemma transpose_rows (n : nat) (A : list (list Qc)) :
  Forall (fun r => length r = length A) (transpose n A).
Proof.
  unfold transpose. apply Forall_fmap, Forall_forall. intros j _; simpl.
  apply length_fmap.
Qed.

Lemma length_gram (R : list (list Qc)) : length (gram R) = length R.
Proof. apply length_fmap. Qed.

Lemma gram_rows (R : list (list Qc)) :
  Forall (fun r => length r = length R) (gram R).
Proof.
  unfold gram. apply Forall_fmap, Forall_forall. intros r _; simpl.
  apply length_mat_vec.
Qed.

Lemma nth_vadd (j : nat) (u v : list Qc) :
  length u = length v -> nth j (vadd u v) 0 = nth j u 0 + nth j v 0.
Proof.
  revert j v; induction u as [|a u IH]; intros j [|b v] Hlen;
    simpl in Hlen; try discriminate.
  - destruct j; cbn; ring.
  - destruct j; [done|]. cbn. apply IH. lia.
Qed.

Lemma nth_vscale (j : nat) (k : Qc) (u : list Qc) :
  nth j (vscale k u) 0 = k * nth j u 0.
Proof.
  revert j; induction u as [|a u IH]; intros [|j]; cbn; try ring; try done.
Qed.

Lemma fmap_seq_nth (r : list Qc) :
  (fun j => nth j r 0) <$> seq 0 (length r) = r.
Proof.
  induction r as [|a r IH]; [done|].
  cbn [length seq fmap list_fmap nth]. f_equal.
  rewrite <- fmap_S_seq, <- list_fmap_compose. exact IH.
Qed.

Lemma zip_with_fmap_same {A : Type} (f : Qc -> Qc -> Qc) (g h : A -> Qc)
    (l : list A) :
  zip_with f (g <$> l) (h <$> l) = (fun x => f (g x) (h x)) <$> l.
Proof. induction l as [|x l IH]; [done|]. cbn. by rewrite <- IH. Qed.

Lemma mat_vec_vadd (R : list (list Qc)) (u v : list Qc) :
  length u = length v ->
  mat_vec R (vadd u v) = vadd (mat_vec R u) (mat_vec R v).
Proof.
  intros Hlen. unfold mat_vec, vadd at 2. rewrite zip_with_fmap_same.
  apply list_fmap_ext. intros _ r _. by apply dot_vadd_r.
Qed.

Lemma mat_vec_vscale (R : list (list Qc)) (k : Qc) (u : list Qc) :
  mat_vec R (vscale k u) = vscale k (mat_vec R u).
Proof.
  unfold mat_vec, vscale at 2. rewrite <- list_fmap_compose.
  apply list_fmap_ext. intros _ r _. apply dot_vscale_r.
Qed.

Lemma length_combine (m : nat) (R : list (list Qc)) (w : list Qc) :
  length (combine m R w) = m.
Proof. unfold combine. by rewrite length_mat_vec, length_transpose. Qed.

Lemma combine_nil_l (m : nat) (w : list Qc) : all_zero (combine m [] w).
Proof.
  unfold combine, mat_vec, transpose. rewrite <- list_fmap_compose.
  apply Forall_fmap, Forall_forall. by intros j _.
Qed.

Lemma combine_nil_r (m : nat) (R : list (list Qc)) : all_zero (combine m R []).
Proof.
  unfold combine, mat_vec, transpose. rewrite <- list_fmap_compose.
  apply Forall_fmap, Forall_forall. intros j _; simpl. apply dot_nil_r.
Qed.

Lemma vscale_seq (k : Qc) (r : list Qc) :
  vscale k r = (fun j => k * nth j r 0) <$> seq 0 (length r).
Proof.
  transitivity (vscale k ((fun j => nth j r 0) <$> seq 0 (length r))).
  - by rewrite fmap_seq_nth.
  - unfold vscale. by rewrite <- list_fmap_compose.
Qed.

Lemma combine_cons (r : list Qc) (R : list (list Qc)) (k : Qc) (w : list Qc) :
  combine (length r) (r :: R) (k :: w) =
  vadd (vscale k r) (combine (length r) R w).
Proof.
  rewrite vscale_seq.
  unfold combine, mat_vec, transpose, vadd.
  rewrite <- !list_fmap_compose, zip_with_fmap_same.
  apply list_fmap_ext. intros _ j _; simpl.
  rewrite dot_cons. ring.
Qed.

(** The adjoint identity [(R^T w) . u = w . (R u)]. *)
Lemma dot_combine (m : nat) (R : list (list Qc)) (w u : list Qc) :
  Forall (fun r => length r = m) R ->
  dot (combine m R w) u = dot w (mat_vec R u).
Proof.
  intros HR. revert w; induction HR as [|r R Hr _ IH]; intros w.
  - rewrite dot_zero_l by apply combine_nil_l. by rewrite dot_nil_r.
  - destruct w as [|k w].
    + by rewrite dot_zero_l by apply combine_nil_r.
    + subst m. rewrite combine_cons.
      rewrite dot_vadd_l by (by rewrite length_vscale, length_combine).
      rewrite dot_vscale_l, IH. cbn [mat_vec fmap list_fmap].
      by rewrite dot_cons.
Qed.

Lemma mat_vec_gram (m : nat) (R : list (list Qc)) (w : list Qc) :
  Forall (fun r => length r = m) R ->
  mat_vec (gram R) w = mat_vec R (combine m R w).
Proof.
  intros HR. unfold gram.
  change (mat_vec (mat_vec R <$> R) w)
    with ((fun r => dot r w) <$> (mat_vec R <$> R)).
  change (mat_vec R (combine m R w))
    with ((fun r => dot r (combine m R w)) <$> R).
  rewrite <- list_fmap_compose.
  apply list_fmap_ext. intros _ r _; simpl.
  by rewrite (dot_comm _ w), <- (dot_combine m), dot_comm.
Qed.

(** A combination killed by the Gram matrix is zero. *)
Lemma gram_kernel (m : nat) (R : list (list Qc)) (w : list Qc) :
  Forall (fun r => length r = m) R ->
  all_zero (mat_vec (gram R) w) -> all_zero (combine m R w).
Proof.
  intros HR Hz. apply dot_self_zero.
  rewrite (dot_combine m) by done.
  rewrite <- (mat_vec_gram m) by done. by apply dot_zero_r.
Qed.

Lemma nth_fmap_default {A : Type} (f : A -> Qc) (l : list A) (j : nat) (d : A) :
  (j < length l)%nat -> nth j (f <$> l) 0 = f (nth j l d).
Proof.
  revert j; induction l as [|x l IH]; intros [|j] Hj; simpl in *;
    try lia; [done|]. apply IH. lia.
Qed.

Lemma fmap_seq_nth_list {A : Type} (d : A) (l : list A) :
  (fun j => nth j l d) <$> seq 0 (length l) = l.
Proof.
  induction l as [|a l IH]; [done|].
  cbn [length seq fmap list_fmap nth]. f_equal.
  rewrite <- fmap_S_seq, <- list_fmap_compose. exact IH.
Qed.

Lemma transpose_gram (R : list (list Qc)) :
  transpose (length R) (gram R) = gram R.
Proof.
  transitivity (mat_vec R <$> ((fun j => nth j R []) <$> seq 0 (length R)));
    [|by rewrite fmap_seq_nth_list].
  unfold transpose. rewrite <- list_fmap_compose.
  apply list_fmap_ext. intros i j Hj; simpl.
  apply lookup_seq in Hj as [-> Hi]. simpl.
  unfold col, gram, mat_vec. rewrite <- list_fmap_compose.
  apply list_fmap_ext. intros _ r _; simpl.
  rewrite (nth_fmap_default _ _ _ []) by done. apply dot_comm.
Qed.

(** *** Gauss-Jordan elimination *)

Lemma Qcinv_nonzero (a : Qc) : a <> 0 -> / a <> 0.
Proof.
  intros Ha H0. assert (a * / a = 1) as H1 by (by field).
  rewrite H0 in H1. by ring_simplify in H1.
Qed.

Lemma split_pivot_Some (j : nat) (rows : list arow) (p : arow)
    (others : list arow) :
  split_pivot j rows = Some (p, others) ->
  coef j p <> 0 /\ rows ≡ₚ p :: others.
Proof.
  revert p others; induction rows as [|r rows IH]; intros p others; [done|].
  cbn [split_pivot]. case_decide as Hr.
  - destruct (split_pivot j rows) as [[p' others']|]; [|done].
    intros [= <- <-]. destruct (IH p' others' eq_refl) as [Hp Hperm].
    split; [done|]. rewrite Hperm. apply Permutation_swap.
  - by intros [= <- <-].
Qed.

Lemma split_pivot_None (j : nat) (rows : list arow) :
  split_pivot j rows = None -> Forall (fun r => coef j r = 0) rows.
Proof.
  induction rows as [|r rows IH]; [by constructor|].
  cbn [split_pivot]. case_decide as Hr; [|done].
  destruct (split_pivot j rows) as [[p' others']|]; [done|].
  intros _. constructor; [done|by apply IH].
Qed.

Lemma coef_scale_row (j : nat) (k : Qc) (r : arow) :
  coef j (scale_row k r) = k * coef j r.
Proof. apply nth_vscale. Qed.

Lemma coef_sub_row (j : nat) (r p : arow) (k : Qc) :
  length r.1 = length p.1 ->
  coef j (sub_row r p k) = coef j r - k * coef j p.
Proof.
  intros Hlen. unfold coef, sub_row; simpl.
  rewrite nth_vadd by (by rewrite length_vscale).
  rewrite nth_vscale. ring.
Qed.

Lemma length_scale_row (k : Qc) (r : arow) :
  length (scale_row k r).1 = length r.1.
Proof. apply length_vscale. Qed.

Lemma length_sub_row (r p : arow) (k : Qc) :
  length r.1 = length p.1 -> length (sub_row r p k).1 = length r.1.
Proof. intros Hlen. apply length_vadd. by rewrite length_vscale. Qed.

Lemma sat_scale_row_inv (x : list Qc) (k : Qc) (r : arow) :
  k <> 0 -> sat x (scale_row k r) -> sat x r.
Proof.
  unfold sat, scale_row; simpl. intros Hk. rewrite dot_vscale_l. intros Heq.
  transitivity (/ k * (k * dot r.1 x)); [by field|].
  rewrite Heq. by field.
Qed.

Lemma sat_sub_row_inv (x : list Qc) (r p : arow) (k : Qc) :
  length r.1 = length p.1 ->
  sat x p -> sat x (sub_row r p k) -> sat x r.
Proof.
  unfold sat, sub_row; simpl. intros Hlen Hp.
  rewrite dot_vadd_l by (by rewrite length_vscale).
  rewrite dot_vscale_l, Hp. intros Heq.
  transitivity (dot r.1 x + - k * p.2 - - k * p.2); [ring|].
  rewrite Heq. ring.
Qed.

(** Every solution of the reduced system solves the system it came
    from. *)
Lemma eliminate_sound (n : nat) (x : list Qc) (cols : list nat)
    (pivots : list (nat * arow)) (rows : list arow) :
  Forall (fun r => length r.1 = n) pivots.*2 ->
  Forall (fun r => length r.1 = n) rows ->
  Forall (sat x) (eliminate cols pivots rows).1.*2 ->
  Forall (sat x) (eliminate cols pivots rows).2 ->
  Forall (sat x) pivots.*2 /\ Forall (sat x) rows.
Proof.
  revert pivots rows; induction cols as [|j cols IH];
    intros pivots rows Hlp Hlr HP HR; [done|].
  cbn [eliminate] in HP, HR.
  destruct (split_pivot j rows) as [[p others]|] eqn:Hsplit;
    [|by apply IH].
  apply split_pivot_Some in Hsplit as [Hpj Hperm].
  rewrite Hperm in Hlr. apply Forall_cons_1 in Hlr as [Hlenp Hlo].
  set (p' := scale_row (/ coef j p) p) in *.
  assert (length p'.1 = n) as Hlenp'
    by (unfold p'; by rewrite length_scale_row).
  rewrite Forall_fmap, Forall_forall in Hlp.
  rewrite Forall_forall in Hlo.
  apply IH in HP; [| | |exact HR].
  - destruct HP as [HP Ho]. cbn [fmap list_fmap snd] in HP.
    apply Forall_cons_1 in HP as [Hp' HP].
    rewrite <- list_fmap_compose, Forall_fmap, Forall_forall in HP.
    rewrite Forall_fmap, Forall_forall in Ho.
    split.
    + rewrite Forall_fmap, Forall_forall. intros [k r] Hin; simpl.
      apply (sat_sub_row_inv x r p' (coef j r)); [|done|by apply (HP (k, r))].
      rewrite Hlenp'. by apply (Hlp (k, r)).
    + rewrite Hperm. constructor.
      * apply (sat_scale_row_inv x (/ coef j p)); [|done].
        by apply Qcinv_nonzero.
      * rewrite Forall_forall. intros r Hin.
        apply (sat_sub_row_inv x r p' (coef j r)); [|done|by apply Ho].
        rewrite Hlenp'. by apply Hlo.
  - cbn [fmap list_fmap snd]. constructor; [done|].
    rewrite <- list_fmap_compose, Forall_fmap, Forall_forall.
    intros [k r] Hin. change (length (sub_row r p' (coef j r)).1 = n).
    rewrite length_sub_row; [by apply (Hlp (k, r))|].
    rewrite Hlenp'. by apply (Hlp (k, r)).
  - rewrite Forall_fmap, Forall_forall. intros r Hin.
    change (length (sub_row r p' (coef j r)).1 = n).
    rewrite length_sub_row; [by apply Hlo|].
    rewrite Hlenp'. by apply Hlo.
Qed.

Lemma coef_clear_same (j : nat) (p r : arow) :
  length r.1 = length p.1 -> coef j p = 1 -> coef j (clear_col j p r) = 0.
Proof.
  intros Hlen Hp. unfold clear_col. rewrite coef_sub_row, Hp by done. ring.
Qed.

Lemma coef_clear_other (j k : nat) (p r : arow) :
  length r.1 = length p.1 -> coef k p = 0 ->
  coef k (clear_col j p r) = coef k r.
Proof.
  intros Hlen Hp. unfold clear_col. rewrite coef_sub_row, Hp by done. ring.
Qed.

Lemma reduced_ext (n : nat) (D D' : nat -> Prop)
    (pivots : list (nat * arow)) (rows : list arow) :
  (forall j, D j <-> D' j) -> reduced n D pivots rows ->
  reduced n D' pivots rows.
Proof.
  intros HD (H1 & H2 & H3 & H4 & H5 & H6). split_and!; try done.
  - intros j r Hin. destruct (H4 j r Hin). split; [by apply HD|done].
  - intros r j Hin Hj. apply H6; [done|by apply HD].
Qed.

Lemma reduced_step_None (n : nat) (D : nat -> Prop) (j : nat)
    (pivots : list (nat * arow)) (rows : list arow) :
  reduced n D pivots rows -> split_pivot j rows = None ->
  reduced n (fun k => D k \/ k = j) pivots rows.
Proof.
  intros (H1 & H2 & H3 & H4 & H5 & H6) Hnone.
  apply split_pivot_None in Hnone. rewrite Forall_forall in Hnone.
  split_and!; try done.
  - intros k r Hin. destruct (H4 k r Hin). split; [by left|done].
  - intros r k Hin [Hk| ->]; [by apply H6|by apply Hnone].
Qed.

Lemma reduced_step_Some (n : nat) (D : nat -> Prop) (j : nat)
    (pivots : list (nat * arow)) (rows : list arow) (p : arow)
    (others : list arow) :
  reduced n D pivots rows -> ~ D j ->
  split_pivot j rows = Some (p, others) ->
  reduced n (fun k => D k \/ k = j)
    ((j, scale_row (/ coef j p) p)
       :: ((fun kr => (kr.1, clear_col j (scale_row (/ coef j p) p) kr.2))
             <$> pivots))
    (clear_col j (scale_row (/ coef j p) p) <$> others).
Proof.
  intros (H1 & H2 & H3 & H4 & H5 & H6) HDj Hsplit.
  apply split_pivot_Some in Hsplit as [Hpj Hperm].
  set (p' := scale_row (/ coef j p) p).
  rewrite Forall_fmap, Forall_forall in H1. rewrite Forall_forall in H2.
  assert (p ∈ rows) as Hp by (rewrite Hperm; left).
  assert (forall r, r ∈ others -> r ∈ rows) as Hothers
    by (intros r Hr; rewrite Hperm; by right).
  assert (length p'.1 = n) as Hlenp'
    by (unfold p'; rewrite length_scale_row; by apply H2).
  assert (coef j p' = 1) as Hp'j.
  { unfold p'. rewrite coef_scale_row. by field. }
  assert (forall k, D k -> coef k p' = 0) as Hp'D.
  { intros k Hk. unfold p'. rewrite coef_scale_row, (H6 p k) by done. ring. }
  assert (forall k r, (k, r) ∈ pivots -> length r.1 = length p'.1) as Hlenpiv
    by (intros k r Hin; rewrite Hlenp'; by apply (H1 (k, r))).
  assert (forall r, r ∈ others -> length r.1 = length p'.1) as Hlenoth
    by (intros r Hin; rewrite Hlenp'; by apply H2, Hothers).
  split_and!.
  - cbn [fmap list_fmap snd]. constructor; [done|].
    rewrite <- list_fmap_compose, Forall_fmap, Forall_forall.
    intros [k r] Hin. change (length (sub_row r p' (coef j r)).1 = n).
    rewrite length_sub_row by (by eapply Hlenpiv). by apply (H1 (k, r)).
  - rewrite Forall_fmap, Forall_forall. intros r Hin.
    change (length (sub_row r p' (coef j r)).1 = n).
    rewrite length_sub_row by (by apply Hlenoth). by apply H2, Hothers.
  - cbn [fmap list_fmap fst]. rewrite <- list_fmap_compose.
    change (NoDup (j :: pivots.*1)). constructor; [|done].
    intros Hin. apply list_elem_of_fmap in Hin as ([k r] & -> & Hin).
    by destruct (H4 k r Hin).
  - intros k r Hin. apply elem_of_cons in Hin as [[= -> ->]|Hin].
    { split; [by right|done]. }
    apply list_elem_of_fmap in Hin as ([k0 r0] & [= -> ->] & Hin). simpl.
    destruct (H4 k0 r0 Hin) as [HDk Hone]. split; [by left|].
    rewrite coef_clear_other; [done|by eapply Hlenpiv|by apply Hp'D].
  - intros k1 r1 k2 r2 Hin1 Hin2 Hne.
    apply elem_of_cons in Hin1 as [[= -> ->]|Hin1];
      apply elem_of_cons in Hin2 as [[= -> ->]|Hin2]; try done.
    + apply list_elem_of_fmap in Hin2 as ([k0 r0] & [= -> ->] & Hin2). simpl.
      apply coef_clear_same; [by eapply Hlenpiv|done].
    + apply list_elem_of_fmap in Hin1 as ([k0 r0] & [= -> ->] & Hin1). simpl.
      apply Hp'D. by destruct (H4 k0 r0 Hin1).
    + apply list_elem_of_fmap in Hin1 as ([k0 r0] & [= -> ->] & Hin1).
      apply list_elem_of_fmap in Hin2 as ([k0' r0'] & [= -> ->] & Hin2).
      simpl in *.
      rewrite coef_clear_other; [by eapply H5|by eapply Hlenpiv|].
      apply Hp'D. by destruct (H4 k0 r0 Hin1).
  - intros r k Hin Hk.
    apply list_elem_of_fmap in Hin as (r0 & -> & Hin).
    destruct Hk as [Hk| ->].
    + rewrite coef_clear_other; [|by apply Hlenoth|by apply Hp'D].
      by apply H6; [apply Hothers|].
    + apply coef_clear_same; [by apply Hlenoth|done].
Qed.

Lemma eliminate_reduced (n : nat) (cols : list nat) (D : nat -> Prop)
    (pivots : list (nat * arow)) (rows : list arow) :
  reduced n D pivots rows -> NoDup cols -> (forall j, j ∈ cols -> ~ D j) ->
  reduced n (fun k => D k \/ k ∈ cols)
    (eliminate cols pivots rows).1 (eliminate cols pivots rows).2.
Proof.
  revert D pivots rows; induction cols as [|j cols IH];
    intros D pivots rows Hred Hnd Hfresh.
  - eapply reduced_ext; [|exact Hred].
    intros k. rewrite elem_of_nil. tauto.
  - apply NoDup_cons in Hnd as [Hj Hnd]. cbn [eliminate].
    assert (forall k, k ∈ cols -> ~ (D k \/ k = j)) as Hfresh'.
    { intros k Hk [HDk| ->]; [|done]. apply (Hfresh k); [by right|done]. }
    destruct (split_pivot j rows) as [[p others]|] eqn:Hsplit; cbv beta iota zeta.
    + eapply reduced_ext;
        [|apply (IH (fun k => D k \/ k = j)); [|done|done]].
      * intros k. rewrite elem_of_cons. tauto.
      * apply (reduced_step_Some n D j pivots rows p others); [done| |done].
        apply Hfresh. by left.
    + eapply reduced_ext;
        [|apply (IH (fun k => D k \/ k = j)); [|done|done]].
      * intros k. rewrite elem_of_cons. tauto.
      * by apply reduced_step_None.
Qed.

Lemma in_span_scale (n : nat) (G : list (list Qc)) (c : list Qc) (k : Qc)
    (r : arow) :
  in_span n G c r -> in_span n G c (scale_row k r).
Proof.
  intros (w & Hlen & H1 & H2). exists (vscale k w). split_and!.
  - by rewrite length_vscale.
  - unfold scale_row; simpl. rewrite H1. unfold combine.
    by rewrite mat_vec_vscale.
  - simpl. by rewrite H2, dot_vscale_l.
Qed.

Lemma in_span_sub (n : nat) (G : list (list Qc)) (c : list Qc) (k : Qc)
    (r p : arow) :
  in_span n G c r -> in_span n G c p -> in_span n G c (sub_row r p k).
Proof.
  intros (wr & Hlr & Hr1 & Hr2) (wp & Hlp & Hp1 & Hp2).
  exists (vadd wr (vscale (- k) wp)).
  assert (length wr = length (vscale (- k) wp)) as Hlen
    by (rewrite length_vscale; congruence).
  split_and!.
  - by rewrite length_vadd.
  - unfold sub_row; simpl. rewrite Hr1, Hp1. unfold combine.
    by rewrite mat_vec_vadd, mat_vec_vscale.
  - unfold sub_row; simpl. rewrite Hr2, Hp2.
    by rewrite dot_vadd_l, dot_vscale_l.
Qed.

Lemma eliminate_span (n : nat) (G : list (list Qc)) (c : list Qc)
    (cols : list nat) (pivots : list (nat * arow)) (rows : list arow) :
  Forall (in_span n G c) pivots.*2 -> Forall (in_span n G c) rows ->
  Forall (in_span n G c) (eliminate cols pivots rows).1.*2 /\
  Forall (in_span n G c) (eliminate cols pivots rows).2.
Proof.
  revert pivots rows; induction cols as [|j cols IH];
    intros pivots rows HP HR; [done|].
  cbn [eliminate].
  destruct (split_pivot j rows) as [[p others]|] eqn:Hsplit;
    [|by apply IH].
  apply split_pivot_Some in Hsplit as [_ Hperm].
  rewrite Hperm in HR. apply Forall_cons_1 in HR as [Hp Ho].
  apply IH.
  - cbn [fmap list_fmap snd]. constructor; [by apply in_span_scale|].
    rewrite <- list_fmap_compose, Forall_fmap.
    rewrite Forall_fmap in HP.
    eapply Forall_impl; [exact HP|]. intros [k r] Hr; simpl in *.
    apply in_span_sub; [done|by apply in_span_scale].
  - rewrite Forall_fmap.
    eapply Forall_impl; [exact Ho|]. intros r Hr; simpl.
    apply in_span_sub; [done|by apply in_span_scale].
Qed.

Lemma all_zero_replicate (n : nat) : all_zero (replicate n 0).
Proof. by apply Forall_replicate. Qed.

Lemma all_zero_vscale_0 (r : list Qc) : all_zero (vscale 0 r).
Proof.
  unfold vscale. apply Forall_fmap, Forall_forall. intros x _; simpl. ring.
Qed.

Lemma vscale_1 (r : list Qc) : vscale 1 r = r.
Proof.
  unfold vscale. induction r as [|a r IH]; [done|].
  cbn. rewrite IH. f_equal. ring.
Qed.

Lemma vadd_zero_l (z x : list Qc) :
  all_zero z -> length z = length x -> vadd z x = x.
Proof.
  intros Hz. revert x; induction Hz as [|a z -> _ IH]; intros [|b x] Hlen;
    simpl in Hlen; try discriminate; [done|].
  unfold vadd in *. cbn. rewrite IH by lia. f_equal. ring.
Qed.

Lemma vadd_zero_r (x z : list Qc) :
  all_zero z -> length z = length x -> vadd x z = x.
Proof.
  intros Hz. revert x; induction Hz as [|a z -> _ IH]; intros [|b x] Hlen;
    simpl in Hlen; try discriminate; [done|].
  unfold vadd in *. cbn. rewrite IH by lia. f_equal. ring.
Qed.

Lemma combine_zero (n : nat) (G : list (list Qc)) (w : list Qc) :
  all_zero w -> all_zero (combine n G w).
Proof.
  intros Hw. unfold combine, mat_vec. apply Forall_fmap, Forall_forall.
  intros r _; simpl. by apply dot_zero_r.
Qed.

Lemma in_span_initial (n : nat) (G : list (list Qc)) (c : list Qc) :
  Forall (fun r => length r = n) G -> length c = length G ->
  Forall (in_span n G c) (zip G c).
Proof.
  intros HG. revert c; induction HG as [|r G Hr HG IH]; intros c Hlen;
    [by constructor|].
  destruct c as [|ci c]; [done|]. simpl in Hlen. cbn [zip zip_with].
  subst n. constructor.
  - exists (1 :: replicate (length G) 0). split_and!.
    + simpl. by rewrite length_replicate.
    + simpl. rewrite combine_cons, vscale_1.
      rewrite vadd_zero_r; [done| |by rewrite length_combine].
      apply combine_zero, all_zero_replicate.
    + simpl. rewrite dot_cons, dot_zero_l by apply all_zero_replicate. ring.
  - eapply Forall_impl; [apply IH; lia|].
    intros rho (w & Hw & H1 & H2). exists (0 :: w). split_and!.
    + simpl. lia.
    + rewrite combine_cons, vadd_zero_l; [done|apply all_zero_vscale_0|].
      by rewrite length_vscale, length_combine.
    + rewrite dot_cons, H2. ring.
Qed.

Lemma pivot_rhs_in (pivots : list (nat * arow)) (j : nat) (r : arow) :
  NoDup pivots.*1 -> (j, r) ∈ pivots -> pivot_rhs j pivots = r.2.
Proof.
  induction pivots as [|[k r0] ps IH]; intros Hnd Hin.
  - by apply elem_of_nil in Hin.
  - cbn [pivot_rhs]. cbn [fmap list_fmap fst] in Hnd.
    apply NoDup_cons in Hnd as [Hk Hnd].
    apply elem_of_cons in Hin as [[= -> ->]|Hin].
    + by rewrite decide_True.
    + rewrite decide_False; [by apply IH|].
      intros ->. apply Hk. apply list_elem_of_fmap. by exists (j, r).
Qed.

Lemma pivot_rhs_notin (pivots : list (nat * arow)) (j : nat) :
  j ∉ pivots.*1 -> pivot_rhs j pivots = 0.
Proof.
  induction pivots as [|[k r0] ps IH]; intros Hnotin; [done|].
  cbn [pivot_rhs]. cbn [fmap list_fmap fst] in Hnotin.
  apply not_elem_of_cons in Hnotin as [Hne Hnotin].
  rewrite decide_False by done. by apply IH.
Qed.

Lemma nth_read_solution (n : nat) (pivots : list (nat * arow)) (k : nat) :
  nth k (read_solution n pivots) 0 =
  if decide (k < n)%nat then pivot_rhs k pivots else 0.
Proof.
  unfold read_solution. rewrite nth_lookup, list_lookup_fmap.
  case_decide.
  - by rewrite lookup_seq_lt.
  - by rewrite lookup_seq_ge by lia.
Qed.

Lemma dot_single (r x : list Qc) (j : nat) :
  (forall k, k <> j -> nth k r 0 * nth k x 0 = 0) ->
  dot r x = nth j r 0 * nth j x 0.
Proof.
  revert x j; induction r as [|a r IH]; intros x j Hz.
  - destruct j; cbn; ring.
  - destruct x as [|b x]; [rewrite dot_nil_r; destruct j; cbn; ring|].
    rewrite dot_cons. destruct j as [|j].
    + rewrite (IH x (length r)).
      * rewrite (nth_overflow r) by lia. cbn. ring.
      * intros k _. apply (Hz (S k)). lia.
    + rewrite (IH x j).
      * pose proof (Hz 0%nat ltac:(lia)) as H0. cbn in H0. rewrite H0.
        cbn. ring.
      * intros k Hk. apply (Hz (S k)). lia.
Qed.

Lemma all_zero_nth (v : list Qc) : (forall k, nth k v 0 = 0) -> all_zero v.
Proof.
  induction v as [|a v IH]; intros Hz; [constructor|].
  constructor; [apply (Hz 0%nat)|]. apply IH. intros k. apply (Hz (S k)).
Qed.

Lemma sat_zip (x : list Qc) (G : list (list Qc)) (c : list Qc) :
  length c = length G -> Forall (sat x) (zip G c) -> mat_vec G x = c.
Proof.
  revert c; induction G as [|r G IH]; intros [|ci c] Hlen Hsat;
    simpl in Hlen; try discriminate; [done|].
  cbn [zip zip_with] in Hsat. apply Forall_cons_1 in Hsat as [Hr Hsat].
  cbn [mat_vec fmap list_fmap]. f_equal; [exact Hr|].
  apply IH; [lia|done].
Qed.

(** The correctness of [solve]: when every combination of the rows of
    [G] that vanishes also annihilates [c], the vector returned solves
    [G x = c]. *)
Theorem solve_correct (n : nat) (G : list (list Qc)) (c : list Qc) :
  Forall (fun r => length r = n) G -> length c = length G ->
  (forall w, length w = length G -> all_zero (combine n G w) ->
     dot w c = 0) ->
  mat_vec G (solve n G c) = c.
Proof.
  intros HG Hlen Hcons. apply sat_zip; [done|]. unfold solve.
  set (rows := zip G c).
  set (x := read_solution n (eliminate (seq 0 n) [] rows).1).
  assert (Forall (fun r : arow => length r.1 = n) rows) as Hrows.
  { unfold rows. apply Forall_forall. intros [r ci] Hin.
    apply elem_of_zip_l in Hin. simpl in *.
    rewrite Forall_forall in HG. by apply HG. }
  destruct (eliminate_reduced n (seq 0 n) (fun _ => False) [] rows)
    as (HlP & HlR & Hnd & Hpiv & Hother & Hzero).
  { split_and!.
    - constructor.
    - exact Hrows.
    - constructor.
    - intros j r Hin. by apply elem_of_nil in Hin.
    - intros j r k r' Hin. by apply elem_of_nil in Hin.
    - by intros r j _ []. }
  { apply NoDup_seq. }
  { by intros j _ []. }
  destruct (eliminate_span n G c (seq 0 n) [] rows) as [_ HspanR].
  { constructor. }
  { by apply in_span_initial. }
  apply (eliminate_sound n x (seq 0 n) [] rows); [constructor|done| |].
  - rewrite Forall_fmap, Forall_forall. intros [j r] Hin; simpl.
    destruct (Hpiv j r Hin) as [[[]|Hj%elem_of_seq] Hone].
    unfold sat. rewrite (dot_single _ _ j).
    + fold (coef j r). rewrite Hone. unfold x.
      rewrite nth_read_solution, decide_True by lia.
      rewrite (pivot_rhs_in _ j r) by done. ring.
    + intros k Hk. unfold x. rewrite nth_read_solution.
      case_decide; [|ring].
      destruct (decide (k ∈ (eliminate (seq 0 n) [] rows).1.*1))
        as [Hkin|Hkout].
      * apply list_elem_of_fmap in Hkin as ([k' r'] & -> & Hkin). simpl.
        fold (coef k' r). rewrite (Hother k' r' j r) by done. ring.
      * rewrite pivot_rhs_notin by done. ring.
  - rewrite Forall_forall. intros r Hin.
    rewrite Forall_forall in HlR, HspanR.
    assert (all_zero r.1) as Hz.
    { apply all_zero_nth. intros k.
      destruct (decide (k < n)%nat) as [Hk|Hk].
      - apply (Hzero r k); [done|]. right. apply elem_of_seq. lia.
      - apply nth_overflow. rewrite (HlR r) by done. lia. }
    destruct (HspanR r Hin) as (w & Hw & H1 & H2).
    unfold sat. rewrite dot_zero_l by done.
    rewrite H2. symmetry. apply Hcons; [done|]. by rewrite <- H1.
Qed.

(** *** The least-squares solution *)

Lemma lstsq_exact_length (n : nat) (A : list (list Qc)) (b : list Qc) :
  length (lstsq_exact n A b) = n.
Proof.
  unfold lstsq_exact. by rewrite length_mat_vec, length_gram, length_transpose.
Qed.

Lemma combine_gram (R : list (list Qc)) (w : list Qc) :
  combine (length R) (gram R) w = mat_vec (gram R) w.
Proof. unfold combine. by rewrite transpose_gram. Qed.

(** The normal equations [A^T A x = A^T b]. *)
Theorem lstsq_exact_normal_equations (n : nat) (A : list (list Qc))
    (b : list Qc) :
  mat_vec (gram (transpose n A)) (lstsq_exact n A b) =
  mat_vec (transpose n A) b.
Proof.
  unfold lstsq_exact.
  set (At := transpose n A). set (M := gram At). set (c := mat_vec At b).
  assert (length At = n) as HlAt by apply length_transpose.
  assert (length M = n) as HlM by (unfold M; by rewrite length_gram).
  assert (Forall (fun r => length r = length A) At) as HAt
    by apply transpose_rows.
  assert (Forall (fun r => length r = n) M) as HM
    by (unfold M; rewrite <- HlAt; apply gram_rows).
  assert (Forall (fun r => length r = n) (gram M)) as HMM
    by (rewrite <- HlM; apply gram_rows).
  set (z := solve n (gram M) c).
  assert (mat_vec (gram M) z = c) as Hz.
  { apply solve_correct; [done| |].
    - unfold c. by rewrite length_mat_vec, length_gram, HlAt, HlM.
    - intros w Hw Hzero.
      rewrite <- HlM, combine_gram in Hzero.
      apply (gram_kernel n) in Hzero; [|done].
      unfold M in Hzero. rewrite <- HlAt, combine_gram in Hzero.
      apply (gram_kernel (length A)) in Hzero; [|done].
      unfold c. rewrite <- (dot_combine (length A)) by done.
      by apply dot_zero_l. }
  transitivity (mat_vec M (combine n M z));
    [|by rewrite <- (mat_vec_gram n M z)].
  f_equal. unfold M. rewrite <- combine_gram. by rewrite HlAt.
Qed.

Lemma length_vsub (u v : list Qc) :
  length u = length v -> length (vsub u v) = length u.
Proof. intros Hlen. apply length_vadd. by rewrite length_vscale. Qed.

Lemma vsub_self (u : list Qc) : all_zero (vsub u u).
Proof.
  unfold vsub, vadd, vscale. induction u as [|a u IH]; [constructor|].
  cbn. constructor; [ring|exact IH].
Qed.

Lemma vsub_zero (u v : list Qc) :
  length u = length v -> all_zero (vsub u v) -> u = v.
Proof.
  unfold vsub, vadd, vscale.
  revert v; induction u as [|a u IH]; intros [|b v] Hlen Hz;
    simpl in Hlen; try discriminate; [done|].
  cbn in Hz. apply Forall_cons_1 in Hz as [Hab Hz]. f_equal.
  - transitivity (a + - (1) * b + b); [ring|]. rewrite Hab. ring.
  - apply IH; [lia|done].
Qed.

Lemma vsub_split (p q s : list Qc) :
  length p = length q -> length q = length s ->
  vsub p s = vadd (vsub q s) (vsub p q).
Proof.
  unfold vsub, vadd, vscale.
  revert q s; induction p as [|a p IH]; intros [|b q] [|c s] Hpq Hqs;
    simpl in Hpq, Hqs; try discriminate; [done|].
  cbn. f_equal; [ring|]. apply IH; lia.
Qed.

Lemma transpose_transpose (n : nat) (A : list (list Qc)) :
  Forall (fun r => length r = n) A ->
  transpose (length A) (transpose n A) = A.
Proof.
  intros HA.
  transitivity ((fun i => nth i A []) <$> seq 0 (length A));
    [|apply fmap_seq_nth_list].
  unfold transpose at 1. apply list_fmap_ext. intros k i Hi; simpl.
  apply lookup_seq in Hi as [-> Hi]. simpl.
  assert (length (nth k A []) = n) as Hlen.
  { destruct (lookup_lt_is_Some_2 A k Hi) as [r Hr].
    rewrite (nth_lookup_Some A k [] r Hr).
    by apply (Forall_lookup_1 _ _ _ _ HA Hr). }
  rewrite <- (fmap_seq_nth (nth k A [])), Hlen.
  unfold col, transpose. rewrite <- list_fmap_compose.
  apply list_fmap_ext. intros _ j _; simpl. unfold col.
  by rewrite (nth_fmap_default _ _ _ []).
Qed.

(** The solution minimises the residual over all vectors. *)
Theorem lstsq_exact_minimises (n : nat) (A : list (list Qc)) (b y : list Qc) :
  Forall (fun r => length r = n) A -> length b = length A -> length y = n ->
  residual A b (lstsq_exact n A b) <= residual A b y.
Proof.
  intros HA Hb Hy.
  set (x := lstsq_exact n A b).
  assert (length x = n) as Hx by apply lstsq_exact_length.
  set (At := transpose n A).
  assert (Forall (fun r => length r = length A) At) as HAt
    by apply transpose_rows.
  assert (forall v, mat_vec A v = combine (length A) At v) as HAv.
  { intros v. unfold combine, At. by rewrite transpose_transpose. }
  set (d := vsub y x).
  assert (mat_vec A d = vsub (mat_vec A y) (mat_vec A x)) as Hd.
  { unfold d, vsub. rewrite mat_vec_vadd, mat_vec_vscale; [done|].
    rewrite length_vscale. congruence. }
  assert (all_zero (mat_vec At (vsub (mat_vec A x) b))) as Hnormal.
  { unfold vsub. rewrite mat_vec_vadd, mat_vec_vscale
      by (by rewrite length_vscale, length_mat_vec).
    rewrite HAv, <- (mat_vec_gram (length A)) by done.
    unfold x, At. rewrite lstsq_exact_normal_equations. apply vsub_self. }
  assert (dot (vsub (mat_vec A x) b) (mat_vec A d) = 0) as Hcross.
  { rewrite dot_comm, HAv, (dot_combine (length A)) by done.
    by apply dot_zero_r. }
  unfold residual. fold x.
  rewrite (vsub_split (mat_vec A y) (mat_vec A x) b)
    by (by rewrite !length_mat_vec).
  rewrite <- Hd.
  assert (length (vsub (mat_vec A x) b) = length (mat_vec A d)) as Hlen.
  { rewrite length_vsub, !length_mat_vec; [done|].
    by rewrite length_mat_vec. }
  rewrite dot_vadd_l, !dot_vadd_r by done.
  rewrite Hcross, (dot_comm (mat_vec A d) (vsub (mat_vec A x) b)), Hcross.
  set (e := dot (vsub (mat_vec A x) b) (vsub (mat_vec A x) b)).
  replace (e + 0 + (0 + dot (mat_vec A d) (mat_vec A d)))
    with (e + dot (mat_vec A d) (mat_vec A d)) by ring.
  replace e with (e + 0) at 1 by ring.
  apply Qcplus_le_compat; [apply Qcle_refl|apply dot_self_nonneg].
Qed.

(** When the system has a solution, the vector returned is one. *)
Theorem lstsq_exact_solves (n : nat) (A : list (list Qc)) (b y : list Qc) :
  Forall (fun r => length r = n) A -> length y = n ->
  mat_vec A y = b ->
  mat_vec A (lstsq_exact n A b) = b.
Proof.
  intros HA Hy Hsol.
  assert (length b = length A) as Hb by (by rewrite <- Hsol, length_mat_vec).
  pose proof (lstsq_exact_minimises n A b y HA Hb Hy) as Hmin.
  assert (residual A b y = 0) as Hzero.
  { unfold residual. rewrite Hsol. apply dot_zero_l, vsub_self. }
  rewrite Hzero in Hmin.
  apply vsub_zero; [by rewrite length_mat_vec|].
  apply dot_self_zero. apply Qcle_antisym; [exact Hmin|].
  apply dot_self_nonneg.
Qed.

Lemma vadd_vsub (x y : list Qc) :
  length x = length y -> vadd x (vsub y x) = y.
Proof.
  unfold vsub, vadd, vscale.
  revert y; induction x as [|a x IH]; intros [|c y] Hlen; simpl in Hlen;
    try discriminate; [done|].
  cbn. f_equal; [ring|]. apply IH. lia.
Qed.

(** Among the solutions of the normal equations it is the one of least
    norm. *)
Theorem lstsq_exact_minimum_norm (n : nat) (A : list (list Qc))
    (b y : list Qc) :
  length y = n ->
  mat_vec (gram (transpose n A)) y = mat_vec (transpose n A) b ->
  dot (lstsq_exact n A b) (lstsq_exact n A b) <= dot y y.
Proof.
  intros Hy Hnormal.
  pose proof (lstsq_exact_normal_equations n A b) as Hx.
  pose proof (lstsq_exact_length n A b) as Hlx.
  set (x := lstsq_exact n A b) in *.
  set (M := gram (transpose n A)) in *.
  assert (length (transpose n A) = n) as HlAt by apply length_transpose.
  assert (Forall (fun r => length r = n) M) as HM.
  { pose proof (gram_rows (transpose n A)) as Hrows.
    by rewrite HlAt in Hrows. }
  set (d := vsub y x).
  assert (length x = length d) as Hld
    by (unfold d; rewrite length_vsub; congruence).
  assert (all_zero (mat_vec M d)) as Hd.
  { unfold d, vsub. rewrite mat_vec_vadd, mat_vec_vscale
      by (rewrite length_vscale; congruence).
    rewrite Hnormal, Hx. apply vsub_self. }
  assert (dot x d = 0) as Hcross.
  { unfold x at 1, lstsq_exact. fold M.
    set (z := solve n (gram M) (mat_vec (transpose n A) b)).
    unfold M at 1. rewrite <- combine_gram. fold M.
    replace (length (transpose n A)) with n by done.
    rewrite (dot_combine n) by done. by apply dot_zero_r. }
  assert (y = vadd x d) as Hsplit
    by (unfold d; symmetry; apply vadd_vsub; congruence).
  clearbody d. rewrite Hsplit.
  rewrite dot_vadd_l, !dot_vadd_r by done.
  rewrite (dot_comm d x), Hcross.
  replace (dot x x + 0 + (0 + dot d d)) with (dot x x + dot d d) by ring.
  replace (dot x x) with (dot x x + 0) at 1 by ring.
  apply Qcplus_le_compat; [apply Qcle_refl|apply dot_self_nonneg].
Qed.

End LinAlgFacts.

(** ** [np.linalg.lstsq] returns a least-squares solution *)

Lemma fdot_Fin (u v : list Qc) :
  fdot (Fin <$> u) (Fin <$> v) = Fin (LinAlg.dot u v).
Proof.
  revert v; induction u as [|a u IH]; intros [|b v]; try reflexivity.
  unfold fdot in *. cbn [fmap list_fmap zip_with foldr]. by rewrite IH.
Qed.

Lemma fmat_vec_Fin (A : list (list Qc)) (x : list Qc) :
  fmat_vec (fmap (M := list) Fin <$> A) (Fin <$> x) = Fin <$> LinAlg.mat_vec A x.
Proof.
  unfold fmat_vec, LinAlg.mat_vec. rewrite <- !list_fmap_compose.
  apply list_fmap_ext. intros _ r _; simpl. apply fdot_Fin.
Qed.

Lemma zip_with_fsub_Fin (p q : list Qc) :
  zip_with fsub (Fin <$> p) (Fin <$> q) = Fin <$> LinAlg.vsub p q.
Proof.
  unfold LinAlg.vsub, LinAlg.vadd, LinAlg.vscale.
  revert q; induction p as [|a p IH]; intros [|b q]; try reflexivity.
  cbn [fmap list_fmap zip_with]. rewrite IH.
  f_equal; try done; unfold fsub; simpl; f_equal; ring.
Qed.

Lemma residual_sq_Fin (A : list (list Qc)) (b x : list Qc) :
  residual_sq (fmap (M := list) Fin <$> A) (Fin <$> b) (Fin <$> x) =
  Fin (LinAlg.residual A b x).
Proof.
  unfold residual_sq, LinAlg.residual.
  by rewrite fmat_vec_Fin, zip_with_fsub_Fin, fdot_Fin.
Qed.

Lemma mapM_to_finite (l : list fval) (l' : list Qc) :
  mapM to_finite l = Some l' -> l = Fin <$> l'.
Proof.
  intros Hl. symmetry. apply (mapM_fmap_Some_inv to_finite Fin l l' Hl).
  intros [] y; simpl; intros [= <-]; done.
Qed.

Lemma mapM_mapM_to_finite (A : list (list fval)) (A' : list (list Qc)) :
  mapM (mapM to_finite) A = Some A' -> A = fmap (M := list) Fin <$> A'.
Proof.
  intros HA. symmetry.
  apply (mapM_fmap_Some_inv (mapM to_finite) (fmap (M := list) Fin) A A' HA).
  intros r r' Hr. symmetry. by apply mapM_to_finite.
Qed.

Lemma finite_vector_Fin (x : list fval) :
  finite_vector x -> exists x', x = Fin <$> x'.
Proof.
  induction 1 as [|a x Ha _ [x' ->]]; [by exists []|].
  destruct a as [q| | |]; try done. by exists (q :: x').
Qed.

Lemma fmap_Fin_inj (u v : list Qc) : Fin <$> u = Fin <$> v -> u = v.
Proof.
  revert v; induction u as [|a u IH]; intros [|b v]; try done.
  cbn [fmap list_fmap]. intros [= -> Huv]. f_equal. by apply IH.
Qed.

(** What [lstsq] returns on an array with [n] columns minimises the
    residual, and solves the system whenever the system can be solved. *)
Lemma lstsq_least_squares (n : nat) (A : list (list fval)) (b h : list fval) :
  Forall (fun r => length r = n) A ->
  lstsq n A b = Some h ->
  (forall y, length y = n -> finite_vector y ->
     fle (residual_sq A b h) (residual_sq A b y) = true) /\
  (forall y, length y = n -> finite_vector y ->
     fmat_vec A y = b -> fmat_vec A h = b).
Proof.
  intros Hcols. unfold lstsq. case_decide as Hlen; [|done].
  destruct (mapM (mapM to_finite) A) as [A'|] eqn:HA; simpl; [|done].
  destruct (mapM to_finite b) as [b'|] eqn:Hb; simpl; [|done].
  intros [= <-].
  apply mapM_mapM_to_finite in HA as ->. apply mapM_to_finite in Hb as ->.
  rewrite !length_fmap in Hlen.
  assert (Forall (fun r => length r = n) A') as Hcols'.
  { rewrite Forall_fmap in Hcols. eapply Forall_impl; [exact Hcols|].
    intros r; simpl. by rewrite length_fmap. }
  split.
  - intros y Hy [y' ->]%finite_vector_Fin. rewrite length_fmap in Hy.
    rewrite !residual_sq_Fin. apply bool_decide_eq_true.
    by apply LinAlgFacts.lstsq_exact_minimises.
  - intros y Hy [y' ->]%finite_vector_Fin. rewrite length_fmap in Hy.
    rewrite !fmat_vec_Fin. intros Hsol%fmap_Fin_inj.
    f_equal. by apply (LinAlgFacts.lstsq_exact_solves n A' b' y').
Qed.

(** ** Extended rationals *)

Lemma fdiv_zero_not_finite (x : fval) : is_finite (fdiv x (Fin 0%Qc)) = false.
Proof.
  destruct x as [a| | |]; simpl; try done.
  all: repeat case_decide; try done.
  by destruct (a ?= 0)%Qc.
Qed.

Lemma fsub_not_finite (x y : fval) :
  is_finite x = false -> is_finite (fsub x y) = false.
Proof. by destruct x, y. Qed.

Lemma norm_sq_not_finite (r : point) :
  is_finite r.1 = false -> is_finite (norm_sq r) = false.
Proof.
  destruct r as [x y]; unfold norm_sq; simpl.
  destruct x; try done; intros _; by destruct (fmul y y).
Qed.

Lemma sqrt_le_not_finite (x : fval) (d : Qc) :
  is_finite x = false -> sqrt_le x d = false.
Proof. by destruct x. Qed.

Lemma int_of_Z (z : Z) : int (of_Z z) = Some z.
Proof.
  unfold int, of_Z; simpl. f_equal.
  rewrite Qred_identity by (simpl; apply Z.gcd_1_r).
  simpl. apply Z.quot_1_r.
Qed.

(** ** Array helpers *)

Lemma elem_of_np_where (flags : list bool) (k i : nat) :
  i ∈ np_where k flags <-> k <= i /\ flags !! (i - k) = Some true.
Proof.
  revert k; induction flags as [|b flags IH]; intros k; simpl.
  - rewrite elem_of_nil. split; [done|]. by intros [_ ?].
  - assert (Hstep : k < i -> i - k = S (i - S k)) by lia.
    destruct b; [rewrite elem_of_cons|]; rewrite IH; split.
    + intros [->|[Hle Hl]]; [by rewrite Nat.sub_diag|].
      split; [lia|]. by rewrite Hstep by lia.
    + intros [Hle Hl]. destruct (decide (i = k)) as [->|Hne]; [by left|right].
      split; [lia|]. by rewrite Hstep in Hl by lia.
    + intros [Hle Hl]. split; [lia|]. by rewrite Hstep by lia.
    + intros [Hle Hl]. destruct (decide (i = k)) as [->|Hne].
      { by rewrite Nat.sub_diag in Hl. }
      split; [lia|]. by rewrite Hstep in Hl by lia.
Qed.

Lemma within_rejects_not_finite (d : Qc) (diff : list point) (i : nat) (r : point) :
  diff !! i = Some r -> is_finite r.1 = false ->
  within d diff !! i = Some false.
Proof.
  intros Hi Hr. unfold within. rewrite list_lookup_fmap, Hi; simpl.
  f_equal. by apply sqrt_le_not_finite, norm_sq_not_finite.
Qed.

Lemma transform_point_at_infinity (H : mat3) (p : point) :
  third_component H p = Fin 0%Qc ->
  is_finite (transform_point H p).1 = false.
Proof.
  intros Hz. unfold transform_point; simpl. rewrite Hz.
  apply fdiv_zero_not_finite.
Qed.

(** ** C7: a point that maps to infinity is never an inlier *)

(** C7.  When the sample gives a homography [H] (the arrays having the
    same length), [_get_inlier_indices] returns a set of inliers instead
    of aborting, and every point whose third homogeneous component under
    [H] is zero is mapped to a non-finite point and is not in that set. *)
Theorem zero_third_component_excluded
    (src tgt : list point) (d : Qc) (indices : list nat)
    (s t : list point) (H : mat3) :
  length src = length tgt ->
  take_indices src indices = Some s ->
  take_indices tgt indices = Some t ->
  compute_homography_mat s t = Some H ->
  exists inliers,
    _get_inlier_indices src tgt d indices = Some inliers /\
    forall i p, src !! i = Some p -> third_component H p = Fin 0%Qc ->
      is_finite (transform_point H p).1 = false /\ i ∉ inliers.
Proof.
  intros Hlen Hs Ht HH. unfold _get_inlier_indices.
  rewrite Hs, Ht; simpl. rewrite HH; simpl.
  unfold array_sub, transform_points.
  rewrite decide_True by (by rewrite length_fmap). simpl.
  eexists; split; [done|].
  intros i p Hp Hz.
  pose proof (transform_point_at_infinity H p Hz) as Hinf.
  split; [done|].
  rewrite elem_of_np_where, Nat.sub_0_r. intros [_ Hin].
  destruct (lookup_lt_is_Some_2 tgt i) as [ti Hti].
  { rewrite <- Hlen. by eapply lookup_lt_Some. }
  erewrite within_rejects_not_finite in Hin; [done| |].
  - rewrite lookup_zip_with, list_lookup_fmap, Hp, Hti. done.
  - simpl. by apply fsub_not_finite.
Qed.

(** ** C8: the scale-by-two scenario *)

(** C8.  On the four corners of a square of side 10 and their images
    scaled by two, the estimator returns [diag(2,2,1)], and that matrix
    sends [(5,5)] to [(10,10)]. *)
Theorem scale_by_two_scenario :
  compute_homography_mat [pt 0 0; pt 10 0; pt 10 10; pt 0 10]
                         [pt 0 0; pt 20 0; pt 20 20; pt 0 20] = Some scale2 /\
  transform_points [pt 5 5] scale2 = [pt 10 10].
Proof. split; by_evaluation. Qed.

(** ** C9: the argument [T] is dead *)

(** C9.  [get_inliers] returns the same result whatever is passed as
    [T]: the parameter is overwritten by [min(len(src_points), 10)]
    before its first use. *)
Theorem get_inliers_ignores_T (choice : nat -> list nat)
    (src_points target_points : list pyobj) (d : Qc) (s N : nat)
    (T1 T2 : option Z) :
  get_inliers choice src_points target_points d s N T1 =
  get_inliers choice src_points target_points d s N T2.
Proof. reflexivity. Qed.

(** The threshold that decides the refinement pass of a round: the
    history grows by two entries exactly when the inlier count of the
    sample reaches it. *)
Lemma ransac_round_threshold (choice : nat -> list nat)
    (src tgt : list point) (d : Qc) (s T k : nat) (h h' : history)
    (inliers : list nat) :
  _get_inlier_indices src tgt d (choice k) = Some inliers ->
  ransac_round choice src tgt d s T k h = Some h' ->
  length h'.2 = length h.2 + (if decide (T <= length inliers) then 2 else 1).
Proof.
  intros Hin. unfold ransac_round.
  case_decide; [done|]. rewrite Hin; simpl.
  case_decide.
  - destruct (_get_inlier_indices src tgt d inliers); simpl; [|done].
    intros [= <-]; simpl. rewrite !length_app; simpl. lia.
  - intros [= <-]; simpl. rewrite length_app; simpl. lia.
Qed.

(** ** C10: the two lists are filtered independently *)

Lemma filter_tuples_all (l : list pyobj) :
  Forall (fun p => is_ndarray p = false) l ->
  filter (fun p => is_ndarray p = false) l = l.
Proof.
  induction 1 as [|p l Hp _ IH]; [done|].
  rewrite filter_cons_True by done. by rewrite IH.
Qed.


Lemma keep_non_ndarray_tuples (l : list pyobj) :
  l <> [] -> Forall (fun p => is_ndarray p = false) l ->
  keep_non_ndarray l = Some (value <$> l).
Proof.
  intros Hne Hall. unfold keep_non_ndarray.
  rewrite filter_tuples_all by done. by destruct l.
Qed.



(** What follows the misalignment: with three or more points left, the
    first round raises at [mapped_points - target_points], whose shapes
    differ. *)
Lemma misaligned_round_raises (choice : nat -> list nat)
    (src tgt : list point) (d : Qc) (s T k : nat) (h : history) :
  length src <> length tgt -> 2 <= length src -> 2 <= length tgt ->
  ransac_round choice src tgt d s T k h = None.
Proof.
  intros Hne Hs Ht. unfold ransac_round. case_decide; [done|].
  assert (_get_inlier_indices src tgt d (choice k) = None) as ->; [|done].
  unfold _get_inlier_indices.
  destruct (take_indices src (choice k)); simpl; [|done].
  destruct (take_indices tgt (choice k)); simpl; [|done].
  destruct (compute_homography_mat _ _) as [Hm|]; simpl; [|done].
  unfold array_sub, transform_points.
  rewrite decide_False by (by rewrite length_fmap).
  destruct src as [|? [|? ?]]; simpl in *; try lia.
  destruct tgt as [|? [|? ?]]; simpl in *; try lia. done.
Qed.

(** ** C2: the returned set can be smaller than the sample *)

Lemma coincident_sample_has_no_inlier (indices : list nat) :
  indices ≡ₚ [0; 1; 2; 3] ->
  _get_inlier_indices coincident_src coincident_tgt 1%Qc indices = Some [].
Proof.
  intros Hperm. symmetry in Hperm. apply permutations_Permutation in Hperm.
  assert (forallb no_inlier (permutations [0; 1; 2; 3]) = true) as Hall
    by (vm_compute; reflexivity).
  rewrite forallb_forall in Hall.
  apply list_elem_of_In, Hall in Hperm. unfold no_inlier in Hperm.
  by destruct (_get_inlier_indices _ _ _ _) as [[|]|].
Qed.

Lemma coincident_loop (choice : nat -> list nat) (n k : nat) (h : history) :
  (forall j, choice j ≡ₚ [0; 1; 2; 3]) ->
  ransac_loop choice coincident_src coincident_tgt 1%Qc 4 4 n k h =
  Some (h.1 ++ replicate n [], h.2 ++ replicate n 0).
Proof.
  intros Hchoice. revert k h; induction n as [|n IH]; intros k [hs hn]; simpl.
  - by rewrite !app_nil_r.
  - unfold ransac_round.
    rewrite decide_False by (simpl; lia).
    rewrite coincident_sample_has_no_inlier by done. simpl.
    rewrite IH; simpl. by rewrite <- !app_assoc.
Qed.

Lemma argmax_from_zeros (best_i best i n : nat) :
  argmax_from best_i best i (replicate n 0) = best_i.
Proof.
  revert i; induction n as [|n IH]; intros i; [done|].
  cbn [replicate argmax_from].
  destruct (decide (best < 0)); [lia|apply IH].
Qed.

(** C2 (what the code does).  Whatever samples the generator draws, on
    these four correspondences with the default [d = 1] and [s = 4] and
    at least one round, [get_inliers] returns the empty set: zero
    inliers, fewer than [s]. *)
Theorem inlier_set_smaller_than_sample (choice : nat -> list nat) (N : nat)
    (T : option Z) :
  (forall k, choice k ≡ₚ [0; 1; 2; 3]) -> 1 <= N ->
  get_inliers choice (py_tuple <$> coincident_src)
              (py_tuple <$> coincident_tgt) 1%Qc 4 N T = Some ([], []).
Proof.
  intros Hchoice HN. unfold get_inliers.
  rewrite decide_True by done.
  change (keep_non_ndarray (py_tuple <$> coincident_src))
    with (Some coincident_src).
  change (keep_non_ndarray (py_tuple <$> coincident_tgt))
    with (Some coincident_tgt).
  simpl. unfold ransac.
  change (length coincident_src `min` 10) with 4.
  rewrite coincident_loop by done. simpl.
  destruct N as [|n]; [lia|]. simpl.
  by rewrite argmax_from_zeros.
Qed.

Lemma inlier_set_smaller_than_sample_witness :
  get_inliers (fun _ => [0; 1; 2; 3]) (py_tuple <$> coincident_src)
              (py_tuple <$> coincident_tgt) 1%Qc 4 2000 None = Some ([], []).
Proof.
  apply (inlier_set_smaller_than_sample (fun _ => [0; 1; 2; 3]) 2000 None).
  - intros _. reflexivity.
  - lia.
Defined.

(** ** C4: the linear system and its solution *)

Lemma fill_rows_spec (pairs : list (point * point)) (A : list (list fval))
    (row : nat) :
  row + 2 * length pairs <= length A ->
  exists A',
    fill_rows A row pairs = Some A' /\
    length A' = length A /\
    (forall j, j < row -> A' !! j = A !! j) /\
    (forall i s t, pairs !! i = Some (s, t) ->
       A' !! (row + 2 * i) = Some (row_u s t) /\
       A' !! (row + 2 * i + 1) = Some (row_v s t)).
Proof.
  revert A row; induction pairs as [|[s t] pairs IH]; intros A row Hlen.
  - exists A. split_and!; [done..|]. intros i s t Hi. by destruct i.
  - cbn [fill_rows length] in *.
    rewrite decide_True by lia.
    set (A1 := <[row + 1 := row_v s t]> (<[row := row_u s t]> A)).
    assert (length A1 = length A) as HA1
      by (unfold A1; by rewrite !length_insert).
    destruct (IH A1 (row + 2)) as (A' & Hfill & HlenA' & Hbelow & Hrows);
      [lia|].
    exists A'. split_and!; [done|lia| |].
    + intros j Hj. rewrite Hbelow by lia. unfold A1.
      by rewrite !list_lookup_insert_ne by lia.
    + intros [|i] s' t' Hi; simpl in Hi.
      * injection Hi as <- <-.
        rewrite !Nat.add_0_r, !Hbelow by lia. unfold A1. split.
        -- rewrite list_lookup_insert_ne by lia.
           apply list_lookup_insert_eq. lia.
        -- apply list_lookup_insert_eq. rewrite length_insert. lia.
      * destruct (Hrows i s' t' Hi) as [Hu Hv].
        replace (row + 2 * S i) with (row + 2 + 2 * i) by lia.
        done.
Qed.

Lemma compute_points_mat_rows (src tgt : list point) :
  length src = length tgt ->
  exists A,
    compute_points_mat src tgt = Some A /\
    length A = 2 * length src /\
    forall i s t, src !! i = Some s -> tgt !! i = Some t ->
      A !! (2 * i) = Some (row_u s t) /\
      A !! (2 * i + 1) = Some (row_v s t).
Proof.
  intros Hlen. unfold compute_points_mat.
  destruct (fill_rows_spec (zip src tgt) (np_empty (2 * length src) 8) 0)
    as (A & Hfill & HlenA & _ & Hrows).
  { unfold np_empty. rewrite length_zip, length_replicate. lia. }
  exists A. split_and!; [done| |].
  - rewrite HlenA. unfold np_empty. by rewrite length_replicate.
  - intros i s t Hs Ht. apply (Hrows i s t).
    rewrite lookup_zip_with, Hs; simpl. by rewrite Ht.
Qed.

Lemma homography_last_entry (src tgt : list point) (H : mat3) :
  compute_homography_mat src tgt = Some H -> m22 H = Fin 1%Qc.
Proof.
  unfold compute_homography_mat.
  destruct (compute_points_mat src tgt) as [A|]; simpl; [|done].
  destruct (lstsq 8 A (flatten tgt)) as [h|]; simpl; [|done].
  destruct h as [|? [|? [|? [|? [|? [|? [|? [|? [|? h]]]]]]]]]; simpl;
    try done.
  - by intros [= <-].
  - by destruct h.
Qed.

Lemma to_finite_is_Some (x : fval) : is_finite x = true -> is_Some (to_finite x).
Proof. destruct x; by eauto. Qed.

Lemma lstsq_total (n : nat) (A : list (list fval)) (b : list fval) :
  length A = length b ->
  Forall (Forall (fun x => is_finite x = true)) A ->
  Forall (fun x => is_finite x = true) b ->
  exists h, lstsq n A b = Some h /\ length h = n.
Proof.
  intros Hlen HA Hb. unfold lstsq. rewrite decide_True by done.
  destruct (mapM_is_Some_2 (mapM to_finite) A) as [A' ->].
  { eapply Forall_impl; [exact HA|]. intros r Hr; simpl.
    apply mapM_is_Some_2. eapply Forall_impl; [exact Hr|].
    intros x; simpl. apply to_finite_is_Some. }
  destruct (mapM_is_Some_2 to_finite b) as [b' ->].
  { eapply Forall_impl; [exact Hb|]. intros x; simpl.
    apply to_finite_is_Some. }
  simpl. eexists; split; [done|].
  by rewrite length_fmap, LinAlgFacts.lstsq_exact_length.
Qed.

Lemma row_u_finite (s t : point) :
  finite_point s -> finite_point t ->
  Forall (fun x => is_finite x = true) (row_u s t).
Proof.
  destruct s as [[]?], t as [[]?]; intros [? ?] [? ?]; simpl in *; try done.
  destruct f; try done. unfold row_u; simpl. by repeat constructor.
Qed.

Lemma row_v_finite (s t : point) :
  finite_point s -> finite_point t ->
  Forall (fun x => is_finite x = true) (row_v s t).
Proof.
  destruct s as [? []], t as [? []]; intros [? ?] [? ?]; simpl in *; try done.
  destruct f; try done. unfold row_v; simpl. by repeat constructor.
Qed.

Lemma flatten_length (points : list point) :
  length (flatten points) = 2 * length points.
Proof.
  unfold flatten. induction points as [|p points IH]; [done|].
  rewrite bind_cons, length_app, IH. simpl. lia.
Qed.

Lemma flatten_lookup (points : list point) (i : nat) (t : point) :
  points !! i = Some t ->
  flatten points !! (2 * i) = Some t.1 /\
  flatten points !! (2 * i + 1) = Some t.2.
Proof.
  unfold flatten. revert i; induction points as [|p points IH]; intros i Hi;
    [done|].
  rewrite bind_cons. destruct i as [|i]; simpl in Hi.
  - by injection Hi as ->.
  - replace (2 * S i) with (S (S (2 * i))) by lia. simpl. by apply IH.
Qed.

Lemma flatten_finite (points : list point) :
  Forall finite_point points ->
  Forall (fun x => is_finite x = true) (flatten points).
Proof.
  unfold flatten. induction 1 as [|p points [? ?] _ IH]; [done|].
  rewrite bind_cons. by repeat constructor.
Qed.

Lemma compute_points_mat_finite (src tgt : list point) (A : list (list fval)) :
  length src = length tgt ->
  Forall finite_point src -> Forall finite_point tgt ->
  compute_points_mat src tgt = Some A ->
  Forall (Forall (fun x => is_finite x = true)) A /\
  Forall (fun r => length r = 8) A.
Proof.
  intros Hlen Hsrc Htgt HA.
  destruct (compute_points_mat_rows src tgt Hlen) as (A' & HA' & HlenA & Hrows).
  rewrite HA in HA'. injection HA' as <-.
  rewrite <- Forall_and. apply Forall_lookup. intros j r Hj.
  assert (j < 2 * length src) as Hlt
    by (rewrite <- HlenA; by eapply lookup_lt_Some).
  destruct (lookup_lt_is_Some_2 src (j / 2)) as [s Hs].
  { apply Nat.Div0.div_lt_upper_bound. lia. }
  destruct (lookup_lt_is_Some_2 tgt (j / 2)) as [t Ht].
  { rewrite <- Hlen. apply Nat.Div0.div_lt_upper_bound. lia. }
  destruct (Hrows _ s t Hs Ht) as [Hu Hv].
  pose proof (Forall_lookup_1 _ _ _ _ Hsrc Hs) as Hfs.
  pose proof (Forall_lookup_1 _ _ _ _ Htgt Ht) as Hft.
  pose proof (Nat.div_mod_eq j 2) as Hdm.
  pose proof (Nat.mod_upper_bound j 2) as Hm.
  destruct (decide (j mod 2 = 0)) as [H0|H1].
  - replace (2 * (j / 2)) with j in Hu by lia.
    rewrite Hu in Hj. injection Hj as <-.
    split; [by apply row_u_finite|done].
  - replace (2 * (j / 2) + 1) with j in Hv by lia.
    rewrite Hv in Hj. injection Hj as <-.
    split; [by apply row_v_finite|done].
Qed.

(** The whole of [compute_homography_mat] on a correspondence set of
    finite points. *)
Lemma compute_homography_mat_steps (src tgt : list point) :
  length src = length tgt ->
  Forall finite_point src -> Forall finite_point tgt ->
  exists A h H,
    compute_points_mat src tgt = Some A /\
    length A = 2 * length src /\
    Forall (fun r => length r = 8) A /\
    (forall i s t, src !! i = Some s -> tgt !! i = Some t ->
       A !! (2 * i) = Some (row_u s t) /\
       A !! (2 * i + 1) = Some (row_v s t)) /\
    lstsq 8 A (flatten tgt) = Some h /\
    length h = 8 /\
    reshape_3_3 (h ++ [Fin 1%Qc]) = Some H /\
    compute_homography_mat src tgt = Some H /\
    m22 H = Fin 1%Qc.
Proof.
  intros Hlen Hsrc Htgt.
  destruct (compute_points_mat_rows src tgt Hlen) as (A & HA & HlenA & Hrows).
  destruct (compute_points_mat_finite src tgt A) as [Hfin Hcols]; [done..|].
  destruct (lstsq_total 8 A (flatten tgt)) as (h & Hh & Hlenh).
  { rewrite flatten_length. lia. }
  { done. }
  { by apply flatten_finite. }
  assert (compute_homography_mat src tgt = reshape_3_3 (h ++ [Fin 1%Qc]))
    as Hcomp.
  { unfold compute_homography_mat. rewrite HA; simpl. by rewrite Hh. }
  destruct h as [|a0 [|a1 [|a2 [|a3 [|a4 [|a5 [|a6 [|a7 [|? ?]]]]]]]]];
    simpl in Hlenh; try lia.
  exists A, [a0; a1; a2; a3; a4; a5; a6; a7],
    (Mat3 a0 a1 a2 a3 a4 a5 a6 a7 (Fin 1%Qc)).
  split_and!; done.
Qed.

(** Four correspondences do not make the system solvable: with four
    coincident source points and four distinct targets the parameters
    returned do not solve [A h = b], and the matrix sends [(0,0)] to
    [(50,50)], none of the targets. *)
Lemma four_pairs_without_exact_solution :
  length coincident_src = 4 /\
  length coincident_tgt = 4 /\
  compute_homography_mat coincident_src coincident_tgt =
    Some (Mat3 (of_Z 0) (of_Z 0) (of_Z 50)
               (of_Z 0) (of_Z 0) (of_Z 50)
               (of_Z 0) (of_Z 0) (of_Z 1)) /\
  (A ← compute_points_mat coincident_src coincident_tgt;
   h ← lstsq 8 A (flatten coincident_tgt);
   Some (bool_decide (fmat_vec A h = flatten coincident_tgt))) = Some false.
Proof. split_and!; by_evaluation. Qed.

(** C4 (amended).  For a correspondence set of [L] pairs of finite
    points the estimator builds a system [A] of [2L] rows and 8 columns,
    row [2i] being [[x_s, y_s, 1, 0, 0, 0, -x_s*x_t, -y_s*x_t]] and row
    [2i+1] [[0, 0, 0, x_s, y_s, 1, -x_s*y_t, -y_s*y_t]] for
    correspondence [i].  The right-hand side [b] holds the target
    coordinates, [x_t] of correspondence [i] at index [2i] and [y_t] at
    index [2i+1].  It solves [A h = b] by least squares: the 8
    parameters [h] minimise [|A h - b|^2], and they solve the system
    exactly whenever the system has a solution, which [L = 4] does not
    guarantee.  The matrix returned holds [h] row by row followed by 1:
    [[h0, h1, h2], [h3, h4, h5], [h6, h7, 1]]. *)
Theorem homography_system_and_solution (src tgt : list point) :
  length src = length tgt ->
  Forall finite_point src -> Forall finite_point tgt ->
  exists A b h H,
    compute_points_mat src tgt = Some A /\
    length A = 2 * length src /\
    Forall (fun r => length r = 8) A /\
    (forall i s t, src !! i = Some s -> tgt !! i = Some t ->
       A !! (2 * i) =
         Some [s.1; s.2; Fin 1%Qc; Fin 0%Qc; Fin 0%Qc; Fin 0%Qc;
               fmul (fneg s.1) t.1; fmul (fneg s.2) t.1] /\
       A !! (2 * i + 1) =
         Some [Fin 0%Qc; Fin 0%Qc; Fin 0%Qc; s.1; s.2; Fin 1%Qc;
               fmul (fneg s.1) t.2; fmul (fneg s.2) t.2]) /\
    b = flatten tgt /\
    length b = 2 * length tgt /\
    (forall i t, tgt !! i = Some t ->
       b !! (2 * i) = Some t.1 /\ b !! (2 * i + 1) = Some t.2) /\
    lstsq 8 A b = Some h /\
    length h = 8 /\
    (forall y, length y = 8 -> finite_vector y ->
       fle (residual_sq A b h) (residual_sq A b y) = true) /\
    (forall y, length y = 8 -> finite_vector y ->
       fmat_vec A y = b -> fmat_vec A h = b) /\
    reshape_3_3 (h ++ [Fin 1%Qc]) = Some H /\
    h = [m00 H; m01 H; m02 H; m10 H; m11 H; m12 H; m20 H; m21 H] /\
    m22 H = Fin 1%Qc /\
    compute_homography_mat src tgt = Some H.
Proof.
  intros Hlen Hsrc Htgt.
  destruct (compute_homography_mat_steps src tgt Hlen Hsrc Htgt)
    as (A & h & H & HA & HlenA & Hcols & Hrows & Hh & Hlenh & Hre & HH & H22).
  destruct (lstsq_least_squares 8 A (flatten tgt) h Hcols Hh)
    as [Hmin Hexact].
  exists A, (flatten tgt), h, H.
  split_and!; try done.
  - apply flatten_length.
  - apply flatten_lookup.
  - destruct h as [|a0 [|a1 [|a2 [|a3 [|a4 [|a5 [|a6 [|a7 [|? ?]]]]]]]]];
      simpl in Hlenh; try lia.
    cbn [app reshape_3_3] in Hre. by injection Hre as <-.
Qed.

(** On the four corners of the scale-by-two scenario the right-hand
    side is [[0, 0, 20, 0, 20, 20, 0, 20]], the system has the solution
    [(2,0,0,0,2,0,0,0)], so the fit is exact, and the matrix returned is
    [[2, 0, 0], [0, 2, 0], [0, 0, 1]]. *)
Lemma homography_system_and_solution_witness :
  exists A b h H,
    compute_points_mat [pt 0 0; pt 10 0; pt 10 10; pt 0 10]
                       [pt 0 0; pt 20 0; pt 20 20; pt 0 20] = Some A /\
    length A = 8 /\
    b = of_Z <$> [0; 0; 20; 0; 20; 20; 0; 20]%Z /\
    lstsq 8 A b = Some h /\
    fmat_vec A h = b /\
    h = [m00 H; m01 H; m02 H; m10 H; m11 H; m12 H; m20 H; m21 H] /\
    m22 H = Fin 1%Qc /\
    compute_homography_mat [pt 0 0; pt 10 0; pt 10 10; pt 0 10]
                           [pt 0 0; pt 20 0; pt 20 20; pt 0 20] = Some H.
Proof.
  destruct (homography_system_and_solution
              [pt 0 0; pt 10 0; pt 10 10; pt 0 10]
              [pt 0 0; pt 20 0; pt 20 20; pt 0 20])
    as (A & b & h & H & HA & Hlen & _ & _ & Hb & _ & _ & Hh & _ & _ &
        Hexact & _ & Hentries & H22 & HH).
  - reflexivity.
  - repeat constructor.
  - repeat constructor.
  - exists A, b, h, H. split_and!; try done.
    apply (Hexact (of_Z <$> [2; 0; 0; 0; 2; 0; 0; 0]%Z)).
    + reflexivity.
    + repeat constructor.
    + rewrite Hb. vm_compute in HA. injection HA as <-. by_evaluation.
Defined.

(** ** C5: degenerate input is not reported *)

(** The estimator returns a matrix on a single correspondence (fewer
    than 4 pairs) and on four collinear points (a rank-deficient
    system). *)
Lemma degenerate_input_returns_matrix :
  compute_homography_mat [pt 1 0] [pt 2 0] =
    Some (Mat3 (Fin (Q2Qc (1 # 3))) (of_Z 0) (Fin (Q2Qc (1 # 3)))
               (of_Z 0) (of_Z 0) (of_Z 0)
               (Fin (Q2Qc (-2 # 3))) (of_Z 0) (of_Z 1)) /\
  compute_homography_mat [pt 0 0; pt 1 1; pt 2 2; pt 3 3]
                         [pt 0 0; pt 2 2; pt 4 4; pt 6 6] =
    Some (Mat3 (of_Z 1) (of_Z 1) (of_Z 0)
               (of_Z 1) (of_Z 1) (of_Z 0)
               (of_Z 0) (of_Z 0) (of_Z 1)).
Proof. split; by_evaluation. Qed.

(** C5 (amended).  On every correspondence set of finite points,
    whatever its size and the position of its points, the estimator
    returns a 3x3 matrix, with [H[2,2] = 1]: no degenerate-input
    condition is reported. *)
Theorem estimator_accepts_every_correspondence_set (src tgt : list point) :
  length src = length tgt ->
  Forall finite_point src -> Forall finite_point tgt ->
  exists H, compute_homography_mat src tgt = Some H /\ m22 H = Fin 1%Qc.
Proof.
  intros Hlen Hsrc Htgt.
  destruct (compute_homography_mat_steps src tgt Hlen Hsrc Htgt)
    as (A & h & H & _ & _ & _ & _ & _ & _ & _ & HH & H22).
  by exists H.
Qed.

Lemma estimator_accepts_every_correspondence_set_witness :
  exists H,
    compute_homography_mat [pt 0 0; pt 1 1; pt 2 2; pt 3 3]
                           [pt 0 0; pt 2 2; pt 4 4; pt 6 6] = Some H /\
    m22 H = Fin 1%Qc.
Proof.
  apply (estimator_accepts_every_correspondence_set
           [pt 0 0; pt 1 1; pt 2 2; pt 3 3]
           [pt 0 0; pt 2 2; pt 4 4; pt 6 6]).
  - reflexivity.
  - repeat constructor.
  - repeat constructor.
Defined.

(** X2.  The estimator raises on lists of different lengths:
    [np.linalg.lstsq] refuses a system whose two sides differ in their
    number of rows. *)
Lemma estimator_refuses_unequal_lengths (src tgt : list point) :
  length src <> length tgt -> compute_homography_mat src tgt = None.
Proof.
  intros Hne. unfold compute_homography_mat, compute_points_mat.
  destruct (fill_rows_spec (zip src tgt) (np_empty (2 * length src) 8) 0)
    as (A & -> & HlenA & _ & _).
  { unfold np_empty. rewrite length_zip, length_replicate. lia. }
  simpl. unfold lstsq. rewrite decide_False; [done|].
  rewrite HlenA, flatten_length. unfold np_empty.
  rewrite length_replicate. lia.
Qed.

(** ** C6: the bounds of the warped image *)

Lemma int_toward_zero (x : Qc) : int (Fin x) = Some (toward_zero x).
Proof.
  unfold int, toward_zero. f_equal.
  destruct x as [[n dn] Hcanon]; simpl.
  case_decide as Hsign; unfold Qcle, Qle in Hsign; simpl in Hsign.
  - unfold Qfloor. apply Z.quot_div_nonneg; lia.
  - unfold Qceiling, Qfloor, Qopp; simpl.
    rewrite <- (Z.opp_involutive n) at 1.
    rewrite Z.quot_opp_l by lia. f_equal.
    apply Z.quot_div_nonneg; lia.
Qed.

(** The mapped grid spans [u] from [-1/2] to [1/2]; floor and ceiling
    would give the bounds [-1] and [1], the code gives [0] and [0]. *)
Lemma bounds_are_not_floor_and_ceiling :
  grid_extremes image_2x2 shift_half_left =
    Some (Fin (Q2Qc (-1 # 2)), Fin (Q2Qc (1 # 2)), of_Z 0, of_Z 1) /\
  warp_bounds image_2x2 shift_half_left = Some (0, 0, 0, 1)%Z /\
  Qfloor (Q2Qc (-1 # 2)) = (-1)%Z /\
  Qceiling (Q2Qc (1 # 2)) = 1%Z.
Proof. split_and!; by_evaluation. Qed.

(** C6 (amended).  When the extremes of the mapped grid are finite, the
    bounds [(min_u, max_u, min_v, max_v)] are these four numbers, each
    rounded toward zero: the floor when it is non-negative, the ceiling
    when it is negative. *)
Theorem bounds_round_toward_zero (im : image) (H : mat3)
    (lo_u hi_u lo_v hi_v : Qc) :
  grid_extremes im H = Some (Fin lo_u, Fin hi_u, Fin lo_v, Fin hi_v) ->
  warp_bounds im H =
    Some (toward_zero lo_u, toward_zero hi_u,
          toward_zero lo_v, toward_zero hi_v).
Proof.
  unfold grid_extremes, warp_bounds.
  destruct (np_min (fst <$> _)) as [a|]; simpl; [|done].
  destruct (np_max (fst <$> _)) as [b|]; simpl; [|done].
  destruct (np_min (snd <$> _)) as [c|]; simpl; [|done].
  destruct (np_max (snd <$> _)) as [e|]; simpl; [|done].
  intros [= -> -> -> ->].
  by rewrite !int_toward_zero.
Qed.

Lemma bounds_round_toward_zero_witness :
  warp_bounds image_2x2 shift_left = Some (-1, 0, 0, 1)%Z.
Proof.
  rewrite (bounds_round_toward_zero image_2x2 shift_left
             (Q2Qc (-3 # 2)) (Q2Qc (-1 # 2)) (Q2Qc 0) (Q2Qc 1)).
  - reflexivity.
  - vm_compute. reflexivity.
Defined.

(** ** [np.linalg.inv] returns the inverse *)

Lemma np_linalg_inv_correct (H H_inv : mat3) :
  np_linalg_inv H = Some H_inv -> mat3_mul H H_inv = eye3.
Proof.
  destruct H as [a b c d e f g h i].
  destruct a as [a| | |]; [|done..]. destruct b as [b| | |]; [|done..].
  destruct c as [c| | |]; [|done..]. destruct d as [d| | |]; [|done..].
  destruct e as [e| | |]; [|done..]. destruct f as [f| | |]; [|done..].
  destruct g as [g| | |]; [|done..]. destruct h as [h| | |]; [|done..].
  destruct i as [i| | |]; [|done..].
  cbn [np_linalg_inv]. case_decide as Hdet; [done|].
  intros [= <-]. unfold mat3_mul, eye3, LinAlg.det3 in *.
  cbn [m00 m01 m02 m10 m11 m12 m20 m21 m22 fmul fadd].
  f_equal; f_equal; field; exact Hdet.
Qed.

(** ** C3: warping with the identity *)

Lemma fle_of_Z (a b : Z) : fle (of_Z a) (of_Z b) = bool_decide (a <= b)%Z.
Proof.
  unfold fle, of_Z. apply bool_decide_ext.
  unfold Qcle; simpl. rewrite !Qred_correct. by rewrite <- Zle_Qle.
Qed.

Lemma fmin_of_Z (a b : Z) : fmin (of_Z a) (of_Z b) = of_Z (a `min` b).
Proof.
  change (fmin (of_Z a) (of_Z b))
    with (if fle (of_Z a) (of_Z b) then of_Z a else of_Z b).
  rewrite fle_of_Z. case_bool_decide; f_equal; lia.
Qed.

Lemma fmax_of_Z (a b : Z) : fmax (of_Z a) (of_Z b) = of_Z (a `max` b).
Proof.
  change (fmax (of_Z a) (of_Z b))
    with (if fle (of_Z a) (of_Z b) then of_Z b else of_Z a).
  rewrite fle_of_Z. case_bool_decide; f_equal; lia.
Qed.

Lemma foldl_fmin_of_Z (l : list Z) (a : Z) :
  foldl fmin (of_Z a) (of_Z <$> l) = of_Z (foldl Z.min a l).
Proof.
  revert a; induction l as [|x l IH]; intros a; [done|].
  cbn [fmap list_fmap foldl]. by rewrite fmin_of_Z, IH.
Qed.

Lemma foldl_fmax_of_Z (l : list Z) (a : Z) :
  foldl fmax (of_Z a) (of_Z <$> l) = of_Z (foldl Z.max a l).
Proof.
  revert a; induction l as [|x l IH]; intros a; [done|].
  cbn [fmap list_fmap foldl]. by rewrite fmax_of_Z, IH.
Qed.

Lemma foldl_min_least (l : list Z) (a m : Z) :
  m ∈ a :: l -> (forall x, x ∈ a :: l -> (m <= x)%Z) ->
  foldl Z.min a l = m.
Proof.
  revert a; induction l as [|x l IH]; intros a Hin Hle; simpl.
  - apply list_elem_of_singleton in Hin. done.
  - apply IH.
    + rewrite !elem_of_cons in Hin. rewrite elem_of_cons.
      assert (m <= a)%Z by (apply Hle; left).
      assert (m <= x)%Z by (apply Hle; right; left).
      destruct Hin as [->|[->|?]]; [left; lia|left; lia|by right].
    + intros y Hy. rewrite elem_of_cons in Hy.
      destruct Hy as [->|Hy].
      * assert (m <= a)%Z by (apply Hle; left).
        assert (m <= x)%Z by (apply Hle; right; left). lia.
      * apply Hle. by do 2 right.
Qed.

Lemma foldl_max_greatest (l : list Z) (a m : Z) :
  m ∈ a :: l -> (forall x, x ∈ a :: l -> (x <= m)%Z) ->
  foldl Z.max a l = m.
Proof.
  revert a; induction l as [|x l IH]; intros a Hin Hle; simpl.
  - apply list_elem_of_singleton in Hin. done.
  - apply IH.
    + rewrite !elem_of_cons in Hin. rewrite elem_of_cons.
      assert (a <= m)%Z by (apply Hle; left).
      assert (x <= m)%Z by (apply Hle; right; left).
      destruct Hin as [->|[->|?]]; [left; lia|left; lia|by right].
    + intros y Hy. rewrite elem_of_cons in Hy.
      destruct Hy as [->|Hy].
      * assert (a <= m)%Z by (apply Hle; left).
        assert (x <= m)%Z by (apply Hle; right; left). lia.
      * apply Hle. by do 2 right.
Qed.

Lemma np_min_of_Z (l : list Z) (m : Z) :
  m ∈ l -> (forall x, x ∈ l -> (m <= x)%Z) ->
  np_min (of_Z <$> l) = Some (of_Z m).
Proof.
  destruct l as [|a l]; intros Hin Hle; [by apply elem_of_nil in Hin|].
  cbn [fmap list_fmap np_min].
  by rewrite foldl_fmin_of_Z, (foldl_min_least l a m).
Qed.

Lemma np_max_of_Z (l : list Z) (m : Z) :
  m ∈ l -> (forall x, x ∈ l -> (x <= m)%Z) ->
  np_max (of_Z <$> l) = Some (of_Z m).
Proof.
  destruct l as [|a l]; intros Hin Hle; [by apply elem_of_nil in Hin|].
  cbn [fmap list_fmap np_max].
  by rewrite foldl_fmax_of_Z, (foldl_max_greatest l a m).
Qed.

Lemma elem_of_arange (a b x : Z) : x ∈ arange a b <-> (a <= x < b)%Z.
Proof.
  unfold arange. rewrite list_elem_of_fmap. split.
  - intros (k & -> & Hk). apply elem_of_seq in Hk. lia.
  - intros Hx. exists (Z.to_nat (x - a)). split; [lia|].
    apply elem_of_seq. lia.
Qed.

Lemma elem_of_grid_points (us vs : list Z) (u v : Z) :
  (u, v) ∈ grid_points us vs <-> u ∈ us /\ v ∈ vs.
Proof.
  unfold grid_points. rewrite list_elem_of_bind. split.
  - intros (v' & Hin & Hv). apply list_elem_of_fmap in Hin.
    destruct Hin as (u' & [= -> ->] & Hu). done.
  - intros [Hu Hv]. exists v. split; [|done].
    apply list_elem_of_fmap. by exists u.
Qed.

Lemma dot3_finite (u v h0 h1 h2 : Qc) :
  dot3 (Fin u) (Fin v) (Fin h0) (Fin h1) (Fin h2) =
  Fin (u * h0 + v * h1 + 1 * h2)%Qc.
Proof. reflexivity. Qed.

Lemma fdiv_finite (a b : Qc) : b <> 0%Qc -> fdiv (Fin a) (Fin b) = Fin (a / b)%Qc.
Proof. intros Hb. unfold fdiv. by rewrite decide_False. Qed.

Lemma transform_point_identity (p : Z * Z) :
  transform_point eye3 (to_float p) = to_float p.
Proof.
  destruct p as [u v].
  unfold transform_point, third_component, to_float, eye3, of_Z.
  cbn [fst snd m00 m01 m02 m10 m11 m12 m20 m21 m22].
  rewrite !dot3_finite.
  set (x := Q2Qc (inject_Z u)). set (y := Q2Qc (inject_Z v)).
  replace (x * 0 + y * 0 + 1 * 1)%Qc with 1%Qc by ring.
  rewrite !fdiv_finite by done.
  f_equal; f_equal; field; done.
Qed.

Lemma transform_points_identity (points : list (Z * Z)) :
  transform_points (to_float <$> points) eye3 = to_float <$> points.
Proof.
  unfold transform_points. rewrite <- list_fmap_compose.
  apply list_fmap_ext. intros _ p _. apply transform_point_identity.
Qed.

(** Under the identity the bounds are the first and the _last_ pixel
    of each axis. *)
Lemma warp_bounds_identity (im : image) :
  1 <= shape0 im -> 1 <= shape1 im ->
  warp_bounds im eye3 =
    Some (0, Z.of_nat (shape1 im) - 1, 0, Z.of_nat (shape0 im) - 1)%Z.
Proof.
  intros Hh Hw. unfold warp_bounds, transform_grid.
  cbn [snd]. rewrite transform_points_identity.
  set (w := Z.of_nat (shape1 im)). set (h := Z.of_nat (shape0 im)).
  set (g := grid_points (arange 0 w) (arange 0 h)).
  assert (forall u v, (u, v) ∈ g <-> (0 <= u < w)%Z /\ (0 <= v < h)%Z) as Hg.
  { intros u v. unfold g. by rewrite elem_of_grid_points, !elem_of_arange. }
  assert (fst <$> (to_float <$> g) = of_Z <$> (fst <$> g)) as ->
    by (rewrite <- !list_fmap_compose; by apply list_fmap_ext).
  assert (snd <$> (to_float <$> g) = of_Z <$> (snd <$> g)) as ->
    by (rewrite <- !list_fmap_compose; by apply list_fmap_ext).
  assert (forall x, x ∈ fst <$> g <-> (0 <= x < w)%Z) as Hu.
  { intros x. rewrite list_elem_of_fmap. split.
    - intros ([u v] & -> & Hin). by apply Hg in Hin as [? ?].
    - intros Hx. exists (x, 0%Z). split; [done|]. apply Hg. lia. }
  assert (forall y, y ∈ snd <$> g <-> (0 <= y < h)%Z) as Hv.
  { intros y. rewrite list_elem_of_fmap. split.
    - intros ([u v] & -> & Hin). by apply Hg in Hin as [? ?].
    - intros Hy. exists (0%Z, y). split; [done|]. apply Hg. lia. }
  rewrite (np_min_of_Z (fst <$> g) 0), (np_max_of_Z (fst <$> g) (w - 1)),
    (np_min_of_Z (snd <$> g) 0), (np_max_of_Z (snd <$> g) (h - 1)).
  - cbn [mbind option_bind]. by rewrite !int_of_Z.
  - apply Hv. lia.
  - intros y Hy%Hv. lia.
  - apply Hv. lia.
  - intros y Hy%Hv. lia.
  - apply Hu. lia.
  - intros x Hx%Hu. lia.
  - apply Hu. lia.
  - intros x Hx%Hu. lia.
Qed.

Lemma np_zeros3_shape (rows cols : Z) :
  (0 <= rows)%Z -> (0 <= cols)%Z ->
  exists t, np_zeros3 rows cols = Some t /\
            has_shape (Z.to_nat rows) (Z.to_nat cols) t.
Proof.
  intros Hr Hc. unfold np_zeros3. rewrite decide_True by done.
  eexists; split; [done|]. split; [by rewrite length_replicate|].
  apply Forall_replicate. split; [by rewrite length_replicate|].
  by apply Forall_replicate.
Qed.

Lemma set_pixel_shape (rows cols : nat) (t : image) (i j : Z) (c : nat)
    (x : fval) :
  has_shape rows cols t ->
  (0 <= i < Z.of_nat rows)%Z -> (0 <= j < Z.of_nat cols)%Z -> c < 3 ->
  exists t', set_pixel t i j c x = Some t' /\ has_shape rows cols t'.
Proof.
  intros [Hrows Hall] Hi Hj Hc. unfold set_pixel, py_index.
  rewrite decide_True by lia. cbn [mbind option_bind].
  destruct (lookup_lt_is_Some_2 t (Z.to_nat i)) as [row Hrow]; [lia|].
  rewrite Hrow. cbn [mbind option_bind].
  destruct (Forall_lookup_1 _ _ _ _ Hall Hrow) as [Hcols Hpx].
  rewrite decide_True by lia. cbn [mbind option_bind].
  destruct (lookup_lt_is_Some_2 row (Z.to_nat j)) as [px Hpxj]; [lia|].
  rewrite Hpxj. cbn [mbind option_bind].
  pose proof (Forall_lookup_1 _ _ _ _ Hpx Hpxj) as Hlen. simpl in Hlen.
  rewrite decide_True by lia.
  eexists; split; [done|]. split; [by rewrite length_insert|].
  apply Forall_insert; [done|]. split; [by rewrite length_insert|].
  apply Forall_insert; [done|]. by rewrite length_insert.
Qed.

Section WarpShape.

Variable RectBivariateSpline :
  list Z -> list Z -> list (list fval) -> option (fval -> fval -> fval).

Lemma fill_batch_shape (I_cont : fval -> fval -> fval) (min_u min_v : Z)
    (c rows cols : nat) (batch : list ((Z * Z) * point)) (t : image) :
  c < 3 -> Forall (inside min_u min_v rows cols) batch ->
  has_shape rows cols t ->
  exists t', fill_batch I_cont min_u min_v c batch t = Some t' /\
             has_shape rows cols t'.
Proof.
  intros Hc Hin. revert t.
  induction Hin as [|[[u v] [mu mv]] batch [Hv Hu] _ IH]; intros t Ht.
  - by exists t.
  - cbn [fill_batch]. simpl in Hv, Hu.
    destruct (set_pixel_shape rows cols t (v - min_v) (u - min_u) c
                (I_cont mv mu)) as (t1 & -> & Ht1); [done..|].
    cbn [mbind option_bind]. by apply IH.
Qed.

Lemma fill_batches_shape (I_cont : fval -> fval -> fval) (min_u min_v : Z)
    (c batch_size rows cols : nat) (pixels : list ((Z * Z) * point))
    (n i : nat) (t : image) :
  c < 3 -> Forall (inside min_u min_v rows cols) pixels ->
  has_shape rows cols t ->
  exists t',
    fill_batches I_cont min_u min_v c batch_size pixels n i t = Some t' /\
    has_shape rows cols t'.
Proof.
  intros Hc Hin. revert i t; induction n as [|n IH]; intros i t Ht.
  - by exists t.
  - cbn [fill_batches].
    destruct (fill_batch_shape I_cont min_u min_v c rows cols
                (take batch_size (drop (i * batch_size) pixels)) t)
      as (t1 & -> & Ht1); [done| |done|].
    { by apply Forall_take, Forall_drop. }
    cbn [mbind option_bind]. by apply IH.
Qed.

Lemma grid_inside (min_u max_u min_v max_v : Z) (mapped : list point) :
  Forall (inside min_u min_v (Z.to_nat (max_v - min_v))
                 (Z.to_nat (max_u - min_u)))
         (zip (grid_points (arange min_u max_u) (arange min_v max_v)) mapped).
Proof.
  apply Forall_forall. intros [[u v] m] Hin.
  apply elem_of_zip_l in Hin. cbn [fst] in Hin.
  apply elem_of_grid_points in Hin as [Hu%elem_of_arange Hv%elem_of_arange].
  unfold inside; simpl. lia.
Qed.

(** The shape of what [warp_image] returns: [max_v - min_v] rows and
    [max_u - min_u] columns, for the bounds of [warp_bounds]. *)
Lemma warp_image_shape (im : image) (H H_inv : mat3)
    (min_u max_u min_v max_v : Z) :
  np_linalg_inv H = Some H_inv ->
  warp_bounds im H = Some (min_u, max_u, min_v, max_v) ->
  (min_u <= max_u)%Z -> (min_v <= max_v)%Z ->
  (forall c, c < 3 ->
     is_Some (RectBivariateSpline (arange 0 (Z.of_nat (shape0 im)))
                (arange 0 (Z.of_nat (shape1 im))) (channel_of im c))) ->
  exists out,
    warp_image RectBivariateSpline im H = Some (out, min_u, min_v) /\
    has_shape (Z.to_nat (max_v - min_v)) (Z.to_nat (max_u - min_u)) out.
Proof.
  intros Hinv Hb Hu Hv Hspline. unfold warp_image.
  rewrite Hinv, Hb. cbn [mbind option_bind].
  destruct (np_zeros3_shape (max_v - min_v) (max_u - min_u))
    as (t0 & -> & Ht0); [lia..|].
  cbn [mbind option_bind]. unfold transform_grid.
  assert (forall c t, c < 3 ->
    has_shape (Z.to_nat (max_v - min_v)) (Z.to_nat (max_u - min_u)) t ->
    exists t',
      fill_channel RectBivariateSpline im (arange 0 (Z.of_nat (shape1 im)))
        (arange 0 (Z.of_nat (shape0 im))) min_u min_v
        (grid_points (arange min_u max_u) (arange min_v max_v))
        (transform_points
           (to_float <$> grid_points (arange min_u max_u) (arange min_v max_v))
           (mat3_div H_inv (m22 H_inv)))
        t c 64 = Some t' /\
      has_shape (Z.to_nat (max_v - min_v)) (Z.to_nat (max_u - min_u)) t')
    as Hfill.
  { intros c t Hc Ht. unfold fill_channel.
    destruct (Hspline c Hc) as [I_cont ->]. cbn [mbind option_bind].
    apply fill_batches_shape; [done| |done]. apply grid_inside. }
  destruct (Hfill 0 t0) as (t1 & -> & Ht1); [lia|done|].
  cbn [mbind option_bind].
  destruct (Hfill 1 t1) as (t2 & -> & Ht2); [lia|done|].
  cbn [mbind option_bind].
  destruct (Hfill 2 t2) as (t3 & -> & Ht3); [lia|done|].
  cbn [mbind option_bind]. by exists t3.
Qed.

End WarpShape.

Lemma np_linalg_inv_identity : np_linalg_inv eye3 = Some eye3.
Proof. by_evaluation. Qed.

(** C3 (what the code does).  Warping an image of [h] rows and [w]
    columns with the identity gives the offsets [min_u = min_v = 0] but
    an output of [h-1] rows and [w-1] columns, not of [h] rows and [w]
    columns: the last row and the last column are lost. *)
Theorem identity_warp_drops_last_row_and_column
    (RectBivariateSpline :
       list Z -> list Z -> list (list fval) -> option (fval -> fval -> fval))
    (im : image) :
  1 <= shape0 im -> 1 <= shape1 im ->
  (forall c, c < 3 ->
     is_Some (RectBivariateSpline (arange 0 (Z.of_nat (shape0 im)))
                (arange 0 (Z.of_nat (shape1 im))) (channel_of im c))) ->
  exists out,
    warp_image RectBivariateSpline im eye3 = Some (out, 0%Z, 0%Z) /\
    has_shape (shape0 im - 1) (shape1 im - 1) out.
Proof.
  intros Hh Hw Hspline.
  destruct (warp_image_shape RectBivariateSpline im eye3 eye3
              0 (Z.of_nat (shape1 im) - 1) 0 (Z.of_nat (shape0 im) - 1))
    as (out & Hout & Hshape).
  - apply np_linalg_inv_identity.
  - by apply warp_bounds_identity.
  - lia.
  - lia.
  - done.
  - exists out. split; [done|].
    replace (shape0 im - 1) with (Z.to_nat (Z.of_nat (shape0 im) - 1 - 0))
      by lia.
    replace (shape1 im - 1) with (Z.to_nat (Z.of_nat (shape1 im) - 1 - 0))
      by lia.
    done.
Qed.

Lemma identity_warp_drops_last_row_and_column_witness :
  exists out,
    warp_image node_value image_5x5 eye3 = Some (out, 0%Z, 0%Z) /\
    has_shape 4 4 out.
Proof.
  apply (identity_warp_drops_last_row_and_column node_value image_5x5).
  - vm_compute. lia.
  - vm_compute. lia.
  - intros c Hc. vm_compute. eexists. reflexivity.
Defined.

(** On that image the output is the input without its last row and
    column. *)
Lemma identity_warp_5x5 :
  warp_image node_value image_5x5 eye3 =
    Some (take 4 <$> take 4 image_5x5, 0%Z, 0%Z).
Proof. by_evaluation. Qed.

(** ** C1: what each pairwise stitch is given *)

Section StitchProperties.

Variables Bitmap Canvas : Type.
Variable stitch_arrays : nat -> Bitmap -> Bitmap -> option Canvas.
Variable imsave : Canvas -> option Bitmap.

(** Iteration [i] reads the files named by [paths[i+1]] and
    [paths[i]] as they were in the list the function was given: the
    loop has only overwritten the entries below [i], and the only file
    it writes is [images12.png]. *)
Lemma stitch_loop_reads_originals (paths0 : list string)
    (disk0 : gmap string Bitmap) (n i : nat) (paths : list string)
    (disk : gmap string Bitmap) (res : option Canvas)
    (r : Canvas) (paths' : list string) (disk' : gmap string Bitmap) :
  "images12.png"%string ∉ paths0 ->
  (forall j, i <= j -> paths !! j = paths0 !! j) ->
  (forall p, p <> "images12.png"%string -> disk !! p = disk0 !! p) ->
  1 <= n ->
  stitch_loop Bitmap Canvas stitch_arrays imsave n i paths disk res =
    Some (r, paths', disk') ->
  exists path_1 path_2 image_1 image_2,
    paths0 !! (i + n) = Some path_1 /\
    paths0 !! (i + n - 1) = Some path_2 /\
    disk0 !! path_1 = Some image_1 /\
    disk0 !! path_2 = Some image_2 /\
    stitch_arrays (i + n - 1) image_1 image_2 = Some r.
Proof.
  intros Hname. revert i paths disk res.
  induction n as [|n IH]; intros i paths disk res Hpaths Hdisk Hn; [lia|].
  cbn [stitch_loop].
  rewrite !Hpaths by lia.
  destruct (paths0 !! (i + 1)) as [path_1|] eqn:Hp1;
    cbn [mbind option_bind]; [|done].
  destruct (paths0 !! i) as [path_2|] eqn:Hp2;
    cbn [mbind option_bind]; [|done].
  unfold stitch_2_images.
  assert (path_1 <> "images12.png"%string) as Hn1.
  { intros ->. apply Hname. by eapply list_elem_of_lookup_2. }
  assert (path_2 <> "images12.png"%string) as Hn2.
  { intros ->. apply Hname. by eapply list_elem_of_lookup_2. }
  rewrite !Hdisk by done.
  destruct (disk0 !! path_1) as [image_1|] eqn:Hd1;
    cbn [mbind option_bind]; [|done].
  destruct (disk0 !! path_2) as [image_2|] eqn:Hd2;
    cbn [mbind option_bind]; [|done].
  destruct (stitch_arrays i image_1 image_2) as [r1|] eqn:Hr1;
    cbn [mbind option_bind]; [|done].
  destruct (imsave r1) as [saved|]; cbn [mbind option_bind]; [|done].
  destruct n as [|n].
  - cbn [stitch_loop mbind option_bind]. intros [= <- <- <-].
    exists path_1, path_2, image_1, image_2.
    replace (i + 1 - 1) with i by lia. done.
  - intros Hloop. apply IH in Hloop; [| | |lia].
    + replace (S i + S n) with (i + S (S n)) in Hloop by lia.
      replace (S i + S n - 1) with (i + S (S n) - 1) in Hloop by lia.
      done.
    + intros j Hj. rewrite list_lookup_insert_ne by lia.
      apply Hpaths. lia.
    + intros p Hp. rewrite lookup_insert_ne by done. by apply Hdisk.
Qed.

(** C1 (what the code does).  Whenever [stitch_N_images] returns on a
    list of [N] paths, none of them [images12.png], then [N >= 2] and
    the result is the stitch that call [N-2] (the last of the [N-1]
    calls) makes of the files [paths[N-1]] and [paths[N-2]] as they
    were on disk at the start: the result of an earlier stitch is an
    operand of no stitch. *)
Theorem stitch_N_images_returns_last_pair (paths : list string)
    (disk : gmap string Bitmap)
    (r : Canvas) (paths' : list string) (disk' : gmap string Bitmap) :
  "images12.png"%string ∉ paths ->
  stitch_N_images Bitmap Canvas stitch_arrays imsave paths disk =
    Some (r, paths', disk') ->
  exists path_1 path_2 image_1 image_2,
    2 <= length paths /\
    paths !! (length paths - 1) = Some path_1 /\
    paths !! (length paths - 2) = Some path_2 /\
    disk !! path_1 = Some image_1 /\
    disk !! path_2 = Some image_2 /\
    stitch_arrays (length paths - 2) image_1 image_2 = Some r.
Proof.
  intros Hname. unfold stitch_N_images.
  destruct (decide (length paths - 1 = 0)) as [H0|Hpos].
  { rewrite H0. done. }
  intros Hloop.
  apply (stitch_loop_reads_originals paths disk) in Hloop;
    [|done|done|done|lia].
  destruct Hloop as (p1 & p2 & f1 & f2 & Hp1 & Hp2 & Hf1 & Hf2 & Hr).
  exists p1, p2, f1, f2.
  replace (0 + (length paths - 1) - 1) with (length paths - 2) in * by lia.
  split_and!; try done. lia.
Qed.

End StitchProperties.

(** On three images the second stitch is given the files [3.png] and
    [2.png] as they were, not the result of the first stitch: that
    result is written to [images12.png] and put in [paths[0]], which no
    later iteration reads.  The panorama returned holds nothing of
    [1.png]. *)
Lemma three_images_first_stitch_is_dropped :
  stitch_N_images panorama panorama symbolic_stitch symbolic_imsave
    ["1.png"; "2.png"; "3.png"]%string
    (originals ["1.png"; "2.png"; "3.png"]%string) =
  Some (Stitched 1 (Original "3.png") (Original "2.png"),
        ["images12.png"; "images12.png"; "3.png"]%string,
        <["images12.png"%string :=
            Stitched 1 (Original "3.png") (Original "2.png")]>
          (originals ["1.png"; "2.png"; "3.png"]%string)) /\
  uses "1.png" (Stitched 1 (Original "3.png") (Original "2.png")) = false.
Proof. split; by_evaluation. Qed.

Lemma stitch_N_images_returns_last_pair_witness :
  exists path_1 path_2 image_1 image_2,
    2 <= 3 /\
    ["1.png"; "2.png"; "3.png"]%string !! 2 = Some path_1 /\
    ["1.png"; "2.png"; "3.png"]%string !! 1 = Some path_2 /\
    originals ["1.png"; "2.png"; "3.png"]%string !! path_1 = Some image_1 /\
    originals ["1.png"; "2.png"; "3.png"]%string !! path_2 = Some image_2 /\
    symbolic_stitch 1 image_1 image_2 =
      Some (Stitched 1 (Original "3.png") (Original "2.png")).
Proof.
  apply (stitch_N_images_returns_last_pair panorama panorama
           symbolic_stitch symbolic_imsave
           ["1.png"; "2.png"; "3.png"]%string
           (originals ["1.png"; "2.png"; "3.png"]%string)
           (Stitched 1 (Original "3.png") (Original "2.png"))
           ["images12.png"; "images12.png"; "3.png"]%string
           (<["images12.png"%string :=
               Stitched 1 (Original "3.png") (Original "2.png")]>
              (originals ["1.png"; "2.png"; "3.png"]%string))).
  - compute_done.
  - by_evaluation.
Defined.

(** ** Instances of the theorems above *)

Lemma zero_third_component_excluded_witness :
  exists inliers,
    _get_inlier_indices vanishing_src vanishing_tgt 1%Qc [0; 1; 2; 3] =
      Some inliers /\
    4 ∉ inliers.
Proof.
  destruct (zero_third_component_excluded vanishing_src vanishing_tgt 1%Qc
              [0; 1; 2; 3] (take 4 vanishing_src) (take 4 vanishing_tgt)
              vanishing_H)
    as (inliers & Hin & Hout).
  - reflexivity.
  - reflexivity.
  - reflexivity.
  - by_evaluation.
  - exists inliers. split; [exact Hin|].
    apply (Hout 4 (pt 1 5)).
    + reflexivity.
    + by_evaluation.
Defined.


(** * Further properties of the functions *)

(** ** [transform_points]: inverse, product and multiples of a homography *)

Lemma finite_mat3_inv (H : mat3) :
  finite_mat3 H ->
  exists a b c d e f g h i,
    H = Mat3 (Fin a) (Fin b) (Fin c) (Fin d) (Fin e) (Fin f)
             (Fin g) (Fin h) (Fin i).
Proof.
  destruct H as [a b c d e f g h i]. unfold finite_mat3; simpl.
  rewrite !Forall_cons. intros (Ha & Hb & Hc & Hd & He & Hf & Hg & Hh & Hi & _).
  destruct a as [a| | |]; [|done..]. destruct b as [b| | |]; [|done..].
  destruct c as [c| | |]; [|done..]. destruct d as [d| | |]; [|done..].
  destruct e as [e| | |]; [|done..]. destruct f as [f| | |]; [|done..].
  destruct g as [g| | |]; [|done..]. destruct h as [h| | |]; [|done..].
  destruct i as [i| | |]; [|done..].
  by exists a, b, c, d, e, f, g, h, i.
Qed.

Lemma finite_point_inv (p : point) :
  finite_point p -> exists x y, p = (Fin x, Fin y).
Proof.
  destruct p as [[x| | |] [y| | |]]; intros [? ?]; try done. by exists x, y.
Qed.

Lemma np_linalg_inv_inv (H H_inv : mat3) :
  np_linalg_inv H = Some H_inv ->
  exists a b c d e f g h i,
    H = Mat3 (Fin a) (Fin b) (Fin c) (Fin d) (Fin e) (Fin f)
             (Fin g) (Fin h) (Fin i) /\
    LinAlg.det3 a b c d e f g h i <> 0%Qc /\
    H_inv = (let det := LinAlg.det3 a b c d e f g h i in
             Mat3 (Fin ((e * i - f * h) / det)%Qc) (Fin ((c * h - b * i) / det)%Qc)
        (Fin ((b * f - c * e) / det)%Qc)
        (Fin ((f * g - d * i) / det)%Qc) (Fin ((a * i - c * g) / det)%Qc)
        (Fin ((c * d - a * f) / det)%Qc)
        (Fin ((d * h - e * g) / det)%Qc) (Fin ((b * g - a * h) / det)%Qc)
        (Fin ((a * e - b * d) / det)%Qc)).
Proof.
  destruct H as [a b c d e f g h i].
  destruct a as [a| | |]; [|done..]. destruct b as [b| | |]; [|done..].
  destruct c as [c| | |]; [|done..]. destruct d as [d| | |]; [|done..].
  destruct e as [e| | |]; [|done..]. destruct f as [f| | |]; [|done..].
  destruct g as [g| | |]; [|done..]. destruct h as [h| | |]; [|done..].
  destruct i as [i| | |]; [|done..].
  cbn [np_linalg_inv]. case_decide as Hdet; [done|].
  intros [= <-]. by exists a, b, c, d, e, f, g, h, i.
Qed.

Lemma Fin_neq_0 (q : Qc) : Fin q <> Fin 0%Qc -> q <> 0%Qc.
Proof. intros Hq ->. done. Qed.

Lemma transform_point_finite (a b c d e f g h i x y : Qc) :
  (x * g + y * h + 1 * i <> 0)%Qc ->
  transform_point
    (Mat3 (Fin a) (Fin b) (Fin c) (Fin d) (Fin e) (Fin f) (Fin g) (Fin h) (Fin i))
    (Fin x, Fin y) =
  (Fin ((x * a + y * b + 1 * c) / (x * g + y * h + 1 * i))%Qc,
   Fin ((x * d + y * e + 1 * f) / (x * g + y * h + 1 * i))%Qc).
Proof.
  intros Hw. unfold transform_point, third_component.
  cbn [fst snd m00 m01 m02 m10 m11 m12 m20 m21 m22].
  rewrite !dot3_finite. by rewrite !fdiv_finite.
Qed.

Lemma third_component_finite (a b c d e f g h i x y : Qc) :
  third_component
    (Mat3 (Fin a) (Fin b) (Fin c) (Fin d) (Fin e) (Fin f) (Fin g) (Fin h) (Fin i))
    (Fin x, Fin y) = Fin (x * g + y * h + 1 * i)%Qc.
Proof. reflexivity. Qed.

Lemma transform_point_inverse (H H_inv : mat3) (p : point) :
  np_linalg_inv H = Some H_inv ->
  m22 H_inv <> Fin 0%Qc ->
  finite_point p ->
  third_component H p <> Fin 0%Qc ->
  transform_point (mat3_div H_inv (m22 H_inv)) (transform_point H p) = p.
Proof.
  intros (a & b & c & d & e & f & g & h & i & -> & Hdet & ->)%np_linalg_inv_inv.
  intros Hc0 (x & y & ->)%finite_point_inv Hw.
  unfold LinAlg.det3 in *. cbn zeta in *.
  cbn [m22] in Hc0. apply Fin_neq_0 in Hc0.
  rewrite third_component_finite in Hw. apply Fin_neq_0 in Hw.
  unfold mat3_div. cbn [m00 m01 m02 m10 m11 m12 m20 m21 m22].
  rewrite !fdiv_finite by exact Hc0.
  rewrite (transform_point_finite a b c d e f g h i x y) by exact Hw.
  set (det := (a * (e * i - f * h) - b * (d * i - f * g) + c * (d * h - e * g))%Qc) in *.
  set (W := (x * g + y * h + 1 * i)%Qc) in *.
  assert (a * e - b * d <> 0)%Qc as Hae.
  { intros Hz. apply Hc0. rewrite Hz. field. exact Hdet. }
  assert (forall T : Qc, T = / W * (det / (a * e - b * d)) -> T <> 0)%Qc as HT0.
  { intros T -> Hz. apply Qcmult_integral in Hz as [Hz|Hz].
    - by apply (LinAlgFacts.Qcinv_nonzero W) in Hz.
    - apply Hdet.
      transitivity (det / (a * e - b * d) * (a * e - b * d))%Qc;
        [field; done|]. rewrite Hz. ring. }
  assert (x * g + y * h + i <> 0)%Qc as Hw'.
  { intros Hz. apply Hw. unfold W. rewrite <- Hz. ring. }
  rewrite transform_point_finite.
  - f_equal; f_equal; unfold W, det; field; split_and!; done.
  - apply HT0. unfold W, det; field; split_and!; done.
Qed.

Lemma transform_point_nan (M : mat3) (p : point) :
  m22 M = NaN -> transform_point M p = (NaN, NaN).
Proof.
  intros HM. unfold transform_point, third_component, dot3. rewrite HM.
  cbn [fmul].
  assert (forall x, fadd x NaN = NaN) as Hadd by (by intros []).
  assert (forall x, fdiv x NaN = NaN) as Hdiv by (by intros []).
  by rewrite !Hadd, !Hdiv.
Qed.

(** X4.  Mapping points with [H] and then with the normalised inverse
    that [warp_image] computes gives the points back when
    [H_inv[2,2]] is not zero.  When it is zero, which an invertible [H]
    allows, the normalisation divides by zero and every point comes
    back as [(nan, nan)]. *)
Theorem inverse_homography_round_trip (H H_inv : mat3) (points : list point) :
  np_linalg_inv H = Some H_inv ->
  Forall finite_point points ->
  Forall (fun p => third_component H p <> Fin 0%Qc) points ->
  transform_points (transform_points points H) (mat3_div H_inv (m22 H_inv))
  = if decide (m22 H_inv = Fin 0%Qc)
    then replicate (length points) (NaN, NaN)
    else points.
Proof.
  intros Hinv Hfin Hw. unfold transform_points.
  rewrite <- list_fmap_compose. case_decide as Hc.
  - clear Hfin Hw. induction points as [|p points IH]; [done|].
    cbn [fmap list_fmap length replicate]. f_equal; [|exact IH].
    apply transform_point_nan. unfold mat3_div. cbn [m22]. by rewrite Hc.
  - rewrite <- (list_fmap_id points) at 2.
    apply list_fmap_ext. intros j p Hp. simpl.
    apply (transform_point_inverse H H_inv p Hinv Hc).
    + by eapply Forall_lookup_1.
    + by apply (Forall_lookup_1 _ _ _ _ Hw Hp).
Qed.

(** One homography whose inverse has a non-zero last entry, and one,
    [[1,1,0],[1,1,1],[0,1,1]], whose inverse
    [[0,1,-1],[1,-1,1],[-1,1,0]] has not. *)
Lemma inverse_homography_round_trip_witness :
  transform_points (transform_points [pt 3 4; pt 0 0; pt (-2) 7] vanishing_H)
    (mat3_div (Mat3 (of_Z 1) (of_Z 0) (of_Z 0)
                    (of_Z 0) (of_Z 1) (of_Z 0)
                    (of_Z 1) (of_Z 0) (of_Z 1)) (of_Z 1))
  = [pt 3 4; pt 0 0; pt (-2) 7] /\
  transform_points
    (transform_points [pt 3 4; pt 0 0]
       (Mat3 (of_Z 1) (of_Z 1) (of_Z 0)
             (of_Z 1) (of_Z 1) (of_Z 1)
             (of_Z 0) (of_Z 1) (of_Z 1)))
    (mat3_div (Mat3 (of_Z 0) (of_Z 1) (of_Z (-1))
                    (of_Z 1) (of_Z (-1)) (of_Z 1)
                    (of_Z (-1)) (of_Z 1) (of_Z 0)) (of_Z 0))
  = [(NaN, NaN); (NaN, NaN)].
Proof.
  split.
  - apply (inverse_homography_round_trip vanishing_H
             (Mat3 (of_Z 1) (of_Z 0) (of_Z 0)
                   (of_Z 0) (of_Z 1) (of_Z 0)
                   (of_Z 1) (of_Z 0) (of_Z 1))
             [pt 3 4; pt 0 0; pt (-2) 7]).
    + by_evaluation.
    + repeat constructor.
    + repeat constructor; by vm_compute.
  - apply (inverse_homography_round_trip
             (Mat3 (of_Z 1) (of_Z 1) (of_Z 0)
                   (of_Z 1) (of_Z 1) (of_Z 1)
                   (of_Z 0) (of_Z 1) (of_Z 1))
             (Mat3 (of_Z 0) (of_Z 1) (of_Z (-1))
                   (of_Z 1) (of_Z (-1)) (of_Z 1)
                   (of_Z (-1)) (of_Z 1) (of_Z 0))
             [pt 3 4; pt 0 0]).
    + by_evaluation.
    + repeat constructor.
    + repeat constructor; by vm_compute.
Defined.

Lemma mat3_mul_finite (a b c d e f g h i a' b' c' d' e' f' g' h' i' : Qc) :
  mat3_mul
    (Mat3 (Fin a) (Fin b) (Fin c) (Fin d) (Fin e) (Fin f) (Fin g) (Fin h) (Fin i))
    (Mat3 (Fin a') (Fin b') (Fin c') (Fin d') (Fin e') (Fin f')
          (Fin g') (Fin h') (Fin i')) =
  Mat3 (Fin (a * a' + b * d' + c * g')%Qc) (Fin (a * b' + b * e' + c * h')%Qc)
       (Fin (a * c' + b * f' + c * i')%Qc)
       (Fin (d * a' + e * d' + f * g')%Qc) (Fin (d * b' + e * e' + f * h')%Qc)
       (Fin (d * c' + e * f' + f * i')%Qc)
       (Fin (g * a' + h * d' + i * g')%Qc) (Fin (g * b' + h * e' + i * h')%Qc)
       (Fin (g * c' + h * f' + i * i')%Qc).
Proof. reflexivity. Qed.

Lemma Qc_neq_0_ext (u v : Qc) : u <> 0%Qc -> u = v -> v <> 0%Qc.
Proof. by intros Hu <-. Qed.

Lemma transform_point_compose (H1 H2 : mat3) (p : point) :
  finite_mat3 H1 -> finite_mat3 H2 -> finite_point p ->
  third_component H1 p <> Fin 0%Qc ->
  third_component (mat3_mul H2 H1) p <> Fin 0%Qc ->
  transform_point H2 (transform_point H1 p) =
  transform_point (mat3_mul H2 H1) p.
Proof.
  intros (a & b & c & d & e & f & g & h & i & ->)%finite_mat3_inv.
  intros (a' & b' & c' & d' & e' & f' & g' & h' & i' & ->)%finite_mat3_inv.
  intros (x & y & ->)%finite_point_inv.
  rewrite mat3_mul_finite, !third_component_finite.
  intros Hw%Fin_neq_0 Hw2%Fin_neq_0.
  rewrite (transform_point_finite a b c d e f g h i x y) by exact Hw.
  assert (x * g + y * h + i <> 0)%Qc as Hw'.
  { apply (Qc_neq_0_ext _ _ Hw). ring. }
  assert (x * (g' * a + h' * d + i' * g) + y * (g' * b + h' * e + i' * h)
          + (g' * c + h' * f + i' * i) <> 0)%Qc as Hw2'.
  { apply (Qc_neq_0_ext _ _ Hw2). ring. }
  rewrite !transform_point_finite.
  - f_equal; f_equal; field; split_and!; done.
  - exact Hw2.
  - intros Hz. apply Hw2'.
    match type of Hz with ?T = _ =>
      transitivity (T * (x * g + y * h + i))%Qc; [field; done|] end.
    rewrite Hz. ring.
Qed.

(** X5.  Mapping with [H1] and then with [H2] is mapping with the product
    [H2 H1], for points that neither step sends to infinity. *)
Theorem transform_points_compose (H1 H2 : mat3) (points : list point) :
  finite_mat3 H1 -> finite_mat3 H2 ->
  Forall finite_point points ->
  Forall (fun p => third_component H1 p <> Fin 0%Qc) points ->
  Forall (fun p => third_component (mat3_mul H2 H1) p <> Fin 0%Qc) points ->
  transform_points (transform_points points H1) H2 =
  transform_points points (mat3_mul H2 H1).
Proof.
  intros H1f H2f Hfin Hw1 Hw2. unfold transform_points.
  rewrite <- list_fmap_compose.
  apply list_fmap_ext. intros j p Hp. simpl.
  apply transform_point_compose; [done..| | |].
  - by eapply Forall_lookup_1.
  - by apply (Forall_lookup_1 _ _ _ _ Hw1 Hp).
  - by apply (Forall_lookup_1 _ _ _ _ Hw2 Hp).
Qed.

Lemma transform_points_compose_witness :
  transform_points (transform_points [pt 3 4; pt 0 0] vanishing_H) scale2 =
  transform_points [pt 3 4; pt 0 0] (mat3_mul scale2 vanishing_H).
Proof.
  apply (transform_points_compose vanishing_H scale2 [pt 3 4; pt 0 0]).
  - repeat constructor.
  - repeat constructor.
  - repeat constructor.
  - repeat constructor; by vm_compute.
  - repeat constructor; by vm_compute.
Defined.

Lemma transform_point_scale (H : mat3) (k : Qc) (p : point) :
  finite_mat3 H -> k <> 0%Qc -> finite_point p ->
  third_component H p <> Fin 0%Qc ->
  transform_point (mat3_div H (Fin k)) p = transform_point H p.
Proof.
  intros (a & b & c & d & e & f & g & h & i & ->)%finite_mat3_inv Hk.
  intros (x & y & ->)%finite_point_inv.
  rewrite !third_component_finite. intros Hw%Fin_neq_0.
  unfold mat3_div. cbn [m00 m01 m02 m10 m11 m12 m20 m21 m22].
  rewrite !fdiv_finite by exact Hk.
  assert (x * g + y * h + i <> 0)%Qc as Hw'.
  { apply (Qc_neq_0_ext _ _ Hw). ring. }
  rewrite !transform_point_finite.
  - f_equal; f_equal; field; split_and!; done.
  - exact Hw.
  - intros Hz. apply Hw'.
    match type of Hz with ?T = _ =>
      transitivity (T * k)%Qc; [field; done|] end.
    rewrite Hz. ring.
Qed.

(** X6.  A homography and its multiple by a non-zero number map the points
    alike: the division by [H_inv[2,2]] in [warp_image] changes no
    mapped point. *)
Theorem transform_points_scale_invariant (H : mat3) (k : Qc)
    (points : list point) :
  finite_mat3 H -> k <> 0%Qc ->
  Forall finite_point points ->
  Forall (fun p => third_component H p <> Fin 0%Qc) points ->
  transform_points points (mat3_div H (Fin k)) = transform_points points H.
Proof.
  intros Hf Hk Hfin Hw. unfold transform_points.
  apply list_fmap_ext. intros j p Hp.
  apply transform_point_scale; [done..| |].
  - by eapply Forall_lookup_1.
  - by apply (Forall_lookup_1 _ _ _ _ Hw Hp).
Qed.

Lemma transform_points_scale_invariant_witness :
  transform_points [pt 3 4; pt 0 0] (mat3_div vanishing_H (of_Z (-5))) =
  transform_points [pt 3 4; pt 0 0] vanishing_H.
Proof.
  apply (transform_points_scale_invariant vanishing_H
           (Q2Qc (inject_Z (-5))) [pt 3 4; pt 0 0]).
  - repeat constructor.
  - done.
  - repeat constructor.
  - repeat constructor; by vm_compute.
Defined.

(** ** [compute_homography_mat] on exact correspondences *)

Lemma lstsq_finite (n : nat) (A : list (list fval)) (b h : list fval) :
  lstsq n A b = Some h -> exists h', h = Fin <$> h'.
Proof.
  unfold lstsq. case_decide; [|done].
  destruct (mapM (mapM to_finite) A); simpl; [|done].
  destruct (mapM to_finite b); simpl; [|done].
  intros [= <-]. by eexists.
Qed.

Lemma fmat_vec_lookup (A : list (list fval)) (x : list fval) (j : nat)
    (r : list fval) :
  A !! j = Some r -> fmat_vec A x !! j = Some (fdot r x).
Proof. intros Hj. unfold fmat_vec. by rewrite list_lookup_fmap, Hj. Qed.

(** The two equations of a correspondence [(x, y) -> (x', y')], read
    on eight finite parameters. *)
Lemma fdot_row_u (x y x' y' a b c d e f g h : Qc) :
  fdot (row_u (Fin x, Fin y) (Fin x', Fin y'))
       [Fin a; Fin b; Fin c; Fin d; Fin e; Fin f; Fin g; Fin h] =
  Fin (x * a + y * b + c - x' * (x * g + y * h))%Qc.
Proof. unfold fdot, row_u; simpl. f_equal. ring. Qed.

Lemma fdot_row_v (x y x' y' a b c d e f g h : Qc) :
  fdot (row_v (Fin x, Fin y) (Fin x', Fin y'))
       [Fin a; Fin b; Fin c; Fin d; Fin e; Fin f; Fin g; Fin h] =
  Fin (x * d + y * e + f - y' * (x * g + y * h))%Qc.
Proof. unfold fdot, row_v; simpl. f_equal. ring. Qed.

Lemma Qc_div_unique (N D X : Qc) : D <> 0%Qc -> N = (X * D)%Qc -> (N / D)%Qc = X.
Proof. intros HD ->. field. done. Qed.

Lemma Some_Fin_inj (u v : Qc) : Some (Fin u) = Some (Fin v) -> u = v.
Proof. by intros [= ->]. Qed.

Lemma half_cases (j : nat) : j = 2 * (j / 2) \/ j = 2 * (j / 2) + 1.
Proof.
  pose proof (Nat.div_mod_eq j 2). pose proof (Nat.mod_upper_bound j 2). lia.
Qed.

(** X3.  When the targets are the images of the sources under a homography
    [G] with [G[2,2] = 1], the fitted homography sends every source
    point that it does not send to infinity onto its target. *)
Theorem fitted_homography_reproduces_targets (G : mat3)
    (src tgt : list point) :
  finite_mat3 G -> m22 G = Fin 1%Qc ->
  Forall finite_point src ->
  Forall (fun p => third_component G p <> Fin 0%Qc) src ->
  tgt = transform_points src G ->
  exists H,
    compute_homography_mat src tgt = Some H /\
    forall i s t, src !! i = Some s -> tgt !! i = Some t ->
      third_component H s <> Fin 0%Qc -> transform_point H s = t.
Proof.
  intros (a & b & c & d & e & f & g & h & i1 & ->)%finite_mat3_inv.
  cbn [m22]. intros [= ->] Hsrc Hw ->.
  set (G := Mat3 (Fin a) (Fin b) (Fin c) (Fin d) (Fin e) (Fin f)
                 (Fin g) (Fin h) (Fin 1%Qc)).
  assert (forall i s, src !! i = Some s ->
            exists x y, s = (Fin x, Fin y) /\
              (x * g + y * h + 1 * 1 <> 0)%Qc /\
              transform_point G s =
                (Fin ((x * a + y * b + 1 * c) / (x * g + y * h + 1 * 1))%Qc,
                 Fin ((x * d + y * e + 1 * f) / (x * g + y * h + 1 * 1))%Qc))
    as Hpoint.
  { intros i s Hs.
    destruct (finite_point_inv s) as (x & y & ->);
      [by eapply Forall_lookup_1|].
    pose proof (Forall_lookup_1 _ _ _ _ Hw Hs) as Hws. simpl in Hws.
    unfold G in Hws. rewrite third_component_finite in Hws.
    apply Fin_neq_0 in Hws.
    exists x, y. split_and!; [done..|]. by apply transform_point_finite. }
  assert (Forall finite_point (transform_points src G)) as Htgt.
  { apply Forall_lookup. intros i t Ht. unfold transform_points in Ht.
    rewrite list_lookup_fmap in Ht.
    destruct (src !! i) as [s|] eqn:Hs; [|done]. injection Ht as <-.
    destruct (Hpoint i s Hs) as (x & y & -> & _ & ->). by split. }
  destruct (compute_homography_mat_steps src (transform_points src G))
    as (A & hh & H & HA & HlenA & Hcols & Hrows & Hh & Hlenh & Hre & HH & H22);
    [unfold transform_points; by rewrite length_fmap|done..|].
  destruct (lstsq_least_squares 8 A _ hh Hcols Hh) as [_ Hexact].
  assert (fmat_vec A hh = flatten (transform_points src G)) as Hsol.
  { apply (Hexact [Fin a; Fin b; Fin c; Fin d; Fin e; Fin f; Fin g; Fin h]).
    - done.
    - by repeat constructor.
    - apply list_eq. intros j.
      destruct (decide (j < 2 * length src)) as [Hj|Hj].
      + destruct (lookup_lt_is_Some_2 src (j / 2)) as [s Hs].
        { apply Nat.Div0.div_lt_upper_bound. lia. }
        destruct (Hpoint _ s Hs) as (x & y & -> & Hws & Ht).
        assert (transform_points src G !! (j / 2) = Some (transform_point G (Fin x, Fin y)))
          as Htl by (unfold transform_points; by rewrite list_lookup_fmap, Hs).
        destruct (Hrows _ _ _ Hs Htl) as [Hu Hv].
        destruct (flatten_lookup _ _ _ Htl) as [Hfu Hfv].
        assert (x * g + y * h + 1 <> 0)%Qc as Hws'.
        { apply (Qc_neq_0_ext _ _ Hws). ring. }
        destruct (half_cases j) as [Hj2|Hj2]; rewrite Hj2.
        * rewrite (fmat_vec_lookup _ _ _ _ Hu), Hfu. f_equal.
          rewrite Ht. cbn [fst snd]. rewrite fdot_row_u. f_equal.
          field. done.
        * rewrite (fmat_vec_lookup _ _ _ _ Hv), Hfv. f_equal.
          rewrite Ht. cbn [fst snd]. rewrite fdot_row_v. f_equal.
          field. done.
      + rewrite !lookup_ge_None_2; [done| |].
        * rewrite flatten_length. unfold transform_points. rewrite length_fmap. lia.
        * unfold fmat_vec. rewrite length_fmap. lia. }
  exists H. split; [done|].
  intros i s t Hs Ht Hw3.
  destruct (Hpoint _ s Hs) as (x & y & -> & Hws & HtG).
  assert (t = transform_point G (Fin x, Fin y)) as ->.
  { unfold transform_points in Ht. rewrite list_lookup_fmap, Hs in Ht.
    by injection Ht. }
  destruct (lstsq_finite _ _ _ _ Hh) as (h' & ->).
  rewrite length_fmap in Hlenh.
  destruct h' as [|a0 [|a1 [|a2 [|a3 [|a4 [|a5 [|a6 [|a7 [|? ?]]]]]]]]];
    simpl in Hlenh; try lia.
  cbn [fmap list_fmap app reshape_3_3] in Hre. injection Hre as <-.
  rewrite third_component_finite in Hw3. apply Fin_neq_0 in Hw3.
  destruct (Hrows _ _ _ Hs Ht) as [Hu Hv].
  destruct (flatten_lookup _ _ _ Ht) as [Hfu Hfv].
  pose proof (fmat_vec_lookup A (Fin <$> [a0; a1; a2; a3; a4; a5; a6; a7])
                _ _ Hu) as Hu'.
  pose proof (fmat_vec_lookup A (Fin <$> [a0; a1; a2; a3; a4; a5; a6; a7])
                _ _ Hv) as Hv'.
  rewrite Hsol, Hfu in Hu'. rewrite Hsol, Hfv in Hv'.
  rewrite HtG in Hu', Hv' |- *. cbn [fst snd fmap list_fmap] in Hu', Hv'.
  rewrite fdot_row_u in Hu'. rewrite fdot_row_v in Hv'.
  apply Some_Fin_inj in Hu'. apply Some_Fin_inj in Hv'.
  rewrite transform_point_finite by exact Hw3.
  set (X' := ((x * a + y * b + 1 * c) / (x * g + y * h + 1 * 1))%Qc) in *.
  set (Y' := ((x * d + y * e + 1 * f) / (x * g + y * h + 1 * 1))%Qc) in *.
  f_equal; f_equal; apply Qc_div_unique; try done.
  - transitivity (x * a0 + y * a1 + a2 - X' * (x * a6 + y * a7)
                  + X' * (x * a6 + y * a7))%Qc; [ring|].
    rewrite <- Hu'. ring.
  - transitivity (x * a3 + y * a4 + a5 - Y' * (x * a6 + y * a7)
                  + Y' * (x * a6 + y * a7))%Qc; [ring|].
    rewrite <- Hv'. ring.
Qed.

Lemma fitted_homography_reproduces_targets_witness :
  exists H,
    compute_homography_mat [pt 0 0; pt 0 1; pt 2 0; pt 2 1]
                           [pt 0 0; pt 0 1; pt (-2) 0; pt (-2) (-1)] = Some H /\
    transform_point H (pt 2 1) = pt (-2) (-1).
Proof.
  destruct (fitted_homography_reproduces_targets vanishing_H
              [pt 0 0; pt 0 1; pt 2 0; pt 2 1]
              [pt 0 0; pt 0 1; pt (-2) 0; pt (-2) (-1)])
    as (H & HH & Hmap).
  - repeat constructor.
  - reflexivity.
  - repeat constructor.
  - repeat constructor; by vm_compute.
  - by_evaluation.
  - exists H. split; [exact HH|]. apply (Hmap 3); [reflexivity..|].
    vm_compute in HH. injection HH as <-. by vm_compute.
Defined.

(** ** [compute_points_mat] on any two lists *)

Lemma fill_rows_cols (pairs : list (point * point)) (A A' : list (list fval))
    (row : nat) :
  Forall (fun r => length r = 8) A ->
  fill_rows A row pairs = Some A' ->
  Forall (fun r => length r = 8) A'.
Proof.
  revert A row; induction pairs as [|[s t] pairs IH]; intros A row HA; simpl.
  - by intros [= <-].
  - case_decide; [|done]. apply IH.
    by repeat apply Forall_insert.
Qed.

(** X1.  For lists of any lengths and any values [compute_points_mat]
    returns an array of [2 * len(src_points)] rows of 8 entries; the
    rows [2i] and [2i+1] hold the two equations of pair [i] for every
    [i] within both lists. *)
Theorem compute_points_mat_shape (src tgt : list point) :
  exists A,
    compute_points_mat src tgt = Some A /\
    length A = 2 * length src /\
    Forall (fun r => length r = 8) A /\
    forall i s t, src !! i = Some s -> tgt !! i = Some t ->
      A !! (2 * i) = Some (row_u s t) /\
      A !! (2 * i + 1) = Some (row_v s t).
Proof.
  unfold compute_points_mat.
  destruct (fill_rows_spec (zip src tgt) (np_empty (2 * length src) 8) 0)
    as (A & Hfill & HlenA & _ & Hrows).
  { unfold np_empty. rewrite length_zip, length_replicate. lia. }
  exists A. split_and!; [done| | |].
  - rewrite HlenA. unfold np_empty. by rewrite length_replicate.
  - apply (fill_rows_cols _ _ _ _ (Forall_replicate _ _ _
             (length_replicate 8 (Fin 0%Qc))) Hfill).
  - intros i s t Hs Ht. apply (Hrows i s t).
    rewrite lookup_zip_with, Hs; simpl. by rewrite Ht.
Qed.

Lemma estimator_refuses_unequal_lengths_witness :
  compute_homography_mat [pt 0 0; pt 1 0] [pt 0 0] = None.
Proof.
  apply (estimator_refuses_unequal_lengths [pt 0 0; pt 1 0] [pt 0 0]).
  simpl. lia.
Defined.

(** ** What [get_inliers] returns *)

Lemma np_where_bounds (flags : list bool) (k i : nat) :
  i ∈ np_where k flags -> k <= i < k + length flags.
Proof.
  rewrite elem_of_np_where. intros [Hle Hl].
  apply lookup_lt_Some in Hl. lia.
Qed.

Lemma np_where_sorted (flags : list bool) (k : nat) :
  StronglySorted lt (np_where k flags).
Proof.
  revert k; induction flags as [|b flags IH]; intros k; simpl.
  - constructor.
  - destruct b; [|apply IH]. constructor; [apply IH|].
    apply Forall_forall. intros i Hi%np_where_bounds. lia.
Qed.

Lemma get_inlier_indices_spec (src tgt : list point) (d : Qc)
    (idx inl : list nat) :
  length src = length tgt ->
  _get_inlier_indices src tgt d idx = Some inl ->
  exists H, fitted_to src tgt H /\ inliers_of H d src tgt inl.
Proof.
  intros Hlen. unfold _get_inlier_indices.
  destruct (take_indices src idx) as [s|] eqn:Hs; simpl; [|done].
  destruct (take_indices tgt idx) as [t|] eqn:Ht; simpl; [|done].
  destruct (compute_homography_mat s t) as [H|] eqn:HH; simpl; [|done].
  unfold array_sub, transform_points.
  rewrite decide_True by (by rewrite length_fmap). simpl.
  intros [= <-]. exists H. split; [by exists idx, s, t|].
  split; [apply np_where_sorted|].
  intros i. rewrite elem_of_np_where, Nat.sub_0_r.
  unfold within. rewrite list_lookup_fmap, lookup_zip_with, list_lookup_fmap.
  split.
  - intros [_ Hi].
    destruct (src !! i) as [p|]; simpl in Hi; [|done].
    destruct (tgt !! i) as [q|]; simpl in Hi; [|done].
    exists p, q. split_and!; [done..|]. by injection Hi.
  - intros (p & q & -> & -> & Hin). split; [lia|]. simpl. by f_equal.
Qed.

Section RansacFacts.

Variable choice : nat -> list nat.

Lemma ransac_round_ok (src tgt : list point) (d : Qc) (s T k : nat)
    (h h' : history) :
  history_ok src tgt d h ->
  ransac_round choice src tgt d s T k h = Some h' ->
  history_ok src tgt d h' /\
  length src >= s /\
  (forall inl, inl ∈ h.1 -> inl ∈ h'.1) /\
  exists inl, _get_inlier_indices src tgt d (choice k) = Some inl /\
              inl ∈ h'.1.
Proof.
  intros [Hsizes Hall]. unfold ransac_round. case_decide; [done|].
  destruct (_get_inlier_indices src tgt d (choice k)) as [inl|] eqn:Hinl;
    simpl; [|done].
  case_decide.
  - destruct (_get_inlier_indices src tgt d inl) as [inl'|] eqn:Hinl';
      simpl; [|done].
    intros [= <-]; simpl. split_and!.
    + split; simpl.
      * rewrite Hsizes, !fmap_app. done.
      * rewrite !Forall_app. split_and!; [done| |].
        -- apply Forall_singleton. by exists (choice k).
        -- apply Forall_singleton. by exists inl.
    + lia.
    + intros x Hx. rewrite !elem_of_app. by do 2 left.
    + exists inl. split; [done|]. rewrite !elem_of_app.
      left; right. by apply list_elem_of_singleton.
  - intros [= <-]; simpl. split_and!.
    + split; simpl.
      * rewrite Hsizes, !fmap_app. done.
      * rewrite !Forall_app. split; [done|].
        apply Forall_singleton. by exists (choice k).
    + lia.
    + intros x Hx. rewrite !elem_of_app. by left.
    + exists inl. split; [done|]. rewrite !elem_of_app.
      right. by apply list_elem_of_singleton.
Qed.

Lemma ransac_loop_ok (src tgt : list point) (d : Qc) (s T n k : nat)
    (h h' : history) :
  history_ok src tgt d h ->
  ransac_loop choice src tgt d s T n k h = Some h' ->
  history_ok src tgt d h' /\
  (forall inl, inl ∈ h.1 -> inl ∈ h'.1) /\
  forall j, k <= j < k + n ->
    exists inl, _get_inlier_indices src tgt d (choice j) = Some inl /\
                inl ∈ h'.1.
Proof.
  revert k h; induction n as [|n IH]; intros k h Hok; simpl.
  - intros [= <-]. split_and!; [done..|]. intros j Hj. lia.
  - destruct (ransac_round choice src tgt d s T k h) as [h1|] eqn:Hround;
      simpl; [|done].
    destruct (ransac_round_ok _ _ _ _ _ _ _ _ Hok Hround)
      as (Hok1 & _ & Hsub1 & inl & Hinl & Hin1).
    intros Hloop. destruct (IH _ _ Hok1 Hloop) as (Hok' & Hsub & Hrounds).
    split_and!; [done| |].
    + intros x Hx. by apply Hsub, Hsub1.
    + intros j Hj. destruct (decide (j = k)) as [->|Hne].
      * exists inl. split; [done|]. by apply Hsub.
      * apply Hrounds. lia.
Qed.

End RansacFacts.

Lemma argmax_from_spec (pre l : list nat) (best_i best : nat) :
  pre !! best_i = Some best ->
  (forall x, x ∈ pre -> x <= best) ->
  exists m,
    (pre ++ l) !! argmax_from best_i best (length pre) l = Some m /\
    forall x, x ∈ pre ++ l -> x <= m.
Proof.
  revert pre best_i best; induction l as [|y l IH];
    intros pre best_i best Hbest Hmax; simpl.
  - exists best. rewrite app_nil_r. done.
  - case_decide as Hlt.
    + destruct (IH (pre ++ [y]) (length pre) y) as (m & Hm & Hle).
      * by rewrite lookup_app_r, Nat.sub_diag by lia.
      * intros x [Hx|Hx%list_elem_of_singleton]%elem_of_app; [|lia].
        apply Hmax in Hx. lia.
      * rewrite length_app, Nat.add_1_r, <- app_assoc in Hm.
        rewrite <- app_assoc in Hle. by exists m.
    + destruct (IH (pre ++ [y]) best_i best) as (m & Hm & Hle).
      * rewrite lookup_app_l; [done|]. by eapply lookup_lt_Some.
      * intros x [Hx|Hx%list_elem_of_singleton]%elem_of_app; [|lia].
        by apply Hmax.
      * rewrite length_app, Nat.add_1_r, <- app_assoc in Hm.
        rewrite <- app_assoc in Hle. by exists m.
Qed.

Lemma np_argmax_spec (l : list nat) (best : nat) :
  np_argmax l = Some best ->
  exists m, l !! best = Some m /\ forall x, x ∈ l -> x <= m.
Proof.
  destruct l as [|y l]; simpl; [done|]. intros [= <-].
  destruct (argmax_from_spec [y] l 0 y) as (m & Hm & Hle); [done| |].
  - by intros x ->%list_elem_of_singleton.
  - by exists m.
Qed.

Lemma take_indices_length {A : Type} (arr : list A) (indices : list nat)
    (out : list A) :
  take_indices arr indices = Some out -> length out = length indices.
Proof. intros Hm. symmetry. by eapply length_mapM. Qed.

(** What [ransac] returns, read on its history. *)
Lemma ransac_spec (choice : nat -> list nat) (src tgt : list point)
    (d : Qc) (s N : nat) (inlier_src inlier_tgt : list point) :
  ransac choice src tgt d s N = Some (inlier_src, inlier_tgt) ->
  exists best idx,
    _get_inlier_indices src tgt d idx = Some best /\
    take_indices src best = Some inlier_src /\
    take_indices tgt best = Some inlier_tgt /\
    forall k, k < N ->
      exists inl, _get_inlier_indices src tgt d (choice k) = Some inl /\
                  length inl <= length best.
Proof.
  unfold ransac.
  destruct (ransac_loop _ _ _ _ _ _ _ _ _) as [h|] eqn:Hloop; simpl; [|done].
  destruct (np_argmax h.2) as [b|] eqn:Hb; simpl; [|done].
  destruct (h.1 !! b) as [best|] eqn:Hbest; simpl; [|done].
  destruct (take_indices src best) as [isrc|] eqn:His; simpl; [|done].
  destruct (take_indices tgt best) as [itgt|] eqn:Hit; simpl; [|done].
  intros [= <- <-].
  destruct (ransac_loop_ok choice src tgt d s _ N 0 ([], []) h
              ltac:(by split) Hloop) as ([Hsizes Hall] & _ & Hrounds).
  destruct (Forall_lookup_1 _ _ _ _ Hall Hbest) as [idx Hidx].
  exists best, idx. split_and!; [done..|].
  intros k Hk. destruct (Hrounds k) as (inl & Hinl & Hin); [lia|].
  exists inl. split; [done|].
  destruct (np_argmax_spec _ _ Hb) as (m & Hm & Hle).
  rewrite Hsizes, list_lookup_fmap, Hbest in Hm. injection Hm as <-.
  apply Hle. rewrite Hsizes. apply list_elem_of_fmap. by exists inl.
Qed.

Lemma get_inliers_tuples (choice : nat -> list nat)
    (src_points target_points : list pyobj) (d : Qc) (s N : nat)
    (T : option Z) (r : list point * list point) :
  Forall (fun p => is_ndarray p = false) src_points ->
  Forall (fun p => is_ndarray p = false) target_points ->
  get_inliers choice src_points target_points d s N T = Some r ->
  length src_points = length target_points /\
  ransac choice (value <$> src_points) (value <$> target_points) d s N
    = Some r.
Proof.
  intros Hs Ht. unfold get_inliers. case_decide as Hlen; [|done].
  destruct src_points as [|p0 src_points].
  { done. }
  destruct target_points as [|q0 target_points]; [done|].
  rewrite !keep_non_ndarray_tuples by done. done.
Qed.

(** X7.  What [get_inliers] returns on two lists of tuples is the complete
    inlier set of one homography that the code fitted to some of the
    pairs: every pair within distance [d] of that homography and no
    other, as corresponding pairs in the order of the input. *)
Theorem get_inliers_returns_an_inlier_set (choice : nat -> list nat)
    (src_points target_points : list pyobj) (d : Qc) (s N : nat)
    (T : option Z) (inlier_src inlier_tgt : list point) :
  Forall (fun p => is_ndarray p = false) src_points ->
  Forall (fun p => is_ndarray p = false) target_points ->
  get_inliers choice src_points target_points d s N T =
    Some (inlier_src, inlier_tgt) ->
  exists H best,
    fitted_to (value <$> src_points) (value <$> target_points) H /\
    inliers_of H d (value <$> src_points) (value <$> target_points) best /\
    take_indices (value <$> src_points) best = Some inlier_src /\
    take_indices (value <$> target_points) best = Some inlier_tgt.
Proof.
  intros Hs Ht Hrun.
  destruct (get_inliers_tuples _ _ _ _ _ _ _ _ Hs Ht Hrun) as [Hlen Hran].
  destruct (ransac_spec _ _ _ _ _ _ _ _ Hran)
    as (best & idx & Hidx & His & Hit & _).
  assert (length (value <$> src_points) = length (value <$> target_points))
    as Hlen' by (by rewrite !length_fmap).
  destruct (get_inlier_indices_spec _ _ _ _ _ Hlen' Hidx) as (H & Hfit & Hin).
  by exists H, best.
Qed.

(** X8.  The set returned is at least as large as the inlier set of every
    sample drawn. *)
Theorem get_inliers_returns_a_largest_set (choice : nat -> list nat)
    (src_points target_points : list pyobj) (d : Qc) (s N : nat)
    (T : option Z) (inlier_src inlier_tgt : list point) :
  Forall (fun p => is_ndarray p = false) src_points ->
  Forall (fun p => is_ndarray p = false) target_points ->
  get_inliers choice src_points target_points d s N T =
    Some (inlier_src, inlier_tgt) ->
  length inlier_src = length inlier_tgt /\
  forall k, k < N ->
    exists inl,
      _get_inlier_indices (value <$> src_points) (value <$> target_points)
        d (choice k) = Some inl /\
      length inl <= length inlier_src.
Proof.
  intros Hs Ht Hrun.
  destruct (get_inliers_tuples _ _ _ _ _ _ _ _ Hs Ht Hrun) as [Hlen Hran].
  destruct (ransac_spec _ _ _ _ _ _ _ _ Hran)
    as (best & idx & Hidx & His & Hit & Hmax).
  apply take_indices_length in His, Hit.
  split; [congruence|].
  intros k Hk. destruct (Hmax k Hk) as (inl & Hinl & Hle).
  exists inl. split; [done|]. lia.
Qed.

Lemma get_inliers_returns_an_inlier_set_witness :
  exists H best,
    fitted_to [pt 0 0; pt 10 0; pt 10 10; pt 0 10]
              [pt 0 0; pt 20 0; pt 20 20; pt 0 20] H /\
    inliers_of H 1%Qc [pt 0 0; pt 10 0; pt 10 10; pt 0 10]
               [pt 0 0; pt 20 0; pt 20 20; pt 0 20] best /\
    take_indices [pt 0 0; pt 10 0; pt 10 10; pt 0 10] best =
      Some [pt 0 0; pt 10 0; pt 10 10; pt 0 10] /\
    take_indices [pt 0 0; pt 20 0; pt 20 20; pt 0 20] best =
      Some [pt 0 0; pt 20 0; pt 20 20; pt 0 20].
Proof.
  apply (get_inliers_returns_an_inlier_set (fun _ => [0; 1; 2; 3])
           [tp 0 0; tp 10 0; tp 10 10; tp 0 10]
           [tp 0 0; tp 20 0; tp 20 20; tp 0 20] 1%Qc 4 1 None).
  - repeat constructor.
  - repeat constructor.
  - by_evaluation.
Defined.

Lemma get_inliers_returns_a_largest_set_witness :
  length [pt 0 0; pt 10 0; pt 10 10; pt 0 10] =
  length [pt 0 0; pt 20 0; pt 20 20; pt 0 20] /\
  forall k, k < 1 ->
    exists inl,
      _get_inlier_indices [pt 0 0; pt 10 0; pt 10 10; pt 0 10]
        [pt 0 0; pt 20 0; pt 20 20; pt 0 20] 1%Qc [0; 1; 2; 3] = Some inl /\
      length inl <= 4.
Proof.
  apply (get_inliers_returns_a_largest_set (fun _ => [0; 1; 2; 3])
           [tp 0 0; tp 10 0; tp 10 10; tp 0 10]
           [tp 0 0; tp 20 0; tp 20 20; tp 0 20] 1%Qc 4 1 None).
  - repeat constructor.
  - repeat constructor.
  - by_evaluation.
Defined.

Lemma keep_non_ndarray_length (l : list pyobj) (kept : list point) :
  keep_non_ndarray l = Some kept -> 1 <= length kept <= length l.
Proof.
  unfold keep_non_ndarray.
  pose proof (length_filter (fun p => is_ndarray p = false) l) as Hle.
  destruct (filter _ l) as [|p k]; [done|]. intros [= <-].
  simpl in *. rewrite ?length_fmap. lia.
Qed.

(** X9.  [get_inliers] raises when no round is run ([np.argmax] of an empty
    history), when the two lists differ in length (the assertion), when
    the list of points is empty ([np.concatenate] of no array) and when
    there are fewer points than the sample size ([np.random.choice]
    without replacement). *)
Theorem get_inliers_raises (choice : nat -> list nat)
    (src_points target_points : list pyobj) (d : Qc) (s N : nat)
    (T : option Z) :
  N = 0 \/ length src_points <> length target_points \/
  src_points = [] \/ length src_points < s ->
  get_inliers choice src_points target_points d s N T = None.
Proof.
  intros Hcase. unfold get_inliers. case_decide as Hlen; [|done].
  destruct (keep_non_ndarray src_points) as [src|] eqn:Hsrc; simpl; [|done].
  destruct (keep_non_ndarray target_points) as [tgt|]; simpl; [|done].
  apply keep_non_ndarray_length in Hsrc.
  unfold ransac.
  destruct N as [|N]; [done|].
  destruct Hcase as [?|[?|[->|Hs]]]; [done|done|simpl in Hsrc; lia|].
  simpl. unfold ransac_round. by rewrite decide_True by lia.
Qed.

Lemma get_inliers_raises_witness :
  get_inliers (fun _ => [0; 1; 2; 3]) [tp 0 0; tp 10 0; tp 10 10; tp 0 10]
    [tp 0 0; tp 20 0; tp 20 20; tp 0 20] 1%Qc 4 0 None = None /\
  get_inliers (fun _ => [0; 1; 2; 3]) [tp 0 0; tp 10 0; tp 10 10]
    [tp 0 0; tp 20 0; tp 20 20] 1%Qc 4 2000 None = None.
Proof.
  split.
  - apply (get_inliers_raises (fun _ => [0; 1; 2; 3])
             [tp 0 0; tp 10 0; tp 10 10; tp 0 10]
             [tp 0 0; tp 20 0; tp 20 20; tp 0 20] 1%Qc 4 0 None).
    left. reflexivity.
  - apply (get_inliers_raises (fun _ => [0; 1; 2; 3])
             [tp 0 0; tp 10 0; tp 10 10]
             [tp 0 0; tp 20 0; tp 20 20] 1%Qc 4 2000 None).
    do 3 right. simpl. lia.
Defined.

(** ** The grid of [transform_grid] *)

Lemma bind_lookup_chunk {A B : Type} (f : A -> list B) (l : list A) (n i j : nat)
    (x : A) :
  (forall y, length (f y) = n) -> l !! i = Some x -> j < n ->
  (l ≫= f) !! (i * n + j) = f x !! j.
Proof.
  intros Hn. revert i; induction l as [|y l IH]; intros i Hi Hj; [done|].
  rewrite bind_cons. destruct i as [|i]; simpl in Hi.
  - injection Hi as ->. simpl. rewrite lookup_app_l; [done|]. by rewrite Hn.
  - rewrite lookup_app_r by (rewrite Hn; lia). rewrite Hn.
    replace (S i * n + j - n) with (i * n + j) by lia. by apply IH.
Qed.

Lemma bind_length_chunk {A B : Type} (f : A -> list B) (l : list A) (n : nat) :
  (forall y, length (f y) = n) -> length (l ≫= f) = length l * n.
Proof.
  intros Hn. induction l as [|y l IH]; [done|].
  rewrite bind_cons, length_app, IH, Hn. simpl. lia.
Qed.

Lemma grid_points_length (us vs : list Z) :
  length (grid_points us vs) = length vs * length us.
Proof.
  unfold grid_points. apply bind_length_chunk. intros v.
  by rewrite length_fmap.
Qed.

Lemma grid_points_lookup (us vs : list Z) (i j : nat) (u v : Z) :
  vs !! i = Some v -> us !! j = Some u ->
  grid_points us vs !! (i * length us + j) = Some (u, v).
Proof.
  intros Hv Hu. unfold grid_points.
  rewrite (bind_lookup_chunk _ vs (length us) i j v); [| |done|].
  - by rewrite list_lookup_fmap, Hu.
  - intros y. by rewrite length_fmap.
  - by eapply lookup_lt_Some.
Qed.

(** X10.  The grid of [transform_grid] has one point per pair of a [v] and a
    [u], row by row: the point at index [i * len(u_range) + j] is
    [(u_range[j], v_range[i])], and the second array holds its image
    under [H] at the same index. *)
Theorem transform_grid_layout (u_range v_range : list Z) (H : mat3) :
  length (transform_grid u_range v_range H).1 =
    length v_range * length u_range /\
  length (transform_grid u_range v_range H).2 =
    length (transform_grid u_range v_range H).1 /\
  forall i j u v, v_range !! i = Some v -> u_range !! j = Some u ->
    (transform_grid u_range v_range H).1 !! (i * length u_range + j) =
      Some (u, v) /\
    (transform_grid u_range v_range H).2 !! (i * length u_range + j) =
      Some (transform_point H (of_Z u, of_Z v)).
Proof.
  unfold transform_grid, transform_points. cbn [fst snd]. split_and!.
  - apply grid_points_length.
  - by rewrite !length_fmap.
  - intros i j u v Hv Hu. split; [by apply grid_points_lookup|].
    rewrite <- list_fmap_compose, list_lookup_fmap.
    by rewrite (grid_points_lookup _ _ _ _ u v).
Qed.

(** ** The pixels [fill_channel] writes *)

Lemma set_pixel_spec (t t' : image) (i j : Z) (ch : nat) (x : fval) :
  (0 <= i)%Z -> (0 <= j)%Z ->
  set_pixel t i j ch x = Some t' ->
  pixel t' (Z.to_nat i) (Z.to_nat j) ch = Some x /\
  forall r c k, (r, c, k) <> (Z.to_nat i, Z.to_nat j, ch) ->
    pixel t' r c k = pixel t r c k.
Proof.
  intros Hi Hj. unfold set_pixel, py_index.
  destruct (decide (0 <= i < Z.of_nat (length t))%Z) as [Hi'|Hi'];
    [|rewrite decide_False by lia; done].
  cbn [mbind option_bind].
  destruct (t !! Z.to_nat i) as [row|] eqn:Hrow; cbn [mbind option_bind];
    [|done].
  destruct (decide (0 <= j < Z.of_nat (length row))%Z) as [Hj'|Hj'];
    [|rewrite decide_False by lia; done].
  cbn [mbind option_bind].
  destruct (row !! Z.to_nat j) as [px|] eqn:Hpx; cbn [mbind option_bind];
    [|done].
  case_decide as Hch; [|done]. intros [= <-]. unfold pixel. split.
  - rewrite list_lookup_insert_eq by lia. cbn [mbind option_bind].
    rewrite list_lookup_insert_eq by lia. cbn [mbind option_bind].
    by rewrite list_lookup_insert_eq.
  - intros r c k Hne.
    destruct (decide (r = Z.to_nat i)) as [->|Hr];
      [|by rewrite list_lookup_insert_ne].
    rewrite list_lookup_insert_eq by lia. rewrite Hrow.
    cbn [mbind option_bind].
    destruct (decide (c = Z.to_nat j)) as [->|Hc];
      [|by rewrite list_lookup_insert_ne].
    rewrite list_lookup_insert_eq by lia. rewrite Hpx.
    cbn [mbind option_bind].
    rewrite list_lookup_insert_ne; [done|]. by intros <-.
Qed.

Section WarpContent.

Variable RectBivariateSpline :
  list Z -> list Z -> list (list fval) -> option (fval -> fval -> fval).

Variables (I_cont : fval -> fval -> fval) (min_u min_v : Z) (ch : nat).

(** Where each grid point is read in the source image. *)
Variable back : Z * Z -> point.

Lemma fill_batch_keeps (batch : list ((Z * Z) * point)) (t t' : image)
    (p : Z * Z) :
  Forall (entry_ok min_u min_v back) batch -> (min_u <= p.1)%Z -> (min_v <= p.2)%Z ->
  fill_batch I_cont min_u min_v ch batch t = Some t' ->
  written I_cont min_u min_v ch back t p -> written I_cont min_u min_v ch back t' p.
Proof.
  intros Hok Hu Hv. revert t.
  induction Hok as [|[[u v] [mu mv]] batch (Hb & Hu0 & Hv0) _ IH];
    intros t; cbn [fill_batch]; [by intros [= <-]|].
  cbn [fst snd] in *.
  destruct (set_pixel t _ _ _ _) as [t1|] eqn:Hset; cbn [mbind option_bind];
    [|done].
  intros Hfill Hw. apply (IH t1 Hfill).
  destruct (set_pixel_spec t t1 (v - min_v) (u - min_u) ch _
              ltac:(lia) ltac:(lia) Hset)
    as [Hnew Hold].
  unfold written in *. destruct p as [pu pv]; cbn [fst snd] in *.
  destruct (decide ((pu, pv) = (u, v))) as [[= -> ->]|Hne].
  - rewrite Hnew. by rewrite <- Hb.
  - rewrite Hold; [done|]. intros [= Hr Hc]. apply Hne. f_equal; lia.
Qed.

Lemma fill_batch_writes (batch : list ((Z * Z) * point)) (t t' : image)
    (e : (Z * Z) * point) :
  Forall (entry_ok min_u min_v back) batch ->
  fill_batch I_cont min_u min_v ch batch t = Some t' ->
  e ∈ batch -> written I_cont min_u min_v ch back t' e.1.
Proof.
  intros Hok. revert t.
  induction Hok as [|[[u v] [mu mv]] batch (Hb & Hu0 & Hv0) Hrest IH];
    intros t; cbn [fill_batch]; [by intros _ ?%elem_of_nil|].
  cbn [fst snd] in *.
  destruct (set_pixel t _ _ _ _) as [t1|] eqn:Hset; cbn [mbind option_bind];
    [|done].
  intros Hfill [->|Hin]%elem_of_cons; [|by apply (IH t1)].
  apply (fill_batch_keeps batch t1 t' (u, v) Hrest Hu0 Hv0 Hfill).
  destruct (set_pixel_spec t t1 (v - min_v) (u - min_u) ch _
              ltac:(lia) ltac:(lia) Hset)
    as [Hnew _].
  unfold written; cbn [fst snd]. rewrite Hnew. by rewrite <- Hb.
Qed.

Lemma fill_batch_other_channel (batch : list ((Z * Z) * point))
    (t t' : image) (r c k : nat) :
  Forall (entry_ok min_u min_v back) batch -> k <> ch ->
  fill_batch I_cont min_u min_v ch batch t = Some t' ->
  pixel t' r c k = pixel t r c k.
Proof.
  intros Hok Hk. revert t.
  induction Hok as [|[[u v] [mu mv]] batch (Hb & Hu0 & Hv0) _ IH];
    intros t; cbn [fill_batch]; [by intros [= <-]|].
  cbn [fst snd] in *.
  destruct (set_pixel t _ _ _ _) as [t1|] eqn:Hset; cbn [mbind option_bind];
    [|done].
  intros Hfill. rewrite (IH t1 Hfill).
  destruct (set_pixel_spec t t1 (v - min_v) (u - min_u) ch _
              ltac:(lia) ltac:(lia) Hset)
    as [_ Hold].
  apply Hold. by intros [= _ _ ?].
Qed.

Lemma fill_batch_app (l1 l2 : list ((Z * Z) * point)) (t : image) :
  fill_batch I_cont min_u min_v ch (l1 ++ l2) t =
  fill_batch I_cont min_u min_v ch l1 t ≫=
    fill_batch I_cont min_u min_v ch l2.
Proof.
  revert t; induction l1 as [|[[u v] [mu mv]] l1 IH]; intros t; [done|].
  cbn [app fill_batch].
  destruct (set_pixel t _ _ _ _) as [t1|]; cbn [mbind option_bind]; [|done].
  apply IH.
Qed.

(** The batches of the loop are consecutive slices: together they are
    one pass over the first [n * batch_size] pixels after the start. *)
Lemma fill_batches_one_pass (batch_size : nat)
    (pixels : list ((Z * Z) * point)) (n i : nat) (t : image) :
  fill_batches I_cont min_u min_v ch batch_size pixels n i t =
  fill_batch I_cont min_u min_v ch
    (take (n * batch_size) (drop (i * batch_size) pixels)) t.
Proof.
  revert i t; induction n as [|n IH]; intros i t; [done|].
  cbn [fill_batches].
  replace (S n * batch_size) with (batch_size + n * batch_size) by lia.
  rewrite <- take_take_drop, fill_batch_app.
  destruct (fill_batch _ _ _ _ (take batch_size _) t) as [t1|];
    cbn [mbind option_bind]; [|done].
  rewrite IH, drop_drop. do 3 f_equal. lia.
Qed.

End WarpContent.

Lemma zip_fmap_graph {A B : Type} (g : A -> B) (l : list A) :
  zip l (g <$> l) = (fun x => (x, g x)) <$> l.
Proof. induction l as [|x l IH]; [done|]. cbn [fmap list_fmap zip zip_with]. f_equal. exact IH. Qed.

Section WarpPixels.

Variable RectBivariateSpline :
  list Z -> list Z -> list (list fval) -> option (fval -> fval -> fval).

(** One call of [fill_channel] on the output grid: the pixels of the
    grid get the values of the spline of that channel, the other
    channels keep theirs. *)
Lemma fill_channel_spec (im : image) (H_inv : mat3)
    (min_u max_u min_v max_v : Z) (I_cont : fval -> fval -> fval)
    (t t' : image) (ch : nat) :
  let back := fun p : Z * Z => transform_point H_inv (to_float p) in
  let grid := grid_points (arange min_u max_u) (arange min_v max_v) in
  RectBivariateSpline (arange 0 (Z.of_nat (shape0 im)))
    (arange 0 (Z.of_nat (shape1 im))) (channel_of im ch) = Some I_cont ->
  fill_channel RectBivariateSpline im (arange 0 (Z.of_nat (shape1 im)))
    (arange 0 (Z.of_nat (shape0 im))) min_u min_v grid
    (transform_points (to_float <$> grid) H_inv) t ch 64 = Some t' ->
  (forall p, p ∈ grid -> written I_cont min_u min_v ch back t' p) /\
  (forall r c k, k <> ch -> pixel t' r c k = pixel t r c k).
Proof.
  intros back grid Hspline. unfold fill_channel.
  rewrite Hspline. cbn [mbind option_bind].
  rewrite fill_batches_one_pass. change (0 * 64) with 0. rewrite drop_0.
  assert (transform_points (to_float <$> grid) H_inv = back <$> grid) as ->.
  { unfold transform_points. by rewrite <- list_fmap_compose. }
  rewrite zip_fmap_graph, take_ge.
  2:{ rewrite !length_fmap.
      pose proof (Nat.div_mod_eq (length grid) 64).
      pose proof (Nat.mod_upper_bound (length grid) 64). lia. }
  intros Hfill.
  assert (Forall (entry_ok min_u min_v back)
            ((fun x => (x, back x)) <$> grid)) as Hok.
  { apply Forall_fmap, Forall_forall. intros [u v] Hin.
    apply elem_of_grid_points in Hin as [Hu%elem_of_arange Hv%elem_of_arange].
    unfold entry_ok; simpl. split_and!; [done|lia..]. }
  split.
  - intros p Hp.
    apply (fill_batch_writes I_cont min_u min_v ch back _ t t' (p, back p)
             Hok Hfill).
    apply list_elem_of_fmap. by exists p.
  - intros r c k Hk.
    by apply (fill_batch_other_channel I_cont min_u min_v ch back _ t t' r c k
                Hok).
Qed.

(** X11.  Every pixel of the output of [warp_image] holds, in each channel,
    the value of the spline of that channel of the source at the point
    the normalised inverse homography sends the pixel to; the batches of
    64 leave no pixel out. *)
Theorem warp_image_pixels (im : image) (H H_inv : mat3)
    (min_u max_u min_v max_v : Z) (I_cont : nat -> fval -> fval -> fval) :
  np_linalg_inv H = Some H_inv ->
  warp_bounds im H = Some (min_u, max_u, min_v, max_v) ->
  (min_u <= max_u)%Z -> (min_v <= max_v)%Z ->
  (forall c, c < 3 ->
     RectBivariateSpline (arange 0 (Z.of_nat (shape0 im)))
       (arange 0 (Z.of_nat (shape1 im))) (channel_of im c) =
     Some (I_cont c)) ->
  exists out,
    warp_image RectBivariateSpline im H = Some (out, min_u, min_v) /\
    forall u v c, (min_u <= u < max_u)%Z -> (min_v <= v < max_v)%Z -> c < 3 ->
      pixel out (Z.to_nat (v - min_v)) (Z.to_nat (u - min_u)) c =
      Some (I_cont c
              (transform_point (mat3_div H_inv (m22 H_inv)) (of_Z u, of_Z v)).2
              (transform_point (mat3_div H_inv (m22 H_inv)) (of_Z u, of_Z v)).1).
Proof.
  intros Hinv Hb Hu Hv Hspline.
  destruct (warp_image_shape RectBivariateSpline im H H_inv
              min_u max_u min_v max_v Hinv Hb Hu Hv) as (out & Hout & _).
  { intros c Hc. rewrite Hspline by done. by eexists. }
  exists out. split; [done|].
  unfold warp_image in Hout. rewrite Hinv, Hb in Hout.
  cbn [mbind option_bind] in Hout.
  destruct (np_zeros3 _ _) as [t0|]; cbn [mbind option_bind] in Hout; [|done].
  unfold transform_grid in Hout.
  destruct (fill_channel _ _ _ _ _ _ _ _ t0 0 64) as [t1|] eqn:H0;
    cbn [mbind option_bind] in Hout; [|done].
  destruct (fill_channel _ _ _ _ _ _ _ _ t1 1 64) as [t2|] eqn:H1;
    cbn [mbind option_bind] in Hout; [|done].
  destruct (fill_channel _ _ _ _ _ _ _ _ t2 2 64) as [t3|] eqn:H2;
    cbn [mbind option_bind] in Hout; [|done].
  injection Hout as <-.
  apply fill_channel_spec with (I_cont := I_cont 0) in H0 as [W0 _];
    [|apply Hspline; lia].
  apply fill_channel_spec with (I_cont := I_cont 1) in H1 as [W1 K1];
    [|apply Hspline; lia].
  apply fill_channel_spec with (I_cont := I_cont 2) in H2 as [W2 K2];
    [|apply Hspline; lia].
  intros u v c Hu' Hv' Hc.
  assert ((u, v) ∈ grid_points (arange min_u max_u) (arange min_v max_v))
    as Hin by (by rewrite elem_of_grid_points, !elem_of_arange).
  specialize (W0 _ Hin). specialize (W1 _ Hin). specialize (W2 _ Hin).
  unfold written in W0, W1, W2. cbn [fst snd] in W0, W1, W2.
  destruct c as [|[|[|c]]]; [| | |lia].
  - rewrite K2, K1 by lia. exact W0.
  - rewrite K2 by lia. exact W1.
  - exact W2.
Qed.

End WarpPixels.

Lemma warp_image_pixels_witness :
  exists out,
    warp_image node_value image_5x5 eye3 = Some (out, 0%Z, 0%Z) /\
    pixel out 2 3 0 = Some (of_Z 23) /\
    pixel out 2 3 1 = Some (of_Z 2) /\
    pixel out 2 3 2 = Some (of_Z 3).
Proof.
  destruct (warp_image_pixels node_value image_5x5 eye3 eye3 0 4 0 4
              node_value_5x5) as (out & Hout & Hpx).
  - by_evaluation.
  - by_evaluation.
  - lia.
  - lia.
  - intros [|[|[|c]]] Hc; [reflexivity..|lia].
  - exists out. split; [exact Hout|].
    split_and!.
    + change 2 with (Z.to_nat (2 - 0)) at 1.
      change 3 with (Z.to_nat (3 - 0)) at 1.
      rewrite (Hpx 3%Z 2%Z 0) by lia. by_evaluation.
    + change 2 with (Z.to_nat (2 - 0)) at 1.
      change 3 with (Z.to_nat (3 - 0)) at 1.
      rewrite (Hpx 3%Z 2%Z 1) by lia. by_evaluation.
    + change 2 with (Z.to_nat (2 - 0)) at 1.
      change 3 with (Z.to_nat (3 - 0)) at 1.
      rewrite (Hpx 3%Z 2%Z 2) by lia. by_evaluation.
Defined.

(** ** The identity warp, and the failures of [warp_image] *)

Lemma mat3_div_eye3 : mat3_div eye3 (m22 eye3) = eye3.
Proof. by_evaluation. Qed.

(** X12.  With the identity, and a spline that takes the values of the image
    at the pixel centres (an interpolating spline), [warp_image] returns
    the image without its last row and column: every pixel it keeps is
    unchanged. *)
Theorem identity_warp_keeps_pixels
    (RectBivariateSpline :
       list Z -> list Z -> list (list fval) -> option (fval -> fval -> fval))
    (im : image) (I_cont : nat -> fval -> fval -> fval) :
  1 <= shape0 im -> 1 <= shape1 im ->
  (forall c, c < 3 ->
     RectBivariateSpline (arange 0 (Z.of_nat (shape0 im)))
       (arange 0 (Z.of_nat (shape1 im))) (channel_of im c) =
     Some (I_cont c)) ->
  (forall v u c, v < shape0 im -> u < shape1 im -> c < 3 ->
     Some (I_cont c (of_Z (Z.of_nat v)) (of_Z (Z.of_nat u))) = pixel im v u c) ->
  exists out,
    warp_image RectBivariateSpline im eye3 = Some (out, 0%Z, 0%Z) /\
    forall v u c, v < shape0 im - 1 -> u < shape1 im - 1 -> c < 3 ->
      pixel out v u c = pixel im v u c.
Proof.
  intros Hh Hw Hspline Hnodes.
  destruct (warp_image_pixels RectBivariateSpline im eye3 eye3
              0 (Z.of_nat (shape1 im) - 1) 0 (Z.of_nat (shape0 im) - 1)
              I_cont) as (out & Hout & Hpx).
  - apply np_linalg_inv_identity.
  - by apply warp_bounds_identity.
  - lia.
  - lia.
  - done.
  - exists out. split; [done|]. intros v u c Hv Hu Hc.
    specialize (Hpx (Z.of_nat u) (Z.of_nat v) c ltac:(lia) ltac:(lia) Hc).
    rewrite mat3_div_eye3 in Hpx.
    change (of_Z (Z.of_nat u), of_Z (Z.of_nat v))
      with (to_float (Z.of_nat u, Z.of_nat v)) in Hpx.
    rewrite transform_point_identity in Hpx. cbn [to_float fst snd] in Hpx.
    rewrite !Z.sub_0_r, !Nat2Z.id in Hpx. rewrite Hpx.
    apply Hnodes; lia.
Qed.

Lemma identity_warp_keeps_pixels_witness :
  exists out,
    warp_image node_value image_5x5 eye3 = Some (out, 0%Z, 0%Z) /\
    forall v u c, v < 4 -> u < 4 -> c < 3 ->
      pixel out v u c = pixel image_5x5 v u c.
Proof.
  apply (identity_warp_keeps_pixels node_value image_5x5 node_value_5x5).
  - vm_compute. lia.
  - vm_compute. lia.
  - intros [|[|[|c]]] Hc; [reflexivity..|lia].
  - intros v u c Hv Hu Hc.
    change (shape0 image_5x5) with 5 in Hv.
    change (shape1 image_5x5) with 5 in Hu.
    destruct c as [|[|[|c]]]; [| | |lia];
      (destruct v as [|[|[|[|[|v]]]]]; [| | | | |lia]);
      (destruct u as [|[|[|[|[|u]]]]]; [| | | | |lia]); by_evaluation.
Defined.

(** ** Failures of [warp_image] *)










(** ** [automatic_intrest_points_detector] *)

Lemma insert_match_perm (m : DMatch) (l : list DMatch) :
  insert_match m l ≡ₚ m :: l.
Proof.
  induction l as [|x l IH]; simpl; [done|].
  case_decide; [done|]. rewrite IH. apply Permutation_swap.
Qed.

Lemma sorted_perm (l : list DMatch) : sorted l ≡ₚ l.
Proof.
  induction l as [|m l IH]; simpl; [done|].
  unfold sorted in *. simpl. by rewrite insert_match_perm, IH.
Qed.

Lemma insert_match_sorted (m : DMatch) (l : list DMatch) :
  StronglySorted by_distance l -> StronglySorted by_distance (insert_match m l).
Proof.
  induction 1 as [|x l Hl IH Hx]; simpl.
  - repeat constructor.
  - case_decide as Hle.
    + constructor; [by constructor|].
      constructor; [done|].
      eapply Forall_impl; [exact Hx|]. intros y Hy. unfold by_distance in *.
      by etrans.
    + constructor; [done|].
      rewrite insert_match_perm. constructor; [|done].
      unfold by_distance. apply Qclt_le_weak. by apply Qcnot_le_lt.
Qed.

Lemma sorted_sorted (l : list DMatch) : StronglySorted by_distance (sorted l).
Proof.
  induction l as [|m l IH]; [constructor|].
  by apply insert_match_sorted.
Qed.

Lemma mapM_lookup {A B : Type} (f : A -> option B) (l : list A) (k : list B)
    (i : nat) (x : A) :
  mapM f l = Some k -> l !! i = Some x -> f x = k !! i.
Proof.
  rewrite mapM_Some. intros HF Hx.
  destruct (Forall2_lookup_l _ _ _ _ _ HF Hx) as (y & -> & Hy). done.
Qed.

Section DetectorFacts.

Variable Descriptors : Type.
Variable detectAndCompute : image -> option (list point * Descriptors).
Variable bf_match : Descriptors -> Descriptors -> option (list DMatch).

(** X14.  What the detector returns are the [N] best matches (all of them
    when there are fewer), best first, as corresponding pairs: the two
    lists have the same length, and position [i] of each holds the key
    point of the match of rank [i] in its image. *)
Theorem detector_returns_the_best_matches (image1 image2 : image) (N : nat)
    (list_kps1 list_kps2 : list point) :
  automatic_intrest_points_detector Descriptors detectAndCompute bf_match
    image1 image2 N = Some (list_kps1, list_kps2) ->
  exists kps1 descs1 kps2 descs2 matches ranked,
    detectAndCompute image1 = Some (kps1, descs1) /\
    detectAndCompute image2 = Some (kps2, descs2) /\
    bf_match descs1 descs2 = Some matches /\
    ranked ≡ₚ matches /\
    StronglySorted by_distance ranked /\
    length list_kps1 = N `min` length matches /\
    length list_kps2 = length list_kps1 /\
    forall i m, i < N -> ranked !! i = Some m ->
      list_kps1 !! i = kps1 !! queryIdx m /\
      list_kps2 !! i = kps2 !! trainIdx m.
Proof.
  unfold automatic_intrest_points_detector.
  destruct (detectAndCompute image1) as [[kps1 descs1]|] eqn:Hd1;
    cbn [mbind option_bind]; [|done].
  destruct (detectAndCompute image2) as [[kps2 descs2]|] eqn:Hd2;
    cbn [mbind option_bind]; [|done].
  destruct (bf_match descs1 descs2) as [matches|] eqn:Hbf;
    cbn [mbind option_bind]; [|done].
  destruct (mapM (fun mat => kps1 !! queryIdx mat) _) as [l1|] eqn:H1;
    cbn [mbind option_bind]; [|done].
  destruct (mapM (fun mat => kps2 !! trainIdx mat) _) as [l2|] eqn:H2;
    cbn [mbind option_bind]; [|done].
  intros [= <- <-].
  exists kps1, descs1, kps2, descs2, matches, (sorted matches).
  pose proof (length_mapM _ _ _ H1) as Hl1.
  pose proof (length_mapM _ _ _ H2) as Hl2.
  rewrite length_take in Hl1, Hl2.
  pose proof (Permutation_length (sorted_perm matches)) as Hlen.
  do 3 (split; [done|]).
  split; [apply sorted_perm|]. split; [apply sorted_sorted|].
  split; [lia|]. split; [lia|].
  intros i m Hi Hm.
  assert (take N (sorted matches) !! i = Some m) as Hm'
    by (by rewrite lookup_take_lt).
  split; symmetry.
  - apply (mapM_lookup _ _ _ _ _ H1 Hm').
  - apply (mapM_lookup _ _ _ _ _ H2 Hm').
Qed.

End DetectorFacts.

Lemma detector_returns_the_best_matches_witness :
  exists kps1 descs1 kps2 descs2 matches ranked,
    Some ([pt 0 0; pt 1 1; pt 2 2], tt) = Some (kps1, descs1) /\
    Some ([pt 0 0; pt 1 1; pt 2 2], tt) = Some (kps2, descs2) /\
    Some [dmatch 0 1 5; dmatch 1 0 2;
          dmatch 2 2 3] = Some matches /\
    ranked ≡ₚ matches /\
    StronglySorted by_distance ranked /\
    length [pt 1 1; pt 2 2] = 2 `min` length matches /\
    length [pt 0 0; pt 2 2] = length [pt 1 1; pt 2 2] /\
    forall i m, i < 2 -> ranked !! i = Some m ->
      [pt 1 1; pt 2 2] !! i = kps1 !! queryIdx m /\
      [pt 0 0; pt 2 2] !! i = kps2 !! trainIdx m.
Proof.
  apply (detector_returns_the_best_matches unit
           (fun _ => Some ([pt 0 0; pt 1 1; pt 2 2], tt))
           (fun _ _ => Some [dmatch 0 1 5; dmatch 1 0 2;
                             dmatch 2 2 3])
           image_2x2 image_2x2 2).
  by_evaluation.
Defined.

(** ** The name of an image *)

Lemma str_split_nonempty (sep : ascii) (s : string) : str_split sep s <> [].
Proof.
  destruct s as [|c s]; simpl; [done|].
  destruct (decide (c = sep)); [done|]. by destruct (str_split sep s).
Qed.

Lemma str_split_no_sep (sep : ascii) (s : string) :
  occurs sep s = false -> str_split sep s = [s].
Proof.
  induction s as [|c s IH]; simpl; [done|].
  intros [Hc Hs]%orb_false_elim. apply bool_decide_eq_false in Hc.
  destruct (decide (c = sep)) as [?|_]; [done|]. by rewrite IH.
Qed.

(** [(s1 + sep + s2).split(sep) == s1.split(sep) + s2.split(sep)]. *)
Lemma str_split_app (sep : ascii) (s1 s2 : string) :
  str_split sep (s1 +:+ String sep s2) = str_split sep s1 ++ str_split sep s2.
Proof.
  induction s1 as [|c s1 IH]; simpl.
  - by destruct (decide (sep = sep)).
  - destruct (decide (c = sep)); [by rewrite IH|].
    rewrite IH. pose proof (str_split_nonempty sep s1).
    by destruct (str_split sep s1).
Qed.

Lemma str_split_pieces (sep c : ascii) (s : string) :
  (c = sep \/ occurs c s = false) ->
  Forall (fun p => occurs c p = false) (str_split sep s).
Proof.
  induction s as [|c' s IH]; simpl; intros Hc.
  - by repeat constructor.
  - destruct (decide (c' = sep)) as [->|Hsep].
    + constructor; [done|]. apply IH.
      destruct Hc as [?|[_ ?]%orb_false_elim]; auto.
    + assert (bool_decide (c' = c) = false /\ (c = sep \/ occurs c s = false))
        as [Hc' Hs].
      { destruct Hc as [->|[? ?]%orb_false_elim]; [|by auto].
        split; [|by left]. by apply bool_decide_eq_false. }
      specialize (IH Hs).
      destruct (str_split sep s) as [|p rest].
      * repeat constructor. simpl. by rewrite Hc'.
      * apply Forall_cons in IH as [Hp Hrest].
        constructor; [|done]. simpl. by rewrite Hc', Hp.
Qed.

(** X15.  The name [stitch_2_images] derives from a path never holds a [/] or
    a [.]. *)
Theorem image_name_has_no_separator (path : string) :
  exists name,
    image_name path = Some name /\
    occurs "/" name = false /\ occurs "." name = false.
Proof.
  unfold image_name.
  pose proof (str_split_nonempty "/" path) as Hne.
  pose proof (str_split_pieces "/" "/" path (or_introl eq_refl)) as Hall.
  destruct (last (str_split "/" path)) as [file|] eqn:Hlast.
  2:{ exfalso. apply Hne. by apply last_None. }
  cbn [mbind option_bind].
  assert (occurs "/" file = false) as Hfile.
  { apply last_Some in Hlast as [l' Hl]. rewrite Hl in Hall.
    apply Forall_app in Hall as [_ Hall].
    exact (proj1 (Forall_singleton _ _) Hall). }
  pose proof (str_split_nonempty "." file) as Hne2.
  pose proof (str_split_pieces "." "/" file (or_intror Hfile)) as Hs.
  pose proof (str_split_pieces "." "." file (or_introl eq_refl)) as Hd.
  destruct (str_split "." file) as [|name rest]; [done|].
  exists name. apply Forall_cons in Hs as [Hs _].
  apply Forall_cons in Hd as [Hd _]. done.
Qed.

Lemma occurs_app (c : ascii) (s1 s2 : string) :
  occurs c (s1 +:+ s2) = occurs c s1 || occurs c s2.
Proof.
  induction s1 as [|c' s1 IH]; simpl; [done|].
  by rewrite IH, orb_assoc.
Qed.

(** X16.  For a path [dir/base.ext], and for [base.ext] without a directory,
    the name is [base]: the extension and the directories are dropped. *)
Theorem image_name_of_path (dir base ext : string) :
  occurs "/" base = false -> occurs "." base = false ->
  occurs "/" ext = false ->
  image_name (dir +:+ "/" +:+ base +:+ "." +:+ ext) = Some base /\
  image_name (base +:+ "." +:+ ext) = Some base.
Proof.
  intros Hb1 Hb2 He.
  assert (occurs "/" (base +:+ "." +:+ ext) = false) as Hfile.
  { rewrite occurs_app, Hb1. simpl. exact He. }
  assert (head (str_split "." (base +:+ "." +:+ ext)) = Some base) as Hhead.
  { change (base +:+ "." +:+ ext) with (base +:+ String "." ext).
    rewrite str_split_app, str_split_no_sep by done. done. }
  unfold image_name. split.
  - change (dir +:+ "/" +:+ base +:+ "." +:+ ext)
      with (dir +:+ String "/" (base +:+ "." +:+ ext)).
    rewrite str_split_app, (str_split_no_sep "/" (base +:+ "." +:+ ext)) by done.
    rewrite last_snoc. exact Hhead.
  - rewrite str_split_no_sep by done. exact Hhead.
Qed.

Lemma image_name_of_path_witness :
  image_name "photos/2019/mount1.small.png" = Some "mount1"%string /\
  image_name "mount1.small.png" = Some "mount1"%string.
Proof.
  apply (image_name_of_path "photos/2019" "mount1" "small.png");
    reflexivity.
Defined.

(** ** The canvas of [stitch_2_images] *)

Lemma has_shape_shape0 (rows cols : nat) (t : image) :
  has_shape rows cols t -> shape0 t = rows.
Proof. by intros [? _]. Qed.

Lemma has_shape_shape1 (rows cols : nat) (t : image) :
  has_shape rows cols t -> 1 <= rows -> shape1 t = cols.
Proof.
  intros [Hr Hall] Hpos. destruct t as [|row t]; simpl in *; [lia|].
  by apply Forall_cons in Hall as [[? _] _].
Qed.

Lemma has_shape_row (rows cols : nat) (t : image) (r : nat)
    (row : list (list fval)) :
  has_shape rows cols t -> t !! r = Some row ->
  length row = cols /\ Forall (fun px => length px = 3) row.
Proof. intros [_ Hall] Hr. apply (Forall_lookup_1 _ _ _ _ Hall Hr). Qed.

(** One row of the slice assignment. *)
Lemma paste_row_lookup (row xrow : list (list fval)) (c cc : nat) :
  c + length xrow <= length row ->
  (take c row ++ take (length xrow) xrow ++ drop (c + length xrow) row) !! cc =
  if decide (c <= cc < c + length xrow) then xrow !! (cc - c) else row !! cc.
Proof.
  intros Hfit. rewrite firstn_all.
  destruct (decide (cc < c)) as [Hlt|Hge].
  - rewrite lookup_app_l by (rewrite length_take; lia).
    rewrite lookup_take_lt by done. by rewrite decide_False by lia.
  - rewrite lookup_app_r by (rewrite length_take; lia).
    rewrite length_take, Nat.min_l by lia.
    destruct (decide (cc < c + length xrow)) as [Hin|Hout].
    + rewrite lookup_app_l by lia. by rewrite decide_True by lia.
    + rewrite lookup_app_r by lia. rewrite lookup_drop.
      rewrite decide_False by lia. f_equal. lia.
Qed.

Lemma paste_row_length (row xrow : list (list fval)) (c : nat) :
  c + length xrow <= length row ->
  length (take c row ++ take (length xrow) xrow ++ drop (c + length xrow) row)
  = length row.
Proof.
  intros Hfit. rewrite firstn_all, !length_app, length_take, length_drop. lia.
Qed.

(** The slice assignment when the block lies within the array: it
    succeeds, keeps the shape, and changes exactly the pixels of the
    block. *)
Lemma assign_block_spec (R C xh xw a c : nat) (res X : image) :
  has_shape R C res -> has_shape xh xw X -> 1 <= xh ->
  a + xh <= R -> c + xw <= C ->
  exists res',
    assign_block res a c X = Some res' /\
    has_shape R C res' /\
    forall r cc k,
      pixel res' r cc k =
      if decide (a <= r < a + xh /\ c <= cc < c + xw)
      then pixel X (r - a) (cc - c) k else pixel res r cc k.
Proof.
  intros Hres HX Hxh Ha Hc. unfold assign_block.
  rewrite (has_shape_shape0 _ _ _ Hres), (has_shape_shape0 _ _ _ HX).
  rewrite (has_shape_shape1 _ _ _ Hres), (has_shape_shape1 _ _ _ HX)
    by lia.
  replace ((a + xh) `min` R - a `min` R) with xh by lia.
  replace ((c + xw) `min` C - c `min` C) with xw by lia.
  rewrite decide_True by (split; by left).
  eexists; split; [done|].
  destruct Hres as [HlenR HallR]. destruct HX as [HlenX HallX].
  set (f := fun row xrow : list (list fval) =>
              take c row ++ take xw xrow ++ drop (c + xw) row).
  assert (length (zip_with f (take xh (drop a res)) X) = xh) as Hzl.
  { rewrite length_zip_with, length_take, length_drop. lia. }
  assert (forall r, a <= r < a + xh ->
            exists row xrow, res !! r = Some row /\ X !! (r - a) = Some xrow /\
              length row = C /\ length xrow = xw /\
              (take a res ++ zip_with f (take xh (drop a res)) X ++
               drop (a + xh) res) !! r = Some (f row xrow)) as Hmid.
  { intros r Hr.
    destruct (lookup_lt_is_Some_2 res r) as [row Hrow]; [lia|].
    destruct (lookup_lt_is_Some_2 X (r - a)) as [xrow Hxrow]; [lia|].
    exists row, xrow.
    destruct (Forall_lookup_1 _ _ _ _ HallR Hrow) as [Hlr _].
    destruct (Forall_lookup_1 _ _ _ _ HallX Hxrow) as [Hlx _].
    split_and!; [done..|].
    rewrite lookup_app_r by (rewrite length_take; lia).
    rewrite length_take, Nat.min_l by lia.
    rewrite lookup_app_l by lia.
    rewrite lookup_zip_with, lookup_take_lt, lookup_drop by lia.
    replace (a + (r - a)) with r by lia. by rewrite Hrow, Hxrow. }
  assert (forall r, ~ (a <= r < a + xh) ->
            (take a res ++ zip_with f (take xh (drop a res)) X ++
             drop (a + xh) res) !! r = res !! r) as Hout.
  { intros r Hr. destruct (decide (r < a)) as [Hlt|Hge].
    - rewrite lookup_app_l by (rewrite length_take; lia).
      by rewrite lookup_take_lt.
    - rewrite lookup_app_r by (rewrite length_take; lia).
      rewrite length_take, Nat.min_l by lia.
      rewrite lookup_app_r by lia. rewrite lookup_drop, Hzl.
      f_equal. lia. }
  split; [split|].
  - rewrite !length_app, length_take, Hzl, length_drop. lia.
  - apply Forall_lookup. intros r row' Hrow'.
    destruct (decide (a <= r < a + xh)) as [Hr|Hr].
    + destruct (Hmid r Hr) as (row & xrow & Hrow & Hxrow & Hlr & Hlx & Heq).
      rewrite Heq in Hrow'. injection Hrow' as <-. unfold f.
      destruct (Forall_lookup_1 _ _ _ _ HallR Hrow) as [_ Hpr].
      destruct (Forall_lookup_1 _ _ _ _ HallX Hxrow) as [_ Hpx].
      split.
      * rewrite <- Hlx. rewrite paste_row_length; lia.
      * rewrite !Forall_app. split_and!.
        -- by apply Forall_take.
        -- by apply Forall_take.
        -- by apply Forall_drop.
    + rewrite Hout in Hrow' by done.
      apply (Forall_lookup_1 _ _ _ _ HallR Hrow').
  - intros r cc k. unfold pixel.
    destruct (decide (a <= r < a + xh)) as [Hr|Hr].
    + destruct (Hmid r Hr) as (row & xrow & Hrow & Hxrow & Hlr & Hlx & Heq).
      rewrite Heq, Hrow, Hxrow. cbn [mbind option_bind]. unfold f.
      rewrite <- Hlx. rewrite paste_row_lookup by lia.
      destruct (decide (c <= cc < c + length xrow)) as [Hcc|Hcc].
      * by rewrite decide_True by done.
      * by rewrite decide_False by (intros [_ ?]; done).
    + rewrite Hout by done.
      by rewrite decide_False by (intros [? _]; done).
Qed.

(** The slice assignment raises when the block, of two rows and two
    columns or more, does not lie within the array. *)
Lemma assign_block_raises (R C xh xw a c : nat) (res X : image) :
  has_shape R C res -> has_shape xh xw X -> 1 <= R -> 2 <= xh -> 2 <= xw ->
  R < a + xh \/ C < c + xw ->
  assign_block res a c X = None.
Proof.
  intros Hres HX HR Hxh Hxw Hout. unfold assign_block.
  rewrite (has_shape_shape0 _ _ _ Hres), (has_shape_shape0 _ _ _ HX).
  rewrite (has_shape_shape1 _ _ _ Hres), (has_shape_shape1 _ _ _ HX)
    by lia.
  apply decide_False. lia.
Qed.

Lemma np_zeros3_pixels (rows cols : nat) :
  exists t,
    np_zeros3 (Z.of_nat rows) (Z.of_nat cols) = Some t /\
    has_shape rows cols t /\
    forall r c k, r < rows -> c < cols -> k < 3 ->
      pixel t r c k = Some (Fin 0%Qc).
Proof.
  destruct (np_zeros3_shape (Z.of_nat rows) (Z.of_nat cols))
    as (t & Ht & Hshape); [lia..|].
  exists t. rewrite !Nat2Z.id in Hshape. split_and!; [done..|].
  intros r c k Hr Hc Hk. unfold np_zeros3 in Ht.
  rewrite decide_True in Ht by lia. injection Ht as <-.
  rewrite !Nat2Z.id. unfold pixel.
  rewrite (lookup_replicate_2 rows _ r Hr). cbn [mbind option_bind].
  rewrite (lookup_replicate_2 cols _ c Hc). cbn [mbind option_bind].
  by destruct k as [|[|[|k]]]; [..|lia].
Qed.

Lemma crop_spec (R C Rc Cc : nat) (res : image) :
  has_shape R C res ->
  has_shape (R `min` Rc) (C `min` Cc) (take Cc <$> take Rc res) /\
  forall r c k, r < Rc -> c < Cc ->
    pixel (take Cc <$> take Rc res) r c k = pixel res r c k.
Proof.
  intros [HR Hall]. split; [split|].
  - rewrite length_fmap, length_take. lia.
  - apply Forall_fmap, Forall_take.
    eapply Forall_impl; [exact Hall|]. intros row [Hl Hpx]; simpl. split.
    + rewrite length_take. lia.
    + by apply Forall_take.
  - intros r c k Hr Hc. unfold pixel.
    rewrite list_lookup_fmap, lookup_take_lt by done.
    destruct (res !! r) as [row|]; [|done]. cbn [fmap option_fmap option_map mbind option_bind].
    by rewrite lookup_take_lt.
Qed.

(** X20.  Lines 381-395 of [stitch_2_images] when the offsets are within the
    sizes of the two images: the canvas is cropped to
    [max(h1,h2)+200] rows and [max(w1,w2)+700] columns; [image_2] is
    copied unchanged at the offset [(max(-min_v,0), max(-min_u,0))],
    over the warped image where the two overlap; the warped image shows
    at [(max(min_v,0), max(min_u,0))]; every other pixel is black. *)
Theorem canvas_content (image_1 image_2 warpped_image_1 : image)
    (min_u min_v : Z) (h1 w1 h2 w2 wh ww : nat) :
  has_shape h1 w1 image_1 -> has_shape h2 w2 image_2 ->
  has_shape wh ww warpped_image_1 ->
  1 <= h1 -> 1 <= h2 -> 1 <= wh ->
  (min_v <= Z.of_nat h2)%Z -> (min_u <= Z.of_nat w2)%Z ->
  (- min_v <= Z.of_nat wh)%Z -> (- min_u <= Z.of_nat ww)%Z ->
  exists res,
    canvas image_1 image_2 warpped_image_1 min_u min_v = Some res /\
    has_shape ((wh + h2) `min` (h1 `max` h2 + 200))
              ((ww + w2) `min` (w1 `max` w2 + 700)) res /\
    forall r c k,
      r < (wh + h2) `min` (h1 `max` h2 + 200) ->
      c < (ww + w2) `min` (w1 `max` w2 + 700) -> k < 3 ->
      pixel res r c k =
      if decide (Z.to_nat (- min_v) <= r < Z.to_nat (- min_v) + h2 /\
                 Z.to_nat (- min_u) <= c < Z.to_nat (- min_u) + w2)
      then pixel image_2 (r - Z.to_nat (- min_v)) (c - Z.to_nat (- min_u)) k
      else if decide (Z.to_nat min_v <= r < Z.to_nat min_v + wh /\
                      Z.to_nat min_u <= c < Z.to_nat min_u + ww)
      then pixel warpped_image_1 (r - Z.to_nat min_v) (c - Z.to_nat min_u) k
      else Some (Fin 0%Qc).
Proof.
  intros H1 H2 HW Hh1 Hh2 Hwh Hv1 Hu1 Hv2 Hu2. unfold canvas.
  rewrite (has_shape_shape0 _ _ _ H1), (has_shape_shape0 _ _ _ H2),
    (has_shape_shape0 _ _ _ HW).
  rewrite (has_shape_shape1 _ _ _ H1), (has_shape_shape1 _ _ _ H2),
    (has_shape_shape1 _ _ _ HW) by lia.
  destruct (np_zeros3_pixels (wh + h2) (ww + w2)) as (t0 & -> & Ht0 & Hz).
  cbn [mbind option_bind].
  replace (Z.to_nat (if decide (0 < min_v)%Z then min_v else 0%Z))
    with (Z.to_nat min_v) by (case_decide; lia).
  replace (Z.to_nat (if decide (0 < min_u)%Z then min_u else 0%Z))
    with (Z.to_nat min_u) by (case_decide; lia).
  replace (Z.to_nat (if decide (min_v < 0)%Z then (- min_v)%Z else 0%Z))
    with (Z.to_nat (- min_v)) by (case_decide; lia).
  replace (Z.to_nat (if decide (min_u < 0)%Z then (- min_u)%Z else 0%Z))
    with (Z.to_nat (- min_u)) by (case_decide; lia).
  destruct (assign_block_spec (wh + h2) (ww + w2) wh ww
              (Z.to_nat min_v) (Z.to_nat min_u) t0 warpped_image_1)
    as (t1 & -> & Ht1 & Hp1); [done..|lia|lia|].
  cbn [mbind option_bind].
  destruct (assign_block_spec (wh + h2) (ww + w2) h2 w2
              (Z.to_nat (- min_v)) (Z.to_nat (- min_u)) t1 image_2)
    as (t2 & -> & Ht2 & Hp2); [done..|lia|lia|].
  cbn [mbind option_bind].
  destruct (crop_spec (wh + h2) (ww + w2) (h1 `max` h2 + 200)
              (w1 `max` w2 + 700) t2 Ht2) as [Hshape Hcrop].
  eexists; split; [done|]. split; [done|].
  intros r c k Hr Hc Hk.
  rewrite Hcrop, Hp2 by lia.
  destruct (decide (_ /\ _)) as [?|_]; [done|].
  rewrite Hp1. destruct (decide (_ /\ _)) as [?|_]; [done|].
  apply Hz; lia.
Qed.

(** X21.  The canvas is only as large as the two images together: when an
    offset exceeds the size of the other image, copying into the canvas
    raises. *)
Theorem canvas_raises (image_1 image_2 warpped_image_1 : image)
    (min_u min_v : Z) (h1 w1 h2 w2 wh ww : nat) :
  has_shape h1 w1 image_1 -> has_shape h2 w2 image_2 ->
  has_shape wh ww warpped_image_1 ->
  2 <= h2 -> 2 <= w2 -> 2 <= wh -> 2 <= ww ->
  (Z.of_nat h2 < min_v \/ Z.of_nat w2 < min_u \/
   Z.of_nat wh < - min_v \/ Z.of_nat ww < - min_u)%Z ->
  canvas image_1 image_2 warpped_image_1 min_u min_v = None.
Proof.
  intros H1 H2 HW Hh2 Hw2 Hwh Hww Hout. unfold canvas.
  rewrite (has_shape_shape0 _ _ _ H2), (has_shape_shape0 _ _ _ HW).
  rewrite (has_shape_shape1 _ _ _ H2), (has_shape_shape1 _ _ _ HW) by lia.
  destruct (np_zeros3_pixels (wh + h2) (ww + w2)) as (t0 & -> & Ht0 & _).
  cbn [mbind option_bind].
  replace (Z.to_nat (if decide (0 < min_v)%Z then min_v else 0%Z))
    with (Z.to_nat min_v) by (case_decide; lia).
  replace (Z.to_nat (if decide (0 < min_u)%Z then min_u else 0%Z))
    with (Z.to_nat min_u) by (case_decide; lia).
  replace (Z.to_nat (if decide (min_v < 0)%Z then (- min_v)%Z else 0%Z))
    with (Z.to_nat (- min_v)) by (case_decide; lia).
  replace (Z.to_nat (if decide (min_u < 0)%Z then (- min_u)%Z else 0%Z))
    with (Z.to_nat (- min_u)) by (case_decide; lia).
  destruct (decide (Z.of_nat h2 < min_v \/ Z.of_nat w2 < min_u)%Z)
    as [Hfirst|Hfits].
  - rewrite (assign_block_raises (wh + h2) (ww + w2) wh ww _ _ t0
               warpped_image_1); [done..| lia | lia | lia | lia].
  - destruct (assign_block_spec (wh + h2) (ww + w2) wh ww
                (Z.to_nat min_v) (Z.to_nat min_u) t0 warpped_image_1)
      as (t1 & -> & Ht1 & _); [done..|lia|lia|lia|].
    cbn [mbind option_bind].
    rewrite (assign_block_raises (wh + h2) (ww + w2) h2 w2 _ _ t1 image_2);
      [done..| lia | lia | lia | lia].
Qed.

Lemma canvas_content_witness :
  exists res,
    canvas image_5x5 image_2x2 image_5x5 (-1) 0 = Some res /\
    has_shape 7 7 res /\
    pixel res 1 2 1 = pixel image_2x2 1 1 1 /\
    pixel res 4 0 0 = pixel image_5x5 4 0 0 /\
    pixel res 6 6 2 = Some (Fin 0%Qc).
Proof.
  destruct (canvas_content image_5x5 image_2x2 image_5x5 (-1) 0 5 5 2 2 5 5)
    as (res & Hres & Hshape & Hpx).
  - split; [reflexivity|]. repeat constructor.
  - split; [reflexivity|]. repeat constructor.
  - split; [reflexivity|]. repeat constructor.
  - lia.
  - lia.
  - lia.
  - lia.
  - lia.
  - lia.
  - lia.
  - exists res. split; [exact Hres|]. split; [exact Hshape|].
    split; [|split].
    + rewrite (Hpx 1 2 1) by (simpl; lia). reflexivity.
    + rewrite (Hpx 4 0 0) by (simpl; lia). reflexivity.
    + rewrite (Hpx 6 6 2) by (simpl; lia). reflexivity.
Defined.

Lemma canvas_raises_witness :
  canvas image_2x2 image_2x2 image_2x2 0 3 = None.
Proof.
  apply (canvas_raises image_2x2 image_2x2 image_2x2 0 3 2 2 2 2 2 2).
  - split; [reflexivity|]. repeat constructor.
  - split; [reflexivity|]. repeat constructor.
  - split; [reflexivity|]. repeat constructor.
  - lia.
  - lia.
  - lia.
  - lia.
  - left. simpl. lia.
Defined.

(** ** The pickle files and the runs of [stitch_2_images] *)

Lemma string_app_length (a s : string) :
  String.length (a +:+ s) = String.length a + String.length s.
Proof. induction a as [|c a IH]; simpl; [done|]. by rewrite IH. Qed.

Lemma string_app_inj_r (a b s : string) : a +:+ s = b +:+ s -> a = b.
Proof.
  revert b; induction a as [|c a IH]; intros [|c' b] Heq; simpl in *.
  - done.
  - apply (f_equal String.length) in Heq.
    change (String c' b +:+ s) with (String c' (b +:+ s)) in Heq.
    rewrite !string_app_length in Heq. simpl in Heq.
    rewrite ?string_app_length in Heq. lia.
  - apply (f_equal String.length) in Heq.
    change (String c a +:+ s) with (String c (a +:+ s)) in Heq.
    rewrite !string_app_length in Heq. simpl in Heq.
    rewrite ?string_app_length in Heq. lia.
  - injection Heq as -> Heq. f_equal. by apply IH.
Qed.

Lemma pkl_inj (a b : string) : pkl a = pkl b -> a = b.
Proof. apply string_app_inj_r. Qed.

Section Stitch2Facts.

Variable choice : nat -> list nat.
Variable RectBivariateSpline :
  list Z -> list Z -> list (list fval) -> option (fval -> fval -> fval).
Variable Descriptors : Type.
Variable detectAndCompute : image -> option (list point * Descriptors).
Variable bf_match : Descriptors -> Descriptors -> option (list DMatch).
Variable get_points : nat -> image -> nat -> option (list point).

Local Abbreviation acquire :=
  (Stitch2.acquire_points Descriptors detectAndCompute bf_match get_points).
Local Abbreviation stitch := (Stitch2.stitch_points choice RectBivariateSpline).
Local Abbreviation stitch_2 :=
  (Stitch2.stitch_2_images choice RectBivariateSpline Descriptors
     detectAndCompute bf_match get_points).

(** X17.  What a saving call leaves in the pickle files: the points of the
    second image under its name, and those of the first image under its
    own name unless the two names are the same, in which case the one
    file holds the points of the second image only. *)
Theorem saved_points (images : gmap string image)
    (files files' : gmap string (list point)) (path_1 path_2 : string)
    (n : nat) (load SIFT : bool) (image_1 image_2 : image)
    (points_1 points_2 : list point) :
  acquire images files path_1 path_2 n true load SIFT =
    Some (image_1, image_2, points_1, points_2, files') ->
  exists name_1 name_2,
    image_name path_1 = Some name_1 /\
    image_name path_2 = Some name_2 /\
    files' !! pkl name_2 = Some points_2 /\
    files' !! pkl name_1 =
      Some (if decide (name_1 = name_2) then points_2 else points_1) /\
    forall file, file <> pkl name_1 -> file <> pkl name_2 ->
      files' !! file = files !! file.
Proof.
  unfold Stitch2.acquire_points.
  destruct (Stitch2.read_image images path_1) as [im1|];
    cbn [mbind option_bind]; [|done].
  destruct (Stitch2.read_image images path_2) as [im2|];
    cbn [mbind option_bind]; [|done].
  destruct (image_name path_1) as [name_1|]; cbn [mbind option_bind]; [|done].
  destruct (image_name path_2) as [name_2|]; cbn [mbind option_bind]; [|done].
  match goal with |- context [if load then ?a else ?b] =>
    destruct (if load then a else b) as [[p1 p2]|] end;
    cbn [mbind option_bind]; [|done].
  intros [= <- <- <- <- <-]. exists name_1, name_2.
  split_and!; [done..| | |].
  - by rewrite lookup_insert_eq.
  - case_decide as Hn.
    + subst. by rewrite lookup_insert_eq.
    + rewrite lookup_insert_ne by (intros ?%pkl_inj; done).
      by rewrite lookup_insert_eq.
  - intros file H1 H2. by rewrite !lookup_insert_ne.
Qed.

(** X18.  A run that saved its points is reproduced by a run that loads
    them and draws the same samples in RANSAC, when the names of the two
    images differ: the same panorama, and the pickle files unchanged. *)
Theorem saved_run_is_reproduced (images : gmap string image)
    (files files' : gmap string (list point)) (path_1 path_2 : string)
    (n n' : nat) (SIFT save' SIFT' : bool) (res : image) :
  image_name path_1 <> image_name path_2 ->
  stitch_2 images files path_1 path_2 n true false SIFT =
    Some (res, files') ->
  stitch_2 images files' path_1 path_2 n' save' true SIFT' =
    Some (res, files').
Proof.
  intros Hnames. unfold Stitch2.stitch_2_images.
  destruct (acquire images files path_1 path_2 n true false SIFT)
    as [[[[[im1 im2] p1] p2] f1]|] eqn:Hacq; cbn [mbind option_bind]; [|done].
  destruct (stitch im1 im2 p1 p2) as [r|] eqn:Hst;
    cbn [mbind option_bind]; [|done].
  intros [= <- <-].
  destruct (saved_points _ _ _ _ _ _ _ _ _ _ _ _ Hacq)
    as (name_1 & name_2 & Hn1 & Hn2 & Hl2 & Hl1 & _).
  rewrite decide_False in Hl1 by (intros ->; apply Hnames; congruence).
  assert (acquire images f1 path_1 path_2 n' save' true SIFT' =
          Some (im1, im2, p1, p2, f1)) as ->.
  { revert Hacq. unfold Stitch2.acquire_points.
    destruct (Stitch2.read_image images path_1) as [i1|];
      cbn [mbind option_bind]; [|done].
    destruct (Stitch2.read_image images path_2) as [i2|];
      cbn [mbind option_bind]; [|done].
    rewrite Hn1, Hn2. cbn [mbind option_bind].
    rewrite Hl1, Hl2. cbn [mbind option_bind].
    match goal with |- context [if SIFT then ?a else ?b] =>
      destruct (if SIFT then a else b) as [[q1 q2]|] end;
      cbn [mbind option_bind]; [|done].
    intros [= <- <- <- <- Hf]. do 2 f_equal.
    destruct save'; [|done].
    rewrite insert_id; [by rewrite insert_id|].
    by rewrite lookup_insert_ne by (intros ?%pkl_inj; congruence). }
  cbn [mbind option_bind]. by rewrite Hst.
Qed.

(** X19.  When RANSAC finds no inlier, the stitch raises: the homography
    fitted to no correspondence is the zero matrix with [H[2,2] = 1],
    which [np.linalg.inv] refuses. *)
Theorem stitch_raises_without_inliers (image_1 image_2 : image)
    (points_1 points_2 : list point) :
  get_inliers choice (py_tuple <$> points_1) (py_tuple <$> points_2)
    1%Qc 4 2000 None = Some ([], []) ->
  stitch image_1 image_2 points_1 points_2 = None.
Proof.
  intros Hin. unfold Stitch2.stitch_points. rewrite Hin.
  cbn [mbind option_bind].
  assert (compute_homography_mat [] [] =
          Some (Mat3 (Fin 0%Qc) (Fin 0%Qc) (Fin 0%Qc)
                     (Fin 0%Qc) (Fin 0%Qc) (Fin 0%Qc)
                     (Fin 0%Qc) (Fin 0%Qc) (Fin 1%Qc))) as ->
    by by_evaluation.
  cbn [mbind option_bind]. unfold warp_image.
  assert (np_linalg_inv (Mat3 (Fin 0%Qc) (Fin 0%Qc) (Fin 0%Qc)
                     (Fin 0%Qc) (Fin 0%Qc) (Fin 0%Qc)
                     (Fin 0%Qc) (Fin 0%Qc) (Fin 1%Qc)) = None) as ->
    by by_evaluation.
  done.
Qed.

(** The steps of a successful call, one equation each. *)
Lemma stitch_points_steps (image_1 image_2 : image)
    (points_1 points_2 inlier_src inlier_target : list point) (H : mat3)
    (warpped_image_1 : image) (min_u min_v : Z) (res : image) :
  get_inliers choice (py_tuple <$> points_1) (py_tuple <$> points_2)
    1%Qc 4 2000 None = Some (inlier_src, inlier_target) ->
  compute_homography_mat inlier_src inlier_target = Some H ->
  warp_image RectBivariateSpline (rgb_unit image_1) H =
    Some (warpped_image_1, min_u, min_v) ->
  canvas (rgb_unit image_1) (rgb_unit image_2) warpped_image_1 min_u min_v
    = Some res ->
  stitch image_1 image_2 points_1 points_2 = Some res.
Proof.
  intros Hin HH Hw Hc. unfold Stitch2.stitch_points.
  rewrite Hin. cbn [mbind option_bind]. rewrite HH. cbn [mbind option_bind].
  rewrite Hw. cbn [mbind option_bind]. exact Hc.
Qed.

Lemma stitch_2_images_steps (images : gmap string image)
    (files files' : gmap string (list point)) (path_1 path_2 : string)
    (n : nat) (save load SIFT : bool) (image_1 image_2 : image)
    (points_1 points_2 : list point) (res : image) :
  acquire images files path_1 path_2 n save load SIFT =
    Some (image_1, image_2, points_1, points_2, files') ->
  stitch image_1 image_2 points_1 points_2 = Some res ->
  stitch_2 images files path_1 path_2 n save load SIFT =
    Some (res, files').
Proof.
  intros Ha Hs. unfold Stitch2.stitch_2_images.
  rewrite Ha. cbn [mbind option_bind]. by rewrite Hs.
Qed.

End Stitch2Facts.

(** ** Runs to instantiate the theorems on *)

Lemma argmax_from_constant (best_i best i n : nat) :
  argmax_from best_i best i (replicate n best) = best_i.
Proof.
  revert i; induction n as [|n IH]; intros i; [done|].
  cbn [replicate argmax_from].
  destruct (decide (best < best)); [lia|apply IH].
Qed.

(** RANSAC when every round draws the same sample and the inlier set of
    that sample is the sample itself: every round records that set. *)
Lemma ransac_loop_fixed_sample (choice : nat -> list nat)
    (src tgt : list point) (d : Qc) (s T n k : nat) (h : history)
    (sample : list nat) :
  (forall j, choice j = sample) -> s <= length src ->
  _get_inlier_indices src tgt d sample = Some sample ->
  exists m,
    n <= m /\
    ransac_loop choice src tgt d s T n k h =
      Some (h.1 ++ replicate m sample, h.2 ++ replicate m (length sample)).
Proof.
  intros Hchoice Hs Hin. revert k h; induction n as [|n IH]; intros k [hs hn].
  - exists 0. split; [done|]. simpl. by rewrite !app_nil_r.
  - cbn [ransac_loop]. unfold ransac_round.
    rewrite decide_False by lia. rewrite Hchoice, Hin.
    cbn [mbind option_bind fst snd].
    case_decide.
    + rewrite Hin. cbn [mbind option_bind].
      destruct (IH (S k) ((hs ++ [sample]) ++ [sample],
                          (hn ++ [length sample]) ++ [length sample]))
        as (m & Hm & ->).
      exists (S (S m)). split; [lia|]. cbn [fst snd replicate].
      by rewrite <- !app_assoc.
    + cbn [mbind option_bind].
      destruct (IH (S k) (hs ++ [sample], hn ++ [length sample]))
        as (m & Hm & ->).
      exists (S m). split; [lia|]. cbn [fst snd replicate].
      by rewrite <- !app_assoc.
Qed.

Lemma get_inliers_fixed_sample (choice : nat -> list nat)
    (src tgt : list point) (d : Qc) (s N : nat) (T : option Z)
    (sample : list nat) (inlier_src inlier_tgt : list point) :
  (forall j, choice j = sample) -> s <= length src -> 1 <= N ->
  length src = length tgt -> src <> [] ->
  _get_inlier_indices src tgt d sample = Some sample ->
  take_indices src sample = Some inlier_src ->
  take_indices tgt sample = Some inlier_tgt ->
  get_inliers choice (py_tuple <$> src) (py_tuple <$> tgt) d s N T =
    Some (inlier_src, inlier_tgt).
Proof.
  intros Hchoice Hs HN Hlen Hne Hin Hsrc Htgt. unfold get_inliers.
  rewrite decide_True by (by rewrite !length_fmap).
  assert (forall l : list point, l <> [] ->
            keep_non_ndarray (py_tuple <$> l) = Some l) as Hkeep.
  { intros l Hl. rewrite keep_non_ndarray_tuples.
    - rewrite <- list_fmap_compose. f_equal. apply list_fmap_id.
    - by destruct l.
    - apply Forall_fmap, Forall_true. done. }
  assert (tgt <> []) as Hne'.
  { intros ->. destruct src; [done|]. simpl in Hlen. lia. }
  rewrite !Hkeep by done.
  cbn [mbind option_bind]. unfold ransac.
  destruct (ransac_loop_fixed_sample choice src tgt d s
              (length src `min` 10) N 0 ([], []) sample Hchoice Hs Hin)
    as (m & Hm & ->).
  cbn [mbind option_bind fst snd app].
  destruct m as [|m]; [lia|]. cbn [replicate np_argmax].
  rewrite argmax_from_constant. cbn [mbind option_bind lookup list_lookup].
  by rewrite Hsrc, Htgt.
Qed.

Lemma corners_inliers :
  get_inliers first_four (py_tuple <$> corners) (py_tuple <$> corners)
    1%Qc 4 2000 None = Some (corners, corners).
Proof.
  apply (get_inliers_fixed_sample first_four corners corners 1%Qc 4 2000
           None [0; 1; 2; 3] corners corners).
  - done.
  - simpl; lia.
  - lia.
  - done.
  - done.
  - by_evaluation.
  - reflexivity.
  - reflexivity.
Qed.

Lemma corners_run :
  is_Some (Stitch2.stitch_2_images first_four node_value unit no_detector
             no_matcher clicks_corners two_images ∅
             "left/view.png" "right/other.png" 4 true false false).
Proof.
  eexists (_, _).
  eapply stitch_2_images_steps.
  - vm_compute. reflexivity.
  - eapply stitch_points_steps.
    + apply corners_inliers.
    + vm_compute. reflexivity.
    + vm_compute. reflexivity.
    + vm_compute. reflexivity.
Qed.

Lemma saved_run_is_reproduced_witness :
  exists res files',
    Stitch2.stitch_2_images first_four node_value unit no_detector
      no_matcher clicks_corners two_images ∅
      "left/view.png" "right/other.png" 4 true false false
      = Some (res, files') /\
    Stitch2.stitch_2_images first_four node_value unit no_detector
      no_matcher clicks_corners two_images files'
      "left/view.png" "right/other.png" 4 false true false
      = Some (res, files').
Proof.
  destruct corners_run as [[res files'] Hrun].
  exists res, files'. split; [exact Hrun|].
  apply (saved_run_is_reproduced first_four node_value unit no_detector
           no_matcher clicks_corners two_images ∅ files'
           "left/view.png" "right/other.png" 4 4 false false false res).
  - vm_compute. discriminate.
  - exact Hrun.
Defined.

Lemma saved_points_witness :
  exists name_1 name_2,
    image_name "left/view.png" = Some name_1 /\
    image_name "right/view.png" = Some name_2 /\
    saved_view !! pkl name_2 = Some [pt 1 1] /\
    saved_view !! pkl name_1 =
      Some (if decide (name_1 = name_2) then [pt 1 1] else corners) /\
    forall file, file <> pkl name_1 -> file <> pkl name_2 ->
      saved_view !! file = (∅ : gmap string (list point)) !! file.
Proof.
  apply (saved_points unit no_detector no_matcher clicks two_images ∅
           saved_view "left/view.png" "right/view.png" 4 false false
           image_5x5 image_5x5 corners [pt 1 1]).
  by_evaluation.
Defined.

Lemma stitch_raises_without_inliers_witness :
  Stitch2.stitch_points first_four node_value image_5x5 image_5x5
    coincident_src coincident_tgt = None.
Proof.
  apply (stitch_raises_without_inliers first_four node_value
           image_5x5 image_5x5 coincident_src coincident_tgt).
  by_evaluation.
Defined.

(** ** [stitch_N_images]: failure and final state *)

Section StitchTotal.

Variables Bitmap Canvas : Type.
Variable stitch_arrays : nat -> Bitmap -> Bitmap -> option Canvas.
Variable imsave : Canvas -> option Bitmap.

Lemma insert_replicate_drop (name : string) (paths0 : list string) (i : nat) :
  i < length paths0 ->
  <[i := name]> (replicate i name ++ drop i paths0) =
  replicate (S i) name ++ drop (S i) paths0.
Proof.
  intros Hi. apply list_eq. intros j.
  destruct (decide (j = i)) as [->|Hne].
  - rewrite list_lookup_insert_eq
      by (rewrite length_app, length_replicate, length_drop; lia).
    rewrite lookup_app_l by (rewrite length_replicate; lia).
    by rewrite lookup_replicate_2 by lia.
  - rewrite list_lookup_insert_ne by done.
    destruct (decide (j < i)) as [Hlt|Hge].
    + rewrite !lookup_app_l by (rewrite length_replicate; lia).
      by rewrite !lookup_replicate_2 by lia.
    + rewrite !lookup_app_r by (rewrite length_replicate; lia).
      rewrite !length_replicate, !lookup_drop. f_equal. lia.
Qed.

Lemma stitch_loop_total (paths0 : list string) (disk0 : gmap string Bitmap)
    (n i : nat) (disk : gmap string Bitmap) (res : option Canvas) :
  "images12.png"%string ∉ paths0 ->
  all_stitches_succeed stitch_arrays imsave paths0 disk0 ->
  (forall b, <["images12.png"%string := b]> disk =
             <["images12.png"%string := b]> disk0) ->
  1 <= n -> i + n + 1 = length paths0 ->
  exists r saved,
    imsave r = Some saved /\
    stitch_loop Bitmap Canvas stitch_arrays imsave n i
      (replicate i "images12.png"%string ++ drop i paths0) disk res =
    Some (r, replicate (i + n) "images12.png"%string ++ drop (i + n) paths0,
          <["images12.png"%string := saved]> disk0).
Proof.
  intros Hname Hall. revert i disk res.
  induction n as [|n IH]; intros i disk res Hdisk Hn Hlen; [lia|].
  cbn [stitch_loop].
  destruct (Hall i)
    as (p1 & p2 & b1 & b2 & r & saved & Hp1 & Hp2 & Hb1 & Hb2 & Hr & Hsave);
    [lia|].
  assert (forall j, i <= j ->
            (replicate i "images12.png"%string ++ drop i paths0) !! j =
            paths0 !! j) as Hlook.
  { intros j Hj. rewrite lookup_app_r by (rewrite length_replicate; lia).
    rewrite length_replicate, lookup_drop. f_equal. lia. }
  rewrite !Hlook by lia. rewrite Hp1, Hp2. cbn [mbind option_bind].
  unfold stitch_2_images.
  assert (forall p, p ∈ paths0 -> disk !! p = disk0 !! p) as Hsame.
  { intros p Hp.
    assert (p <> "images12.png"%string) as Hne by (by intros ->).
    pose proof (f_equal (fun m => m !! p) (Hdisk saved)) as Heq.
    simpl in Heq. by rewrite !lookup_insert_ne in Heq. }
  rewrite !Hsame by (by eapply list_elem_of_lookup_2).
  rewrite Hb1, Hb2. cbn [mbind option_bind]. rewrite Hr.
  cbn [mbind option_bind]. rewrite Hsave. cbn [mbind option_bind].
  rewrite insert_replicate_drop by lia.
  destruct n as [|n].
  - cbn [stitch_loop mbind option_bind]. exists r, saved.
    split; [done|].
    replace (i + 1) with (S i) by lia. by rewrite Hdisk.
  - destruct (IH (S i) (<["images12.png"%string := saved]> disk) (Some r))
      as (r' & saved' & Hsave' & ->); [|lia|lia|].
    + intros b. by rewrite !insert_insert_eq.
    + exists r', saved'. split; [done|].
      by replace (S i + S n) with (i + S (S n)) by lia.
Qed.

(** X22.  With fewer than two paths [stitch_N_images] raises: the loop body
    never runs and [res] is unbound at [return res]. *)
Theorem stitch_N_images_needs_two_paths (paths : list string)
    (disk : gmap string Bitmap) :
  length paths < 2 ->
  stitch_N_images Bitmap Canvas stitch_arrays imsave paths disk = None.
Proof.
  intros Hlen. unfold stitch_N_images.
  by replace (length paths - 1) with 0 by lia.
Qed.

(** X23.  When every pairwise stitch of the original files succeeds
    and [plt.imsave] accepts each result, [stitch_N_images] returns a
    result; it leaves the caller's list with every entry but the last
    replaced by [images12.png], and adds to the disk that one file,
    holding what [plt.imsave] wrote of the result returned. *)
Theorem stitch_N_images_final_state (paths : list string)
    (disk : gmap string Bitmap) :
  "images12.png"%string ∉ paths -> 2 <= length paths ->
  all_stitches_succeed stitch_arrays imsave paths disk ->
  exists r saved,
    imsave r = Some saved /\
    stitch_N_images Bitmap Canvas stitch_arrays imsave paths disk =
    Some (r,
          replicate (length paths - 1) "images12.png"%string ++
            drop (length paths - 1) paths,
          <["images12.png"%string := saved]> disk).
Proof.
  intros Hname Hlen Hall. unfold stitch_N_images.
  destruct (stitch_loop_total paths disk (length paths - 1) 0 disk None)
    as (r & saved & Hsave & Hr); [done..|lia|lia|].
  by exists r, saved.
Qed.

End StitchTotal.

Lemma stitch_N_images_needs_two_paths_witness :
  stitch_N_images panorama panorama symbolic_stitch symbolic_imsave
    ["1.png"%string] (originals ["1.png"%string]) = None.
Proof.
  apply (stitch_N_images_needs_two_paths panorama panorama symbolic_stitch
           symbolic_imsave ["1.png"%string] (originals ["1.png"%string])).
  simpl. lia.
Defined.

Lemma stitch_N_images_final_state_witness :
  exists r saved,
    symbolic_imsave r = Some saved /\
    stitch_N_images panorama panorama symbolic_stitch symbolic_imsave
      ["1.png"; "2.png"; "3.png"]%string
      (originals ["1.png"; "2.png"; "3.png"]%string) =
    Some (r, ["images12.png"; "images12.png"; "3.png"]%string,
          <["images12.png"%string := saved]>
            (originals ["1.png"; "2.png"; "3.png"]%string)).
Proof.
  apply (stitch_N_images_final_state panorama panorama symbolic_stitch
           symbolic_imsave ["1.png"; "2.png"; "3.png"]%string
           (originals ["1.png"; "2.png"; "3.png"]%string)).
  - compute_done.
  - simpl. lia.
  - intros [|[|i]] Hi; [| |simpl in Hi; lia].
    + by exists "2.png"%string, "1.png"%string, (Original "2.png"),
        (Original "1.png"), (Stitched 0 (Original "2.png") (Original "1.png")),
        (Stitched 0 (Original "2.png") (Original "1.png")).
    + by exists "3.png"%string, "2.png"%string, (Original "3.png"),
        (Original "2.png"), (Stitched 1 (Original "3.png") (Original "2.png")),
        (Stitched 1 (Original "3.png") (Original "2.png")).
Defined.
